(** * neomoose: the Moose store (lib/db.js)

    A shallow embedding of [src/lib/db.js]: the record codec
    ([rowToMoose], [mooseToRow]), the argument guard [notInt], the search
    tokenizer of [_findMooseByQuery], the SQL statements of [MooseDB] with
    the two triggers of its schema, and the streaming exporter
    [MooseReadable].

    Conventions.
    - A JavaScript string is the list of its UTF-16 code units.  A TEXT
      value of the database is the string it is read back as; what a
      string becomes when it is bound to a statement is [bind_text].
    - A JavaScript number is an IEEE 754 value, [spec_float] of the
      Standard Library: a zero, an infinity, NaN, or a sign, a mantissa and
      an exponent denoting [+/- m * 2^e].  Every operation below depends
      only on the denoted value.
    - An exception is a value of [error]; code that may throw returns a
      [result]. *)

From Stdlib Require Import ZArith NArith List Bool String Ascii Lia.
From Stdlib Require Import Permutation Sorted.
From Stdlib Require Import Floats.SpecFloat.
Import ListNotations.
Open Scope Z_scope.

(* ================================================================== *)
(** * JavaScript values *)

(** ** Strings *)

Definition jsstring := list N.

Definition str (s : string) : jsstring :=
  map N_of_ascii (list_ascii_of_string s).

Fixpoint jsstring_eqb (a b : jsstring) : bool :=
  match a, b with
  | [], [] => true
  | x :: a', y :: b' => N.eqb x y && jsstring_eqb a' b'
  | _, _ => false
  end.

(** [Array.prototype.join]. *)
Fixpoint join (sep : jsstring) (arr : list jsstring) : jsstring :=
  match arr with
  | [] => []
  | [w] => w
  | w :: rest => w ++ sep ++ join sep rest
  end.

(** ** Strings as the database takes them

    better-sqlite3 hands a string to SQLite as UTF-8 text and makes a
    string of the UTF-8 text of a column.  The conversion to UTF-8 puts
    U+FFFD in the place of every surrogate code unit that is not part of a
    pair; everything else comes back as it went in.  [bind_text s] is the
    string that is read back after [s] was bound. *)

(** D800 to DBFF, and DC00 to DFFF. *)
Definition is_high_surrogate (c : N) : bool :=
  ((55296 <=? c) && (c <=? 56319))%N.

Definition is_low_surrogate (c : N) : bool :=
  ((56320 <=? c) && (c <=? 57343))%N.

Definition replacement_character : N := 65533%N.

Fixpoint bind_text (s : jsstring) : jsstring :=
  match s with
  | [] => []
  | c :: rest =>
      if is_high_surrogate c then
        match rest with
        | d :: rest' =>
            if is_low_surrogate d then c :: d :: bind_text rest'
            else replacement_character :: bind_text rest
        | [] => [replacement_character]
        end
      else if is_low_surrogate c then replacement_character :: bind_text rest
      else c :: bind_text rest
  end.

(** ** Numbers *)

Definition number := spec_float.

Definition NaN : number := S754_nan.
Definition Infinity : number := S754_infinity false.

(** The number denoting the integer [z] (exact: no rounding is modelled,
    the callers below stay under 2^53). *)
Definition num_of_Z (z : Z) : number :=
  match z with
  | Z0 => S754_zero false
  | Zpos p => S754_finite false p 0
  | Zneg p => S754_finite true p 0
  end.

(** 1.5 = 3 * 2^-1 *)
Definition one_and_a_half : number := S754_finite false 3 (-1).

Definition isNaN (val : number) : bool :=
  match val with S754_nan => true | _ => false end.

Definition isFinite (val : number) : bool :=
  match val with
  | S754_zero _ | S754_finite _ _ _ => true
  | S754_infinity _ | S754_nan => false
  end.

(** [Number.isInteger]: finite, and the denoted value has no fraction. *)
Definition Number_isInteger (val : number) : bool :=
  match val with
  | S754_zero _ => true
  | S754_finite _ m e =>
      if 0 <=? e then true else Zpos m mod 2 ^ (- e) =? 0
  | S754_infinity _ | S754_nan => false
  end.

(** The integer part of a finite number, rounding towards zero. *)
Definition num_trunc (val : number) : option Z :=
  match val with
  | S754_zero _ => Some 0
  | S754_finite s m e =>
      let mag := if 0 <=? e then Zpos m * 2 ^ e else Zpos m / 2 ^ (- e) in
      Some (if s then - mag else mag)
  | S754_infinity _ | S754_nan => None
  end.

(** [abs(val) > bound], for an integer [bound]. *)
Definition num_abs_gt (val : number) (bound : Z) : bool :=
  match val with
  | S754_zero _ => bound <? 0
  | S754_finite _ m e =>
      if 0 <=? e then bound <? Zpos m * 2 ^ e
      else bound * 2 ^ (- e) <? Zpos m
  | S754_infinity _ => true
  | S754_nan => false
  end.

(** Comparison of two numbers by value; NaN is placed below everything
    (SQLite never stores it: a NaN is bound as NULL). *)
Definition num_scaled (val : number) (e0 : Z) : Z :=
  match val with
  | S754_finite s m e =>
      let v := Zpos m * 2 ^ (e - e0) in if s then - v else v
  | _ => 0
  end.

Definition num_exponent (val : number) : Z :=
  match val with S754_finite _ _ e => e | _ => 0 end.

Definition num_compare (x y : number) : comparison :=
  match x, y with
  | S754_nan, S754_nan => Eq
  | S754_nan, _ => Lt
  | _, S754_nan => Gt
  | S754_infinity sx, S754_infinity sy =>
      match sx, sy with
      | true, false => Lt
      | false, true => Gt
      | _, _ => Eq
      end
  | S754_infinity s, _ => if s then Lt else Gt
  | _, S754_infinity s => if s then Gt else Lt
  | _, _ =>
      let e0 := Z.min (num_exponent x) (num_exponent y) in
      Z.compare (num_scaled x e0) (num_scaled y e0)
  end.

(** ** Dates

    A [Date] object is its time value: an integral number of milliseconds,
    or NaN ([None], an invalid date). *)

Definition Date := option Z.

Definition max_time_value : Z := 8640000000000000.

(** [TimeClip] of ECMAScript, which [new Date(value)] applies to a number. *)
Definition TimeClip (time : number) : Date :=
  if negb (isFinite time) then None
  else if num_abs_gt time max_time_value then None
  else num_trunc time.

Definition new_Date (value : number) : Date := TimeClip value.

(** [+date]: the time value as a number. *)
Definition Date_valueOf (d : Date) : number :=
  match d with
  | None => NaN
  | Some t => num_of_Z t
  end.

(** ** Properties that may be missing *)

Inductive jsopt (A : Type) : Type :=
| Undefined : jsopt A
| Null : jsopt A
| Val (a : A) : jsopt A.
Arguments Undefined {A}.
Arguments Null {A}.
Arguments Val {A} a.

(** [v ?? dflt], the result being a value or [null] ([None]). *)
Definition nullish_or {A : Type} (v : jsopt A) (dflt : option A) : option A :=
  match v with
  | Val a => Some a
  | Undefined | Null => dflt
  end.

(** A property read back from a column: [null] or a value. *)
Definition of_column {A : Type} (c : option A) : jsopt A :=
  match c with
  | None => Null
  | Some a => Val a
  end.

(** [ToBoolean] of a flag, and of a 0/1 column. *)
Definition truthy (v : jsopt bool) : bool :=
  match v with
  | Val b => b
  | Undefined | Null => false
  end.

Definition truthy_int (c : option Z) : bool :=
  match c with
  | None => false
  | Some z => negb (z =? 0)
  end.

(** ** Exceptions *)

Inductive error : Type :=
| TypeError (message : string)
| SqliteError (message : string).

Inductive result (A : Type) : Type :=
| Ok (a : A)
| Throw (e : error).
Arguments Ok {A} a.
Arguments Throw {A} e.

(* ================================================================== *)
(** * The record codec *)

(** What a caller may store under [created]: the typedef says a [Date];
    a plain number takes the same path through unary plus. *)
Inductive created_val : Type :=
| CDate (d : Date)
| CNum (x : number).

(** [+created] *)
Definition ToNumber (v : jsopt created_val) : number :=
  match v with
  | Undefined => NaN
  | Null => S754_zero false
  | Val (CDate d) => Date_valueOf d
  | Val (CNum x) => x
  end.

(** typedef Moose *)
Record Moose : Type := mkMoose {
  name : jsopt jsstring;
  created : jsopt created_val;
  image : jsopt jsstring;
  shade : jsopt jsstring;
  hd : jsopt bool;
  shaded : jsopt bool;
  extended : jsopt bool
}.

(** typedef MooseRow; [None] is [null]. *)
Record MooseRow : Type := mkMooseRow {
  row_name : option jsstring;
  row_created : option number;
  row_image : option jsstring;
  row_shade : option jsstring;
  row_hd : option Z;
  row_shaded : option Z;
  row_extended : option Z
}.

Definition rowToMoose (row : option MooseRow) : option Moose :=
  match row with
  | None => None
  | Some row =>
      Some {|
        name := of_column (row_name row);
        image := of_column (row_image row);
        shade := of_column (row_shade row);
        created :=
          Val (CDate (new_Date
            (match row_created row with
             | None => S754_zero false
             | Some c => c
             end)));
        hd := Val (truthy_int (row_hd row));
        shaded := Val (truthy_int (row_shaded row));
        extended := Val (truthy_int (row_extended row))
      |}
  end.

Definition mooseToRow (moose : Moose) : MooseRow :=
  {|
    row_name := nullish_or (name moose) None;
    row_created :=
      if isNaN (ToNumber (created moose)) then None
      else Some (ToNumber (created moose));
    row_image := nullish_or (image moose) None;
    row_shade := nullish_or (shade moose) (Some []);
    row_hd := Some (if truthy (hd moose) then 1 else 0);
    row_shaded := Some (if truthy (shaded moose) then 1 else 0);
    row_extended := Some (if truthy (extended moose) then 1 else 0)
  |}.

Definition notInt (val : number) : bool :=
  isNaN val || negb (isFinite val) || negb (Number_isInteger val).

(* ================================================================== *)
(** * The store

    The schema of the constructor: table [Moose] (a rowid table with a
    unique index on [name]; [name], [created], [image] NOT NULL), the
    full-text table [MooseSearch] with the single column [moose_name], and
    the triggers [Moose_InsertTrigger] and [Moose_DelTrigger]. *)

Definition Buffer := list N.

Record MooseRec : Type := mkMooseRec {
  rowid : Z;
  col_name : jsstring;
  col_created : number;
  col_image : jsstring;
  col_shade : option jsstring;
  col_hd : option Z;
  col_shaded : option Z;
  col_extended : option Z;
  col_png : option Buffer
}.

Record Store : Type := mkStore {
  Moose_table : list MooseRec;       (* in rowid order *)
  MooseSearch : list jsstring        (* the indexed moose_name values *)
}.

Definition empty_store : Store := mkStore [] [].

Definition with_rowid (id : Z) (r : MooseRec) : MooseRec :=
  mkMooseRec id (col_name r) (col_created r) (col_image r) (col_shade r)
    (col_hd r) (col_shaded r) (col_extended r) (col_png r).

Definition with_png (png : option Buffer) (r : MooseRec) : MooseRec :=
  mkMooseRec (rowid r) (col_name r) (col_created r) (col_image r)
    (col_shade r) (col_hd r) (col_shaded r) (col_extended r) png.

(** Column [created] has INTEGER affinity: an integral REAL is stored as
    an integer and read back as the same value; negative zero comes back
    as zero. *)
Definition integer_affinity (x : number) : number :=
  match x with
  | S754_zero _ => S754_zero false
  | _ => x
  end.

(** [SELECT max(rowid) FROM Moose]; [None] is NULL, on an empty table. *)
Fixpoint max_rowid (t : list MooseRec) : option Z :=
  match t with
  | [] => None
  | r :: rest =>
      match max_rowid rest with
      | None => Some (rowid r)
      | Some a => Some (Z.max (rowid r) a)
      end
  end.

(** The rowid SQLite gives a new row: one past the largest in use. *)
Definition next_rowid (t : list MooseRec) : Z :=
  match max_rowid t with
  | None => 1
  | Some a => a + 1
  end.

(** A row takes its place in rowid order. *)
Fixpoint table_insert (r : MooseRec) (t : list MooseRec) : list MooseRec :=
  match t with
  | [] => [r]
  | x :: rest =>
      if rowid r <? rowid x then r :: x :: rest
      else x :: table_insert r rest
  end.

(** [name = :text], for a text of the database. *)
Definition name_is (text : jsstring) (r : MooseRec) : bool :=
  jsstring_eqb (col_name r) text.

(** [name = ?], the string [n] being bound to the parameter. *)
Definition has_name (n : jsstring) : MooseRec -> bool :=
  name_is (bind_text n).

(** The columns every SELECT of the class lists. *)
Definition select_columns (r : MooseRec) : MooseRow :=
  {|
    row_name := Some (col_name r);
    row_created := Some (col_created r);
    row_image := Some (col_image r);
    row_shade := col_shade r;
    row_hd := col_hd r;
    row_shaded := col_shaded r;
    row_extended := col_extended r
  |}.

(** ** Triggers *)

(** AFTER INSERT: [INSERT INTO MooseSearch(moose_name) VALUES (NEW.name)]. *)
Definition Moose_InsertTrigger (new : MooseRec) (db : Store) : Store :=
  mkStore (Moose_table db) (MooseSearch db ++ [col_name new]).

(** [UPDATE Moose SET rowid = :id WHERE rowid = (SELECT max(rowid) FROM Moose)] *)
Definition move_max_rowid (id : Z) (t : list MooseRec) : list MooseRec :=
  match max_rowid t with
  | None => t
  | Some mx =>
      fold_right (fun r acc => table_insert (with_rowid id r) acc)
        (filter (fun r => negb (rowid r =? mx)) t)
        (filter (fun r => rowid r =? mx) t)
  end.

(** AFTER DELETE: the index entry goes, and the row holding the largest
    rowid is moved to the rowid of the deleted row. *)
Definition Moose_DelTrigger (old : MooseRec) (db : Store) : Store :=
  let search :=
    filter (fun n => negb (jsstring_eqb n (col_name old))) (MooseSearch db) in
  mkStore (move_max_rowid (rowid old) (Moose_table db)) search.

(** ** Prepared statements *)

Definition UNIQUE_failed : string := "UNIQUE constraint failed: Moose.name".

(** [saveMooseStmt]: NOT NULL constraints are checked first, in column
    order, then the unique index on [name]; a failing statement changes
    nothing.  The strings of the row are bound as text. *)
Definition saveMooseStmt_run (row : MooseRow) (db : Store) : result Store :=
  match row_name row, row_created row, row_image row with
  | None, _, _ => Throw (SqliteError "NOT NULL constraint failed: Moose.name")
  | Some _, None, _ =>
      Throw (SqliteError "NOT NULL constraint failed: Moose.created")
  | Some _, Some _, None =>
      Throw (SqliteError "NOT NULL constraint failed: Moose.image")
  | Some n, Some c, Some i =>
      if existsb (has_name n) (Moose_table db) then
        Throw (SqliteError UNIQUE_failed)
      else
        let new :=
          mkMooseRec (next_rowid (Moose_table db)) (bind_text n)
            (integer_affinity c) (bind_text i)
            (option_map bind_text (row_shade row))
            (row_hd row) (row_shaded row) (row_extended row) None in
        Ok (Moose_InsertTrigger new
              (mkStore (table_insert new (Moose_table db)) (MooseSearch db)))
  end.

(** [deleteMooseStmt]: the unique index leaves at most one row to delete. *)
Definition deleteMooseStmt_run (n : jsstring) (db : Store) : Store :=
  match find (has_name n) (Moose_table db) with
  | None => db
  | Some old =>
      Moose_DelTrigger old
        (mkStore (filter (fun r => negb (has_name n r)) (Moose_table db))
                 (MooseSearch db))
  end.

(** [saveMoosePngStmt] *)
Definition saveMoosePngStmt_run (n : jsstring) (png : Buffer) (db : Store)
  : Store :=
  mkStore
    (map (fun r => if has_name n r then with_png (Some png) r else r)
       (Moose_table db))
    (MooseSearch db).

(** [getMooseByNameStmt.get]; [None] is [undefined], no row. *)
Definition getMooseByNameStmt_get (n : jsstring) (db : Store)
  : option MooseRow :=
  option_map select_columns (find (has_name n) (Moose_table db)).

(** [getMoosePngStmt.get(moose)?.png] *)
Definition getMoosePngStmt_get_png (n : jsstring) (db : Store)
  : jsopt Buffer :=
  match find (has_name n) (Moose_table db) with
  | None => Undefined
  | Some r => of_column (col_png r)
  end.

(** [getRandomMooseStmt.get], [draw] being the value of [ABS(RANDOM())].
    On an empty table the modulus is NULL and no rowid equals NULL. *)
Definition getRandomMooseStmt_get (draw : Z) (db : Store) : option MooseRow :=
  match max_rowid (Moose_table db) with
  | None => None
  | Some mx =>
      if mx =? 0 then None
      else
        option_map select_columns
          (find (fun r => rowid r =? Z.rem draw mx + 1) (Moose_table db))
  end.

(** [dumpDbStmt]: every row, in rowid order. *)
Definition dumpDbStmt_all (db : Store) : list MooseRow :=
  map select_columns (Moose_table db).

(** ** Methods of [MooseDB] *)

Definition getMooseByName (n : jsstring) (db : Store) : option Moose :=
  rowToMoose (getMooseByNameStmt_get n db).

Definition getRandomMoose (draw : Z) (db : Store) : option Moose :=
  rowToMoose (getRandomMooseStmt_get draw db).

Definition saveMoose (moose : Moose) (db : Store) : result Store :=
  saveMooseStmt_run (mooseToRow moose) db.

Definition getMoosePng (moose : jsstring) (db : Store) : jsopt Buffer :=
  getMoosePngStmt_get_png moose db.

Definition saveMoosePng (n : jsstring) (png : Buffer) (db : Store) : Store :=
  saveMoosePngStmt_run n png db.

Definition deleteMoose (moosename : jsstring) (db : Store) : Store :=
  deleteMooseStmt_run moosename db.

(** A template literal's rendering of [moose.name]. *)
Definition template_name (v : jsopt jsstring) : jsstring :=
  match v with
  | Undefined => str "undefined"
  | Null => str "null"
  | Val s => s
  end.

Definition is_unique_violation (e : error) : bool :=
  match e with
  | SqliteError message => String.eqb message UNIQUE_failed
  | TypeError _ => false
  end.

(** The body of the transaction of [bulkSaveMoose]: the exception that
    left the loop if any, the store as the loop left it, and the lines given
    to [logger.warn]. *)
Fixpoint bulk_loop (meese : list Moose) (db : Store) (log : list jsstring)
  : result unit * Store * list jsstring :=
  match meese with
  | [] => (Ok tt, db, log)
  | moose :: rest =>
      match saveMooseStmt_run (mooseToRow moose) db with
      | Ok db' => bulk_loop rest db' log
      | Throw e =>
          if is_unique_violation e then
            bulk_loop rest db
              (log ++ [str "BULK IMPORT MOOSE ALREADY EXISTS "
                         ++ template_name (name moose)])
          else (Throw e, db, log)
      end
  end.

(** [db.transaction(fn)]: COMMIT when [fn] returns, ROLLBACK and rethrow
    when it throws.  What was logged stays logged. *)
Definition transaction
  (fn : Store -> result unit * Store * list jsstring) (db : Store)
  : result unit * Store * list jsstring :=
  match fn db with
  | (Ok tt, db', log) => (Ok tt, db', log)
  | (Throw e, _, log) => (Throw e, db, log)
  end.

Definition bulkSaveMoose (meese : list Moose) (db : Store)
  : result unit * Store * list jsstring :=
  transaction (fun db => bulk_loop meese db []) db.

(** The store a call leaves behind. *)
Definition store_after (r : result Store) (before : Store) : Store :=
  match r with
  | Ok db' => db'
  | Throw _ => before
  end.

(** ** Reachable stores *)

Inductive mutation : Type :=
| SaveMoose (moose : Moose)
| BulkSaveMoose (meese : list Moose)
| DeleteMoose (moosename : jsstring)
| SaveMoosePng (n : jsstring) (png : Buffer).

Definition apply_mutation (op : mutation) (db : Store) : Store :=
  match op with
  | SaveMoose moose => store_after (saveMoose moose db) db
  | BulkSaveMoose meese => snd (fst (bulkSaveMoose meese db))
  | DeleteMoose n => deleteMoose n db
  | SaveMoosePng n png => saveMoosePng n png db
  end.

Inductive reachable : Store -> Prop :=
| reach_empty : reachable empty_store
| reach_step (op : mutation) (db : Store) :
    reachable db -> reachable (apply_mutation op db).

(* ================================================================== *)
(** * The search tokenizer and the gallery *)

(** The class [\s] of a regular expression. *)
Definition is_white_space (c : N) : bool :=
  (existsb (N.eqb c)
     [9; 10; 11; 12; 13; 32; 160; 5760; 8232; 8233; 8239; 8287; 12288; 65279]
   || (8192 <=? c) && (c <=? 8202))%N.

(** [query.split(/\s+/)]: the pieces between maximal runs of white space;
    a run at either end leaves an empty piece there.  [in_run] says that
    the code unit before was white space. *)
Fixpoint split_from (in_run : bool) (query : jsstring) : list jsstring :=
  match query with
  | [] => [[]]
  | c :: rest =>
      if is_white_space c then
        if in_run then split_from true rest
        else [] :: split_from true rest
      else
        match split_from false rest with
        | word :: words => (c :: word) :: words
        | [] => [[c]]
        end
  end.

Definition split_white_space (query : jsstring) : list jsstring :=
  split_from false query.

Definition dquote : N := 34.
Definition space : N := 32.

(** [word.replace] of the tokenizer: every quote character (code unit 34)
    of [word] is written twice. *)
Definition double_quotes (word : jsstring) : jsstring :=
  flat_map (fun c => if N.eqb c dquote then [dquote; dquote] else [c]) word.

(** The callback given to [map]: [ind] is the index of [word] in the array
    of length [len]. *)
Definition escape_word (word : jsstring) (ind len : nat) : jsstring :=
  if (jsstring_eqb word (str "AND") || jsstring_eqb word (str "OR"))
     && negb (Nat.eqb ind (len - 1))
  then word
  else [dquote] ++ double_quotes word ++ [dquote].

Fixpoint map_from (ind len : nat) (arr : list jsstring) : list jsstring :=
  match arr with
  | [] => []
  | word :: rest => escape_word word ind len :: map_from (S ind) len rest
  end.

(** [newQ] of [_findMooseByQuery]. *)
Definition tokenize (query : jsstring) : jsstring :=
  let arr := split_white_space query in
  join [space] (map_from 0 (List.length arr) arr).

(** ** The full-text query language

    The part of the FTS5 query syntax a sanitised query can reach, after
    the SQLite documentation and fts5_expr.c: quoted strings (a doubled
    quote stands for one), barewords, the keywords AND, OR and NOT, and the
    punctuation the lexer knows.  The text is read as a C string: it ends
    at the first NUL.  The tokens go to the parser one by one, so that of
    two errors the one further to the left is reported. *)

Inductive fts5_token : Type :=
| FTS5_STRING (text : jsstring)
| FTS5_AND
| FTS5_OR
| FTS5_NOT
| FTS5_PUNCT (c : N).

Inductive lex_state : Type :=
| LexStart
| LexString (acc : jsstring)        (* inside a quoted string *)
| LexQuoteSeen (acc : jsstring)     (* a quote inside a string was read *)
| LexBareword (acc : jsstring).

Definition is_fts5_space (c : N) : bool :=
  existsb (N.eqb c) [32; 9; 10; 13]%N.

(** ( ) { } : , + * - ^ *)
Definition is_fts5_punct (c : N) : bool :=
  existsb (N.eqb c) [40; 41; 123; 125; 58; 44; 43; 42; 45; 94]%N.

Definition is_bareword_char (c : N) : bool :=
  ((128 <=? c) || (48 <=? c) && (c <=? 57) || (65 <=? c) && (c <=? 90)
   || (97 <=? c) && (c <=? 122) || (c =? 95) || (c =? 26))%N.

Definition bareword_token (w : jsstring) : fts5_token :=
  if jsstring_eqb w (str "AND") then FTS5_AND
  else if jsstring_eqb w (str "OR") then FTS5_OR
  else if jsstring_eqb w (str "NOT") then FTS5_NOT
  else FTS5_STRING w.

(** The message of a syntax error names the token the parser could not
    place, between quote characters; at the end of the text that token is
    empty. *)
Definition fts5_syntax_error (near : string) : error :=
  SqliteError
    (String.append "fts5: syntax error near "
       (String "034"%char (String.append near (String "034"%char EmptyString)))).

Definition unterminated_string : error := SqliteError "unterminated string".

(** The one character of a token. *)
Definition char_text (c : N) : string := String (ascii_of_N c) EmptyString.

(** Reading [c] between tokens: the tokens that are complete with [c], and
    the state after it or the error of a character no token starts with. *)
Definition lex_start (c : N) : list fts5_token * result lex_state :=
  if is_fts5_space c then ([], Ok LexStart)
  else if N.eqb c dquote then ([], Ok (LexString []))
  else if is_fts5_punct c then ([FTS5_PUNCT c], Ok LexStart)
  else if is_bareword_char c then ([], Ok (LexBareword [c]))
  else ([], Throw (fts5_syntax_error (char_text c))).

Definition lex_step (st : lex_state) (c : N)
  : list fts5_token * result lex_state :=
  match st with
  | LexStart => lex_start c
  | LexString acc =>
      if N.eqb c dquote then ([], Ok (LexQuoteSeen acc))
      else ([], Ok (LexString (acc ++ [c])))
  | LexQuoteSeen acc =>
      if N.eqb c dquote then ([], Ok (LexString (acc ++ [dquote])))
      else
        let (toks, next) := lex_start c in (FTS5_STRING acc :: toks, next)
  | LexBareword acc =>
      if is_bareword_char c then ([], Ok (LexBareword (acc ++ [c])))
      else
        let (toks, next) := lex_start c in (bareword_token acc :: toks, next)
  end.

(** At the end of the text; a string that is still open is an error. *)
Definition lex_end (st : lex_state) : list fts5_token * option error :=
  match st with
  | LexStart => ([], None)
  | LexString _ => ([], Some unterminated_string)
  | LexQuoteSeen acc => ([FTS5_STRING acc], None)
  | LexBareword acc => ([bareword_token acc], None)
  end.

(** The tokens of [z], and the error that stopped the lexer if one did. *)
Fixpoint fts5_lex (st : lex_state) (z : jsstring)
  : list fts5_token * option error :=
  match z with
  | [] => lex_end st
  | c :: rest =>
      if N.eqb c 0 then lex_end st
      else
        match lex_step st c with
        | (toks, Throw e) => (toks, Some e)
        | (toks, Ok st') =>
            let (more, stopped) := fts5_lex st' rest in (toks ++ more, stopped)
        end
  end.

(** The grammar over strings and the three binary operators: an operator
    stands between two operands, and strings in a row are an implicit AND.
    [operand_due] says that an operand has to come next.  The parser throws
    at the first token that has no place; [Ok due] says that every token
    had one and whether an operand is still due after the last. *)
Fixpoint fts5_parse (operand_due : bool) (toks : list fts5_token)
  : result bool :=
  match toks with
  | [] => Ok operand_due
  | FTS5_STRING _ :: rest => fts5_parse false rest
  | FTS5_AND :: rest =>
      if operand_due then Throw (fts5_syntax_error "AND")
      else fts5_parse true rest
  | FTS5_OR :: rest =>
      if operand_due then Throw (fts5_syntax_error "OR")
      else fts5_parse true rest
  | FTS5_NOT :: rest =>
      if operand_due then Throw (fts5_syntax_error "NOT")
      else fts5_parse true rest
  | FTS5_PUNCT c :: _ =>          (* outside the modelled part *)
      Throw (fts5_syntax_error (char_text c))
  end.

Inductive sort_order : Type := ASC | DESC.

(** The SQL a method prepares and runs, with what it interpolates. *)
Inductive statement : Type :=
| PageStmt (order : sort_order) (offset limit : number)
| SearchStmt (order : sort_order) (offset limit : number) (newQ : jsstring).

Definition datatype_mismatch : error := SqliteError "datatype mismatch".

(** A number that is not finite is written as a name, which SQLite takes
    for a column when it prepares the statement. *)
Definition no_such_column (x : number) : option error :=
  match x with
  | S754_nan => Some (SqliteError "no such column: NaN")
  | S754_infinity _ => Some (SqliteError "no such column: Infinity")
  | S754_zero _ | S754_finite _ _ _ => None
  end.

(** [LIMIT offset, limit]: a negative offset skips nothing, a negative
    limit keeps everything. *)
Definition sql_limit {A : Type} (offset limit : Z) (rows : list A) : list A :=
  let rest := skipn (Z.to_nat offset) rows in
  if limit <? 0 then rest else firstn (Z.to_nat limit) rest.

(** [ORDER BY created] by a sorter: rows with equal [created] keep the
    order in which they come in. *)
Definition created_before (order : sort_order) (a b : MooseRec) : bool :=
  match order, num_compare (col_created a) (col_created b) with
  | ASC, Lt => true
  | DESC, Gt => true
  | _, _ => false
  end.

Fixpoint order_insert (order : sort_order) (r : MooseRec)
  (sorted : list MooseRec) : list MooseRec :=
  match sorted with
  | [] => [r]
  | x :: rest =>
      if created_before order x r || negb (created_before order r x)
      then x :: order_insert order r rest
      else r :: x :: rest
  end.

Definition order_by_created (order : sort_order) (rows : list MooseRec)
  : list MooseRec :=
  fold_left (fun sorted r => order_insert order r sorted) rows [].

(** [ORDER BY created] of the page statement is met by the index
    [Moose_CreatedIdx], read forwards for ASC and backwards for DESC: rows
    with equal [created] come in the order of their rowids, and in the
    reverse of it for DESC. *)
Definition Moose_CreatedIdx_scan (order : sort_order) (t : list MooseRec)
  : list MooseRec :=
  match order with
  | ASC => order_by_created ASC t
  | DESC => rev (order_by_created ASC t)
  end.

(** [.map(rowToMoose)] *)
Definition map_rowToMoose (rows : list MooseRec) : list Moose :=
  flat_map
    (fun r =>
       match rowToMoose (Some (select_columns r)) with
       | Some m => [m]
       | None => []
       end)
    rows.

Section Gallery.

(** The template literal writes [+offset] and [+limit] in decimal digits.
    Below 2^53 the digits spell the integer itself.  From there on
    [Number::toString] writes the shortest digits that read back as the
    same number and fills up with zeros: the text spells an integer nearby,
    which [decimal_text] stands for. *)
Variable decimal_text : number -> Z.

(** Whether an indexed name satisfies a well-formed expression is the
    business of the 'porter unicode61' tokenizer of FTS5, which the
    repository does not contain. *)
Variable fts5_satisfies : list fts5_token -> jsstring -> bool.

(** The order in which the rows of the join reach ORDER BY: it decides
    only how rows with equal [created] follow one another, and is left to
    the plan SQLite chooses (the rank of the subquery, the rowids of the
    index). *)
Variable join_order :
  sort_order -> list fts5_token -> Store -> list MooseRec -> list MooseRec.

(** One operand of LIMIT, read from its text.  It must be an integer of 64
    bits; a text with a fraction or an exponent (from 10^21 on) is a REAL,
    and so is an integer that does not fit. *)
Definition limit_operand (x : number) : result Z :=
  if Number_isInteger x then
    match num_trunc x with
    | Some z =>
        if Z.abs z <? 2 ^ 53 then Ok z
        else if Z.abs z <? 2 ^ 63 then Ok (decimal_text x)
        else Throw datatype_mismatch
    | None => Throw datatype_mismatch
    end
  else Throw datatype_mismatch.

(** Both operands: a name that is no column fails when the statement is
    prepared, [limit] being looked at first; the types are checked when the
    statement starts to run. *)
Definition limit_operands (offset limit : number) : result (Z * Z) :=
  match no_such_column limit, no_such_column offset with
  | Some e, _ => Throw e
  | None, Some e => Throw e
  | None, None =>
      match limit_operand offset, limit_operand limit with
      | Ok off, Ok lim => Ok (off, lim)
      | Throw e, _ => Throw e
      | Ok _, Throw e => Throw e
      end
  end.

(** [SELECT moose_name FROM MooseSearch WHERE moose_name MATCH ?], the
    tokens of the expression next to the names found. *)
Definition MooseSearch_match (expr : jsstring) (db : Store)
  : result (list fts5_token * list jsstring) :=
  let (toks, stopped) := fts5_lex LexStart (bind_text expr) in
  match fts5_parse true toks, stopped with
  | Throw e, _ => Throw e
  | Ok _, Some e => Throw e
  | Ok true, None => Throw (fts5_syntax_error "")
  | Ok false, None => Ok (toks, filter (fts5_satisfies toks) (MooseSearch db))
  end.

(** [Moose INNER JOIN (...) ON name == moose_name] *)
Definition inner_join (names : list jsstring) (t : list MooseRec)
  : list MooseRec :=
  flat_map (fun r => map (fun _ => r) (filter (jsstring_eqb (col_name r)) names))
    t.

Definition _findMooseByQuery (query : jsstring) (offset limit : number)
  (order : sort_order) (db : Store) : list statement * result (list Moose) :=
  let newQ := tokenize query in
  ([SearchStmt order offset limit newQ],
   match limit_operands offset limit with
   | Throw e => Throw e
   | Ok (off, lim) =>
       match MooseSearch_match newQ db with
       | Throw e => Throw e
       | Ok (toks, names) =>
           Ok (map_rowToMoose
                 (sql_limit off lim
                    (order_by_created order
                       (join_order order toks db
                          (inner_join names (Moose_table db))))))
       end
   end).

(** The first component lists the statements the call gives to SQLite. *)
Definition getGalleryPage (query : jsstring) (offset limit : number)
  (order : jsstring) (db : Store) : list statement * result (list Moose) :=
  let newOrder := if jsstring_eqb order (str "oldest") then ASC else DESC in
  if notInt offset || notInt limit then
    ([], Throw (TypeError "offset or limit is not a number"))
  else
    if negb (jsstring_eqb query []) then
      _findMooseByQuery query offset limit newOrder db
    else
      ([PageStmt newOrder offset limit],
       match limit_operands offset limit with
       | Throw e => Throw e
       | Ok (off, lim) =>
           Ok (map_rowToMoose
                 (sql_limit off lim
                    (Moose_CreatedIdx_scan newOrder (Moose_table db))))
       end).

End Gallery.

(* ================================================================== *)
(** * The streaming exporter *)

(** ** JSON

    What [JSON.stringify] writes for a Moose, as the value the text
    denotes; the text of the whole export is a sequence of tokens around
    such values. *)

#[local] Set Warnings "-register-all".
Inductive json : Type :=
| JNull
| JBool (b : bool)
| JNumber (x : number)
| JString (s : jsstring)
| JIsoDate (t : Z)                  (* the string [toISOString] gives *)
| JObject (members : list (string * json)).

Inductive json_token : Type :=
| LBRACKET
| RBRACKET
| COMMA
| VALUE (v : json)
| WORD_undefined.

Definition chunk := list json_token.

(** A property of the object: left out when [undefined]. *)
Definition member {A : Type} (key : string) (enc : A -> json) (v : jsopt A)
  : list (string * json) :=
  match v with
  | Undefined => []
  | Null => [(key, JNull)]
  | Val a => [(key, enc a)]
  end.

Definition created_json (c : created_val) : json :=
  match c with
  | CDate None => JNull
  | CDate (Some t) => JIsoDate t
  | CNum x => if isFinite x then JNumber x else JNull
  end.

(** The properties come in the order [rowToMoose] writes them. *)
Definition JSON_stringify (v : option Moose) : option json :=
  match v with
  | None => None
  | Some m =>
      Some (JObject
              (member "name" JString (name m)
               ++ member "image" JString (image m)
               ++ member "shade" JString (shade m)
               ++ member "created" created_json (created m)
               ++ member "hd" JBool (hd m)
               ++ member "shaded" JBool (shaded m)
               ++ member "extended" JBool (extended m))%list)
  end.

(** The text of a string concatenation with [mooseJson]. *)
Definition json_text (j : option json) : chunk :=
  match j with
  | Some v => [VALUE v]
  | None => [WORD_undefined]
  end.

(** Reading a JSON array from its tokens. *)
Fixpoint parse_elements (toks : list json_token) : option (list json) :=
  match toks with
  | [RBRACKET] => Some []
  | COMMA :: VALUE v :: rest =>
      match parse_elements rest with
      | Some vs => Some (v :: vs)
      | None => None
      end
  | _ => None
  end.

Definition parse_array (toks : list json_token) : option (list json) :=
  match toks with
  | [LBRACKET; RBRACKET] => Some []
  | LBRACKET :: VALUE v :: rest =>
      match parse_elements rest with
      | Some vs => Some (v :: vs)
      | None => None
      end
  | _ => None
  end.

(** ** The cursor

    The iterator of a prepared statement.  A pull meets a row, a value
    [JSON.stringify] rejects, or a failing step of the statement; the
    cursor is released when the rows run out, when a step fails, and by
    [return()], whichever comes first. *)

Inductive cursor_value : Type :=
| RowValue (row : MooseRow)
| Unserialisable (e : error).

Inductive pull : Type :=
| Yields (v : cursor_value)
| StepFails (e : error).

Record StatementIterator : Type := mkIter {
  upcoming : list pull;
  alive : bool;
  releases : nat;      (* how often the cursor was released *)
  returns : nat        (* how often [return()] was called *)
}.

Definition cleanup (it : StatementIterator) : StatementIterator :=
  mkIter [] false (S (releases it)) (returns it).

(** [iter.next()]: [Ok None] is [{ done: true }]. *)
Definition iter_next (it : StatementIterator)
  : result (option cursor_value) * StatementIterator :=
  if alive it then
    match upcoming it with
    | [] => (Ok None, cleanup it)
    | Yields v :: rest =>
        (Ok (Some v), mkIter rest true (releases it) (returns it))
    | StepFails e :: _ => (Throw e, cleanup it)
    end
  else (Ok None, it).

(** [iter.return()] *)
Definition iter_return (it : StatementIterator) : StatementIterator :=
  let it' := if alive it then cleanup it else it in
  mkIter (upcoming it') (alive it') (releases it') (S (returns it')).

(** [JSON.stringify(rowToMoose(value))]; at the end of the rows [value]
    is [undefined] and so is the result. *)
Definition serialise (value : option cursor_value) : result (option json) :=
  match value with
  | None => Ok (JSON_stringify (rowToMoose None))
  | Some (RowValue row) => Ok (JSON_stringify (rowToMoose (Some row)))
  | Some (Unserialisable e) => Throw e
  end.

(** ** MooseReadable *)

Record MooseReadable : Type := mkReadable {
  iter : StatementIterator;
  first : bool;
  pushed : list chunk;          (* the chunks given to [push], in order *)
  ended : bool;                 (* [push(null)] was called *)
  destroyed : bool;
  errored : option error
}.

Definition push (c : chunk) (s : MooseReadable) : MooseReadable :=
  mkReadable (iter s) (first s) (pushed s ++ [c]) (ended s) (destroyed s)
    (errored s).

Definition push_null (s : MooseReadable) : MooseReadable :=
  mkReadable (iter s) (first s) (pushed s) true (destroyed s) (errored s).

Definition set_iter (it : StatementIterator) (s : MooseReadable)
  : MooseReadable :=
  mkReadable it (first s) (pushed s) (ended s) (destroyed s) (errored s).

Definition set_first (b : bool) (s : MooseReadable) : MooseReadable :=
  mkReadable (iter s) b (pushed s) (ended s) (destroyed s) (errored s).

(** The constructor. *)
Definition new_MooseReadable (iterator : StatementIterator) : MooseReadable :=
  set_first true (push [LBRACKET] (mkReadable iterator false [] false false None)).

Definition _destroy (err : option error) (s : MooseReadable) : MooseReadable :=
  mkReadable (iter_return (iter s)) (first s) (pushed s) (ended s)
    (destroyed s) err.

(** [Readable.destroy]: the first call marks the stream and runs
    [_destroy]; later calls do nothing. *)
Definition destroy (err : option error) (s : MooseReadable) : MooseReadable :=
  if destroyed s then s
  else
    _destroy err
      (mkReadable (iter s) (first s) (pushed s) (ended s) true (errored s)).

Definition _read (s : MooseReadable) : MooseReadable :=
  match iter_next (iter s) with
  | (Throw e, it) => destroy (Some e) (set_iter it s)
  | (Ok value, it) =>
      match serialise value with
      | Throw e => destroy (Some e) (set_iter it s)
      | Ok mooseJson =>
          match value with
          | None =>                                   (* done *)
              push_null (push [RBRACKET] (set_iter it s))
          | Some _ =>
              if negb (first s) then
                push (COMMA :: json_text mooseJson) (set_iter it s)
              else
                set_first false (push (json_text mooseJson) (set_iter it s))
          end
      end
  end.

(** What happens to a stream: the runtime asks for data (never after the
    end or a destroy), or someone destroys it (the consumer, or the runtime
    once the end was delivered). *)
Inductive stream_event : Type :=
| EvRead
| EvDestroy (err : option error).

Definition on_event (s : MooseReadable) (ev : stream_event) : MooseReadable :=
  match ev with
  | EvRead => if ended s || destroyed s then s else _read s
  | EvDestroy err => destroy err s
  end.

Definition run_stream (evs : list stream_event) (s : MooseReadable)
  : MooseReadable :=
  fold_left on_event evs s.

(** [dumpDbStmt.iterate()] and [reader()]. *)
Definition dumpDbStmt_iterate (db : Store) : StatementIterator :=
  mkIter (map (fun row => Yields (RowValue row)) (dumpDbStmt_all db))
    true 0 0.

Definition reader (db : Store) : MooseReadable :=
  new_MooseReadable (dumpDbStmt_iterate db).

(** Everything pushed, as one text. *)
Definition output (s : MooseReadable) : list json_token :=
  List.concat (pushed s).

(* ================================================================== *)
(** * The newest and the oldest record *)

(** [SELECT max(created) FROM Moose] and [SELECT min(created) FROM Moose];
    [None] is NULL, on an empty table. *)
Fixpoint max_created (t : list MooseRec) : option number :=
  match t with
  | [] => None
  | r :: rest =>
      match max_created rest with
      | None => Some (col_created r)
      | Some m =>
          Some (match num_compare (col_created r) m with
                | Lt => m
                | _ => col_created r
                end)
      end
  end.

Fixpoint min_created (t : list MooseRec) : option number :=
  match t with
  | [] => None
  | r :: rest =>
      match min_created rest with
      | None => Some (col_created r)
      | Some m =>
          Some (match num_compare (col_created r) m with
                | Gt => m
                | _ => col_created r
                end)
      end
  end.

(** [created = :m], a comparison by value. *)
Definition created_is (m : number) (r : MooseRec) : bool :=
  match num_compare (col_created r) m with
  | Eq => true
  | _ => false
  end.

(** [getLatestMooseStmt.get] and [getOldestMooseStmt.get]: the first row,
    in rowid order, whose [created] is the extreme one. *)
Definition getLatestMooseStmt_get (db : Store) : option MooseRow :=
  match max_created (Moose_table db) with
  | None => None
  | Some m => option_map select_columns (find (created_is m) (Moose_table db))
  end.

Definition getOldestMooseStmt_get (db : Store) : option MooseRow :=
  match min_created (Moose_table db) with
  | None => None
  | Some m => option_map select_columns (find (created_is m) (Moose_table db))
  end.

Definition getLatestMoose (db : Store) : option Moose :=
  rowToMoose (getLatestMooseStmt_get db).

Definition getOldestMoose (db : Store) : option Moose :=
  rowToMoose (getOldestMooseStmt_get db).

(* ================================================================== *)
(** * The editor: switching the canvas size

    The branch of the tool-select handler for the tool hd/sd.  The module
    with the two canvas sizes (lib/moose-size.js) is not among the
    sources: its four numbers are parameters. *)

Section CanvasSize.

Variables normal_width normal_height hd_width hd_height : nat.

(** The painting for the new canvas, [hd] being the flag after it was
    flipped.  Towards the large canvas rows are added at the bottom and
    every row is filled up with 0 on the right ([Array.from] makes no
    element for a negative length); towards the small canvas [splice] cuts
    off the rows and the cells beyond its size. *)
Definition resize_painting (hd : bool) (temp : list (list Z))
  : list (list Z) :=
  if hd then
    let temp := temp ++ repeat [] (hd_height - List.length temp) in
    map (fun arr => arr ++ repeat 0 (hd_width - List.length arr)) temp
  else
    map (firstn normal_width) (firstn normal_height temp).

(** The handler on the flag [state.moose.hd] and the painting. *)
Definition toggle_hd (st : bool * list (list Z)) : bool * list (list Z) :=
  let hd := negb (fst st) in
  (hd, resize_painting hd (snd st)).

End CanvasSize.

(* ================================================================== *)
(** * Specification-side definitions

    The notions the statements below are written in.  None of them is
    code of the repository. *)

(** ** Numbers and records *)

(** The number [x] denotes the integer [z]. *)
Definition denotes_integer (x : number) (z : Z) : Prop :=
  match x with
  | S754_zero _ => z = 0
  | S754_finite s m e =>
      let v := if s then Z.neg m else Z.pos m in
      if 0 <=? e then z = v * 2 ^ e else v = z * 2 ^ (- e)
  | S754_infinity _ | S754_nan => False
  end.

(** A string the database gives back as it took it: no surrogate code
    unit stands alone. *)
Definition well_formed (s : jsstring) : Prop := bind_text s = s.

(** A code unit that is no surrogate. *)
Definition plain (c : N) : Prop :=
  is_high_surrogate c = false /\ is_low_surrogate c = false.

(** Whether the text goes on with a low surrogate. *)
Definition next_is_low (rest : jsstring) : bool :=
  match rest with
  | d :: _ => is_low_surrogate d
  | [] => false
  end.

(** A Moose as the typedef describes it: every property present and of
    its type, [created] a valid date, the strings well formed. *)
Definition valid_Moose (m : Moose) : Prop :=
  exists n t i s h sh ex,
    m = mkMoose (Val n) (Val (CDate (Some t))) (Val i) (Val s)
          (Val h) (Val sh) (Val ex)
    /\ - max_time_value <= t <= max_time_value
    /\ well_formed n /\ well_formed i /\ well_formed s.

(** What [saveMooseStmt] needs of a row to get past the NOT NULL
    constraints. *)
Definition row_complete (row : MooseRow) : bool :=
  match row_name row, row_created row, row_image row with
  | Some _, Some _, Some _ => true
  | _, _, _ => false
  end.

Definition complete (moose : Moose) : bool := row_complete (mooseToRow moose).

(** ** The tokenizer in the words of its description *)

Definition no_white_space (word : jsstring) : bool :=
  forallb (fun c => negb (is_white_space c)) word.

Definition quoted (word : jsstring) : jsstring :=
  [dquote] ++ double_quotes word ++ [dquote].

Definition is_connector (word : jsstring) : bool :=
  jsstring_eqb word (str "AND") || jsstring_eqb word (str "OR").

(** A connector that is not the last word stays, everything else is
    quoted. *)
Fixpoint sanitise_words (arr : list jsstring) : list jsstring :=
  match arr with
  | [] => []
  | [word] => [quoted word]
  | word :: rest =>
      (if is_connector word then word else quoted word) :: sanitise_words rest
  end.

(** A text without the code unit 0, where a C string would end. *)
Definition NUL_free (word : jsstring) : bool :=
  forallb (fun c => negb (N.eqb c 0)) word.

Definition connector_token (word : jsstring) : fts5_token :=
  if jsstring_eqb word (str "AND") then FTS5_AND else FTS5_OR.

(** The tokens a sanitised query is meant to consist of: one for each
    word. *)
Fixpoint word_tokens (arr : list jsstring) : list fts5_token :=
  match arr with
  | [] => []
  | [word] => [FTS5_STRING word]
  | word :: rest =>
      (if is_connector word then connector_token word else FTS5_STRING word)
      :: word_tokens rest
  end.

(** ** The table and the index *)

Definition names (db : Store) : list jsstring :=
  map col_name (Moose_table db).

(** How many rows of the table, and how many entries of the index, a
    statement finds under the name [n]. *)
Definition rows_named (n : jsstring) (db : Store) : nat :=
  List.length (filter (has_name n) (Moose_table db)).

Definition entries_named (n : jsstring) (db : Store) : nat :=
  List.length
    (filter (fun e => jsstring_eqb e (bind_text n)) (MooseSearch db)).

(** Every name of the table is a well-formed string. *)
Definition names_well_formed (db : Store) : Prop :=
  Forall well_formed (map col_name (Moose_table db)).

(** The table and the index agree: the names of the rows are pairwise
    distinct and the index holds exactly these names, each once. *)
Definition coupled (db : Store) : Prop :=
  NoDup (names db) /\ Permutation (names db) (MooseSearch db).

(** The records saved one after the other, a record whose insert throws
    being left out. *)
Fixpoint save_each (meese : list Moose) (db : Store) : Store :=
  match meese with
  | [] => db
  | moose :: rest => save_each rest (store_after (saveMoose moose db) db)
  end.

(** The line [bulk_loop] gives to [logger.warn] for a record it skips. *)
Definition warning (moose : Moose) : jsstring :=
  str "BULK IMPORT MOOSE ALREADY EXISTS " ++ template_name (name moose).

(** ** The export *)

(** The JSON value written for a row. *)
Definition row_json (row : MooseRow) : json :=
  match JSON_stringify (rowToMoose (Some row)) with
  | Some v => v
  | None => JNull
  end.

(** The chunks pushed for [rows]; [is_first] is the flag [first] on entry. *)
Fixpoint chunks (is_first : bool) (rows : list MooseRow) : list chunk :=
  match rows with
  | [] => []
  | row :: rest =>
      (if is_first then [VALUE (row_json row)] else [COMMA; VALUE (row_json row)])
      :: chunks false rest
  end.

(** Values with a comma between neighbours. *)
Definition comma_separated (vs : list json) : list json_token :=
  match vs with
  | [] => []
  | v :: rest => VALUE v :: flat_map (fun v' => [COMMA; VALUE v']) rest
  end.

(** What holds of a stream and its cursor at every moment: the cursor is
    released exactly when it is closed, the end of the stream finds it
    closed, [return()] was called exactly if the stream was destroyed, and
    the cursor is open as long as the stream has neither ended nor been
    destroyed. *)
Definition cursor_accounted (s : MooseReadable) : Prop :=
  (alive (iter s) = true -> releases (iter s) = 0%nat)
  /\ (alive (iter s) = false -> releases (iter s) = 1%nat)
  /\ (ended s = true -> alive (iter s) = false)
  /\ (destroyed s = true ->
      alive (iter s) = false /\ returns (iter s) = 1%nat)
  /\ (destroyed s = false -> returns (iter s) = 0%nat /\ errored s = None)
  /\ (ended s = false -> destroyed s = false -> alive (iter s) = true).

(** ** Exceptions of the database *)

Definition from_sqlite (e : error) : Prop :=
  match e with
  | SqliteError _ => True
  | TypeError _ => False
  end.

(** ** Records and stores of the examples *)

Definition moose_A : Moose :=
  mkMoose (Val (str "A")) (Val (CDate (Some 100))) (Val (str "img"))
    (Val []) (Val false) (Val false) (Val false).

Definition moose_B : Moose :=
  mkMoose (Val (str "B")) (Val (CDate (Some 200))) (Val (str "img"))
    (Val []) (Val false) (Val false) (Val false).

Definition moose_no_image : Moose :=
  mkMoose (Val (str "C")) (Val (CDate (Some 300))) Undefined
    (Val []) (Val false) (Val false) (Val false).

Definition moose_created_fraction : Moose :=
  mkMoose (Val (str "A")) (Val (CNum one_and_a_half)) (Val (str "img"))
    (Val []) (Val false) (Val false) (Val false).

Definition moose_created_infinite : Moose :=
  mkMoose (Val (str "A")) (Val (CNum Infinity)) (Val (str "img"))
    (Val []) (Val false) (Val false) (Val false).

Definition row_A : MooseRow := mooseToRow moose_A.

(** A record named by a high surrogate that stands alone, and one named
    U+FFFD. *)
Definition moose_lone_surrogate : Moose :=
  mkMoose (Val [55296%N]) (Val (CDate (Some 100))) (Val (str "img"))
    (Val []) (Val false) (Val false) (Val false).

Definition moose_replacement : Moose :=
  mkMoose (Val [replacement_character]) (Val (CDate (Some 200)))
    (Val (str "img")) (Val []) (Val false) (Val false) (Val false).

(** A, then B, saved into the empty store. *)
Definition store_A_B : Store :=
  apply_mutation (SaveMoose moose_B)
    (apply_mutation (SaveMoose moose_A) empty_store).

(** ... and B deleted again. *)
Definition store_A_after_delete_B : Store :=
  apply_mutation (DeleteMoose (str "B")) store_A_B.

(** A record created at the same moment as A, and the store holding A and
    then this one. *)
Definition moose_T : Moose :=
  mkMoose (Val (str "T")) (Val (CDate (Some 100))) (Val (str "img"))
    (Val []) (Val false) (Val false) (Val false).

Definition store_A_T : Store :=
  apply_mutation (SaveMoose moose_T)
    (apply_mutation (SaveMoose moose_A) empty_store).

(** What the examples put in the place of the engine: every integer is
    written out exactly, every name satisfies every expression, and the
    join delivers its rows in the order of the table. *)
Definition exact_text (x : number) : Z :=
  match num_trunc x with
  | Some z => z
  | None => 0
  end.

Definition match_all (toks : list fts5_token) (n : jsstring) : bool := true.

Definition table_order (order : sort_order) (toks : list fts5_token)
  (db : Store) (rows : list MooseRec) : list MooseRec := rows.

(** ** Order of the numbers *)

(** [x] is at most [y]. *)
Definition num_le (x y : number) : Prop := num_compare x y <> Gt.

(** A number as a pair that orders like it: its class (NaN, the negative
    infinity, the finite numbers, the positive infinity) and, for a finite
    number, its value in units of [2^E]. *)
Definition num_class (x : number) : Z :=
  match x with
  | S754_nan => 0
  | S754_infinity true => 1
  | S754_zero _ | S754_finite _ _ _ => 2
  | S754_infinity false => 3
  end.

Definition num_key (E : Z) (x : number) : Z * Z :=
  (num_class x, num_scaled x E).

Definition key_compare (a b : Z * Z) : comparison :=
  match Z.compare (fst a) (fst b) with
  | Eq => Z.compare (snd a) (snd b)
  | c => c
  end.

(** The rows stand in the order of their rowids. *)
Definition rowid_order (t : list MooseRec) : Prop :=
  StronglySorted (fun a b => rowid a < rowid b) t.

(** The order of the index on [created], read forwards for ASC and
    backwards for DESC: by [created], and among rows with equal [created]
    by rowid. *)
Definition index_before (order : sort_order) (a b : MooseRec) : Prop :=
  match num_compare (col_created a) (col_created b) with
  | Lt => order = ASC
  | Gt => order = DESC
  | Eq =>
      match order with
      | ASC => rowid a < rowid b
      | DESC => rowid b < rowid a
      end
  end.

Definition index_order (order : sort_order) (rows : list MooseRec) : Prop :=
  StronglySorted (index_before order) rows.

(** The relation [in_order] asks of neighbours. *)
Definition ordered (order : sort_order) (a b : MooseRec) : Prop :=
  match order with
  | ASC => num_le (col_created a) (col_created b)
  | DESC => num_le (col_created b) (col_created a)
  end.

(** The rows stand in the order asked for: no row is strictly before a row
    in front of it. *)
Definition in_order (order : sort_order) (rows : list MooseRec) : Prop :=
  StronglySorted (ordered order) rows.

(** The Moose a row is decoded to. *)
Definition decodes_to (r : MooseRec) (m : Moose) : Prop :=
  rowToMoose (Some (select_columns r)) = Some m.

(** ** Rows *)

(** What a lookup can see of a row: everything but its rowid. *)
Definition content (r : MooseRec) : MooseRow * option Buffer :=
  (select_columns r, col_png r).

(** A row as [saveMoose] writes it: [created] is a number, [shade] is not
    NULL, the flags are 0 or 1, and the strings are well formed. *)
Definition stored_well (r : MooseRec) : Prop :=
  isNaN (col_created r) = false
  /\ col_shade r <> None
  /\ (col_hd r = Some 0 \/ col_hd r = Some 1)
  /\ (col_shaded r = Some 0 \/ col_shaded r = Some 1)
  /\ (col_extended r = Some 0 \/ col_extended r = Some 1)
  /\ well_formed (col_name r)
  /\ well_formed (col_image r)
  /\ (forall s, col_shade r = Some s -> well_formed s).

(** ** Rowids *)

(** The rowids in use are 1, ..., the number of rows. *)
Definition dense (db : Store) : Prop :=
  Permutation (map rowid (Moose_table db))
    (map Z.of_nat (seq 1 (List.length (Moose_table db)))).

Definition rowids (db : Store) : list Z := map rowid (Moose_table db).

(** The rowid of the row named [n], if there is one. *)
Definition rowid_of (n : jsstring) (db : Store) : option Z :=
  option_map rowid (find (has_name n) (Moose_table db)).

(** ** Connectors in a query *)

(** The first connector that the tokenizer lets through although it stands
    first or directly after another one; [after_word] says that the word
    before was quoted. *)
Fixpoint misplaced_connector (after_word : bool) (arr : list jsstring)
  : option jsstring :=
  match arr with
  | [] => None
  | [_] => None
  | word :: rest =>
      if is_connector word then
        if after_word then misplaced_connector false rest else Some word
      else misplaced_connector true rest
  end.

(** The word AND or OR as the message of an error spells it. *)
Definition connector_name (word : jsstring) : string :=
  if jsstring_eqb word (str "AND") then "AND" else "OR".

(** ** A painting of a given size *)

Definition has_size (w h : nat) (painting : list (list Z)) : Prop :=
  List.length painting = h /\ Forall (fun arr => List.length arr = w) painting.

(** The cell in row [i] and column [j]; 0 outside the painting. *)
Definition cell (painting : list (list Z)) (i j : nat) : Z :=
  nth j (nth i painting []) 0.

(* ================================================================== *)
(** * Strings and numbers *)

Lemma jsstring_eqb_eq (a b : jsstring) : jsstring_eqb a b = true <-> a = b.
Proof.
  revert b; induction a as [|x a IH]; intros [|y b]; simpl;
    try (split; [discriminate | discriminate]); try tauto.
  rewrite andb_true_iff, N.eqb_eq, IH.
  split; [intros [-> ->]; reflexivity | intros [= -> ->]; auto].
Qed.

Lemma jsstring_eqb_refl (a : jsstring) : jsstring_eqb a a = true.
Proof. apply jsstring_eqb_eq; reflexivity. Qed.

Lemma jsstring_eqb_neq (a b : jsstring) : jsstring_eqb a b = false <-> a <> b.
Proof.
  rewrite <- jsstring_eqb_eq.
  destruct (jsstring_eqb a b); split; congruence.
Qed.

(** ** Text as it is bound *)

Lemma list_pair_ind {A : Type} (P : list A -> Prop) :
  P [] -> (forall a, P [a]) ->
  (forall a b l, P l -> P (b :: l) -> P (a :: b :: l)) ->
  forall l, P l.
Proof.
  intros H0 H1 H2 l.
  assert (H : P l /\ forall a, P (a :: l)).
  { induction l as [|b l [IH1 IH2]]; [split; [exact H0 | exact H1]|].
    split; [apply IH2|]. intros a. apply H2; [exact IH1 | apply IH2]. }
  apply H.
Qed.

Lemma bind_text_cons c rest :
  bind_text (c :: rest)
  = if is_high_surrogate c then
      match rest with
      | d :: rest' =>
          if is_low_surrogate d then c :: d :: bind_text rest'
          else replacement_character :: bind_text rest
      | [] => [replacement_character]
      end
    else if is_low_surrogate c then replacement_character :: bind_text rest
    else c :: bind_text rest.
Proof. reflexivity. Qed.

Lemma high_not_low c : is_high_surrogate c = true -> is_low_surrogate c = false.
Proof.
  unfold is_high_surrogate, is_low_surrogate.
  rewrite andb_true_iff, andb_false_iff, !N.leb_le, !N.leb_gt. lia.
Qed.

Lemma bind_text_plain c rest :
  plain c -> bind_text (c :: rest) = c :: bind_text rest.
Proof. intros [H1 H2]. rewrite bind_text_cons, H1, H2. reflexivity. Qed.

Lemma bind_text_low c rest :
  is_low_surrogate c = true ->
  bind_text (c :: rest) = replacement_character :: bind_text rest.
Proof.
  intros H. rewrite bind_text_cons, H.
  destruct (is_high_surrogate c) eqn:Hh; [|reflexivity].
  apply high_not_low in Hh. congruence.
Qed.

Lemma bind_text_pair c d rest :
  is_high_surrogate c = true -> is_low_surrogate d = true ->
  bind_text (c :: d :: rest) = c :: d :: bind_text rest.
Proof. intros H1 H2. rewrite bind_text_cons, H1, H2. reflexivity. Qed.

Lemma bind_text_lone c rest :
  is_high_surrogate c = true -> next_is_low rest = false ->
  bind_text (c :: rest) = replacement_character :: bind_text rest.
Proof.
  intros H1 H2. rewrite bind_text_cons, H1.
  destruct rest as [|d rest']; [reflexivity|].
  simpl in H2. rewrite H2. reflexivity.
Qed.

Lemma replacement_plain : plain replacement_character.
Proof. split; reflexivity. Qed.

(** The four ways a text starts. *)
Lemma text_cases c rest :
  plain c
  \/ is_low_surrogate c = true
  \/ (is_high_surrogate c = true /\ next_is_low rest = false)
  \/ (is_high_surrogate c = true
      /\ exists d rest', rest = d :: rest' /\ is_low_surrogate d = true).
Proof.
  destruct (is_high_surrogate c) eqn:Hh.
  - right; right. destruct rest as [|d rest']; [left; auto|].
    destruct (is_low_surrogate d) eqn:Hd.
    + right. split; [reflexivity|]. exists d, rest'. auto.
    + left. auto.
  - destruct (is_low_surrogate c) eqn:Hl; [right; left; reflexivity|].
    left. split; assumption.
Qed.

Lemma bind_text_length s : List.length (bind_text s) = List.length s.
Proof.
  induction s as [| a | a b l IHl IHbl] using list_pair_ind.
  - reflexivity.
  - rewrite bind_text_cons.
    destruct (is_high_surrogate a), (is_low_surrogate a); reflexivity.
  - destruct (text_cases a (b :: l)) as [H | [H | [[H1 H2] | [H1 H2]]]].
    + rewrite (bind_text_plain _ _ H). simpl in *. rewrite IHbl. reflexivity.
    + rewrite (bind_text_low _ _ H). simpl in *. rewrite IHbl. reflexivity.
    + rewrite (bind_text_lone _ _ H1 H2). simpl in *. rewrite IHbl.
      reflexivity.
    + destruct H2 as (d & rest' & [= <- <-] & Hd).
      rewrite (bind_text_pair _ _ _ H1 Hd). simpl. rewrite IHl. reflexivity.
Qed.

(** Binding a text that was read back changes nothing. *)
Lemma bind_text_idempotent s : bind_text (bind_text s) = bind_text s.
Proof.
  induction s as [| a | a b l IHl IHbl] using list_pair_ind.
  - reflexivity.
  - destruct (text_cases a []) as [H | [H | [[H1 H2] | [H1 H2]]]].
    + rewrite (bind_text_plain _ _ H). exact (bind_text_plain a [] H).
    + rewrite (bind_text_low _ _ H). reflexivity.
    + rewrite (bind_text_lone _ _ H1 H2). reflexivity.
    + destruct H2 as (d & rest' & [=] & _).
  - destruct (text_cases a (b :: l)) as [H | [H | [[H1 H2] | [H1 H2]]]].
    + rewrite (bind_text_plain _ _ H), (bind_text_plain _ _ H), IHbl.
      reflexivity.
    + rewrite (bind_text_low _ _ H), (bind_text_plain _ _ replacement_plain),
        IHbl. reflexivity.
    + rewrite (bind_text_lone _ _ H1 H2),
        (bind_text_plain _ _ replacement_plain), IHbl. reflexivity.
    + destruct H2 as (d & rest' & [= <- <-] & Hd).
      rewrite (bind_text_pair _ _ _ H1 Hd), (bind_text_pair _ _ _ H1 Hd), IHl.
      reflexivity.
Qed.

Lemma bind_text_well_formed s : well_formed (bind_text s).
Proof. apply bind_text_idempotent. Qed.

(** Every code unit of the bound text is one of the string or U+FFFD. *)
Lemma In_bind_text c s :
  In c (bind_text s) -> c = replacement_character \/ In c s.
Proof.
  induction s as [| a | a b l IHl IHbl] using list_pair_ind.
  - intros [].
  - rewrite bind_text_cons.
    destruct (is_high_surrogate a), (is_low_surrogate a); simpl;
      intros [H|[]]; auto.
  - destruct (text_cases a (b :: l)) as [H | [H | [[H1 H2] | [H1 H2]]]].
    + rewrite (bind_text_plain _ _ H). intros [<-|Hc]; [right; left; auto|].
      destruct (IHbl Hc) as [E|E]; [left; exact E | right; right; exact E].
    + rewrite (bind_text_low _ _ H). intros [<-|Hc]; [left; auto|].
      destruct (IHbl Hc) as [E|E]; [left; exact E | right; right; exact E].
    + rewrite (bind_text_lone _ _ H1 H2). intros [<-|Hc]; [left; auto|].
      destruct (IHbl Hc) as [E|E]; [left; exact E | right; right; exact E].
    + destruct H2 as (d & rest' & [= <- <-] & Hd).
      rewrite (bind_text_pair _ _ _ H1 Hd).
      intros [<-|[<-|Hc]]; [right; left; auto | right; right; left; auto|].
      destruct (IHl Hc) as [E|E]; [left; exact E | right; right; right; exact E].
Qed.

(** A bound text without U+FFFD is the string itself. *)
Lemma bind_text_unchanged s :
  ~ In replacement_character (bind_text s) -> bind_text s = s.
Proof.
  induction s as [| a | a b l IHl IHbl] using list_pair_ind.
  - reflexivity.
  - destruct (text_cases a []) as [H | [H | [[H1 H2] | [H1 H2]]]].
    + intros _. exact (bind_text_plain a [] H).
    + rewrite (bind_text_low _ _ H). intros Hn. exfalso; apply Hn; left; auto.
    + rewrite (bind_text_lone _ _ H1 H2). intros Hn.
      exfalso; apply Hn; left; auto.
    + destruct H2 as (d & rest' & [=] & _).
  - destruct (text_cases a (b :: l)) as [H | [H | [[H1 H2] | [H1 H2]]]].
    + rewrite (bind_text_plain _ _ H). intros Hn. f_equal. apply IHbl.
      intros Hin; apply Hn; right; exact Hin.
    + rewrite (bind_text_low _ _ H). intros Hn. exfalso; apply Hn; left; auto.
    + rewrite (bind_text_lone _ _ H1 H2). intros Hn.
      exfalso; apply Hn; left; auto.
    + destruct H2 as (d & rest' & [= <- <-] & Hd).
      rewrite (bind_text_pair _ _ _ H1 Hd). intros Hn. do 2 f_equal.
      apply IHl. intros Hin; apply Hn; right; right; exact Hin.
Qed.

(** A plain code unit in the text stays, and the text binds piece by
    piece around it. *)
Lemma bind_text_app_plain a c b :
  plain c -> bind_text (a ++ c :: b) = bind_text a ++ c :: bind_text b.
Proof.
  intros Hc.
  induction a as [| x | x y l IHl IHyl] using list_pair_ind.
  - apply (bind_text_plain _ _ Hc).
  - change ([x] ++ c :: b) with (x :: c :: b).
    destruct (text_cases x (c :: b)) as [H | [H | [[H1 H2] | [H1 H2]]]].
    + rewrite !(bind_text_plain _ _ H), (bind_text_plain _ _ Hc). reflexivity.
    + rewrite !(bind_text_low _ _ H), (bind_text_plain _ _ Hc). reflexivity.
    + rewrite (bind_text_lone _ _ H1 H2), (bind_text_lone x [] H1 eq_refl),
        (bind_text_plain _ _ Hc). reflexivity.
    + destruct H2 as (d & rest' & [= <- <-] & Hd). destruct Hc. congruence.
  - change ((x :: y :: l) ++ c :: b) with (x :: (y :: l) ++ c :: b).
    destruct (text_cases x (y :: l)) as [H | [H | [[H1 H2] | [H1 H2]]]].
    + rewrite !(bind_text_plain _ _ H), IHyl. reflexivity.
    + rewrite !(bind_text_low _ _ H), IHyl. reflexivity.
    + rewrite (bind_text_lone x ((y :: l) ++ c :: b) H1 H2),
        (bind_text_lone _ _ H1 H2), IHyl. reflexivity.
    + destruct H2 as (d & rest' & [= <- <-] & Hd).
      change ((y :: l) ++ c :: b) with (y :: l ++ c :: b).
      rewrite !(bind_text_pair _ _ _ H1 Hd), IHl. reflexivity.
Qed.

Lemma bind_text_snoc_plain a c :
  plain c -> bind_text (a ++ [c]) = bind_text a ++ [c].
Proof. intros Hc. apply (bind_text_app_plain a c [] Hc). Qed.

(** [notInt] lets through exactly the numbers that denote an integer. *)
Lemma notInt_false_iff (x : number) :
  notInt x = false <-> exists z, denotes_integer x z.
Proof.
  unfold notInt; destruct x as [s|s| |s m e]; simpl.
  - split; [intros _; exists 0; reflexivity | reflexivity].
  - split; [discriminate | intros [z []]].
  - split; [discriminate | intros [z []]].
  - destruct (0 <=? e) eqn:He; simpl.
    + split; [intros _; eexists; reflexivity | reflexivity].
    + apply Z.leb_gt in He.
      assert (Hd : 0 < 2 ^ (- e)) by (apply Z.pow_pos_nonneg; lia).
      rewrite negb_false_iff, Z.eqb_eq, Z.mod_divide by lia.
      split.
      * intros [q Hq]. destruct s.
        -- exists (- q). rewrite <- Pos2Z.opp_pos, Hq. ring.
        -- exists q. exact Hq.
      * intros [z Hz]. destruct s.
        -- exists (- z). rewrite <- Pos2Z.opp_pos in Hz.
           rewrite <- (Z.opp_involutive (Z.pos m)), Hz. ring.
        -- exists z. exact Hz.
Qed.

Lemma notInt_true_iff (x : number) :
  notInt x = true <-> ~ exists z, denotes_integer x z.
Proof.
  rewrite <- notInt_false_iff. destruct (notInt x); split; congruence.
Qed.

Lemma num_of_Z_denotes (z : Z) : denotes_integer (num_of_Z z) z.
Proof. destruct z; simpl; lia. Qed.

(** [new Date(+d)] is [d] again for a valid date. *)
Lemma new_Date_valueOf (t : Z) :
  - max_time_value <= t <= max_time_value ->
  new_Date (integer_affinity (Date_valueOf (Some t))) = Some t.
Proof.
  intros Ht.
  destruct t as [|p|p]; unfold new_Date, TimeClip; simpl;
    rewrite ?Pos.mul_1_r.
  - reflexivity.
  - destruct (max_time_value <? Z.pos p) eqn:E;
      [apply Z.ltb_lt in E; lia | reflexivity].
  - destruct (max_time_value <? Z.pos p) eqn:E;
      [apply Z.ltb_lt in E; lia | reflexivity].
Qed.

(* ================================================================== *)
(** * The record codec *)

(** C5, as amended.  [mooseToRow]: a missing [name] or [image] becomes
    null; [created] becomes null exactly when its numeric value is NaN (a
    missing property, an invalid date) and is passed on as that number in
    every other case; a missing [shade] becomes the empty string; a missing
    flag becomes 0, and every flag becomes 0 or 1. *)
Theorem mooseToRow_encoding (moose : Moose) :
  let row := mooseToRow moose in
  (name moose = Undefined \/ name moose = Null -> row_name row = None)
  /\ (image moose = Undefined \/ image moose = Null -> row_image row = None)
  /\ (isNaN (ToNumber (created moose)) = true -> row_created row = None)
  /\ (created moose = Undefined \/ created moose = Val (CDate None)
      -> row_created row = None)
  /\ (isNaN (ToNumber (created moose)) = false
      -> row_created row = Some (ToNumber (created moose)))
  /\ (shade moose = Undefined \/ shade moose = Null -> row_shade row = Some [])
  /\ (hd moose = Undefined \/ hd moose = Null -> row_hd row = Some 0)
  /\ (shaded moose = Undefined \/ shaded moose = Null
      -> row_shaded row = Some 0)
  /\ (extended moose = Undefined \/ extended moose = Null
      -> row_extended row = Some 0)
  /\ (row_hd row = Some 0 \/ row_hd row = Some 1)
  /\ (row_shaded row = Some 0 \/ row_shaded row = Some 1)
  /\ (row_extended row = Some 0 \/ row_extended row = Some 1).
Proof.
  destruct moose as [n c i s h sh ex]; cbn -[isNaN ToNumber].
  repeat split.
  - intros [-> | ->]; reflexivity.
  - intros [-> | ->]; reflexivity.
  - intros ->; reflexivity.
  - intros [-> | ->]; reflexivity.
  - intros ->; reflexivity.
  - intros [-> | ->]; reflexivity.
  - intros [-> | ->]; reflexivity.
  - intros [-> | ->]; reflexivity.
  - intros [-> | ->]; reflexivity.
  - destruct (truthy h); auto.
  - destruct (truthy sh); auto.
  - destruct (truthy ex); auto.
Qed.

(** C5, the claim as written fails: [created] 1.5 is not an integer and
    Infinity is not finite, and each is encoded as itself, not as null. *)
Lemma mooseToRow_created_not_nulled :
  (Number_isInteger one_and_a_half = false
   /\ row_created (mooseToRow moose_created_fraction) = Some one_and_a_half)
  /\ (isFinite Infinity = false
      /\ row_created (mooseToRow moose_created_infinite) = Some Infinity)
  /\ ~ (forall moose x,
          created moose = Val (CNum x) ->
          isFinite x = false \/ Number_isInteger x = false ->
          row_created (mooseToRow moose) = None).
Proof.
  repeat split.
  intros H.
  specialize (H moose_created_fraction one_and_a_half eq_refl
                (or_intror eq_refl)).
  discriminate H.
Qed.

(** [mooseToRow_encoding] at a Moose that has only a name and one flag. *)
Lemma mooseToRow_encoding_witness :
  let row :=
    mooseToRow
      (mkMoose (Val (str "A")) Undefined Undefined Null Undefined Null
         (Val true)) in
  row_image row = None /\ row_created row = None /\ row_shade row = Some []
  /\ row_hd row = Some 0.
Proof.
  destruct (mooseToRow_encoding
    (mkMoose (Val (str "A")) Undefined Undefined Null Undefined Null
       (Val true))) as (_ & Hi & _ & Hc & _ & Hs & Hh & _).
  intros row; refine (conj _ (conj _ (conj _ _))).
  - apply Hi; left; reflexivity.
  - apply Hc; left; reflexivity.
  - apply Hs; right; reflexivity.
  - apply Hh; left; reflexivity.
Defined.

(* ================================================================== *)
(** * The guard of getGalleryPage *)

Lemma lex_start_SqliteError c toks e :
  lex_start c = (toks, Throw e) -> from_sqlite e.
Proof.
  unfold lex_start.
  destruct (is_fts5_space c); [discriminate|].
  destruct (N.eqb c dquote); [discriminate|].
  destruct (is_fts5_punct c); [discriminate|].
  destruct (is_bareword_char c); [discriminate|].
  intros [= _ <-]. exact I.
Qed.

Lemma lex_step_SqliteError st c toks e :
  lex_step st c = (toks, Throw e) -> from_sqlite e.
Proof.
  destruct st as [|acc|acc|acc]; cbn [lex_step].
  - apply lex_start_SqliteError.
  - destruct (N.eqb c dquote); discriminate.
  - destruct (N.eqb c dquote); [discriminate|].
    destruct (lex_start c) as [ts next] eqn:E. intros [= _ ->].
    apply (lex_start_SqliteError _ _ _ E).
  - destruct (is_bareword_char c); [discriminate|].
    destruct (lex_start c) as [ts next] eqn:E. intros [= _ ->].
    apply (lex_start_SqliteError _ _ _ E).
Qed.

Lemma fts5_lex_SqliteError z : forall st toks e,
  fts5_lex st z = (toks, Some e) -> from_sqlite e.
Proof.
  assert (Hend : forall st toks e, lex_end st = (toks, Some e) -> from_sqlite e)
    by (intros [|acc|acc|acc] toks e; simpl; intros [= _ <-] || intros [=];
        exact I).
  induction z as [|c rest IH]; intros st toks e; cbn [fts5_lex];
    [apply Hend|].
  destruct (N.eqb c 0); [apply Hend|].
  destruct (lex_step st c) as [ts [st'|e']] eqn:Hstep.
  - destruct (fts5_lex st' rest) as [more stopped] eqn:Hrest.
    intros [= _ ->]. apply (IH _ _ _ Hrest).
  - intros [= _ <-]. apply (lex_step_SqliteError _ _ _ _ Hstep).
Qed.

Lemma fts5_parse_SqliteError toks : forall due e,
  fts5_parse due toks = Throw e -> from_sqlite e.
Proof.
  induction toks as [|t toks IH]; intros due e; [discriminate|].
  destruct t; cbn [fts5_parse]; try (destruct due);
    try (intros [= <-]; exact I); apply IH.
Qed.

Section GalleryGuard.

Variable decimal_text : number -> Z.
Variable fts5_satisfies : list fts5_token -> jsstring -> bool.
Variable join_order :
  sort_order -> list fts5_token -> Store -> list MooseRec -> list MooseRec.

Lemma limit_operands_SqliteError offset limit e :
  limit_operands decimal_text offset limit = Throw e -> from_sqlite e.
Proof.
  unfold limit_operands, limit_operand, no_such_column.
  destruct limit as [s|s| |s m e0]; try (intros [= <-]; exact I);
    destruct offset as [s'|s'| |s' m' e1]; try (intros [= <-]; exact I);
    repeat match goal with
           | |- context [if ?b then _ else _] => destruct b
           | |- context [match num_trunc ?x with _ => _ end] =>
               destruct (num_trunc x)
           end;
    try discriminate; intros [= <-]; exact I.
Qed.

Lemma MooseSearch_match_SqliteError expr db e :
  MooseSearch_match fts5_satisfies expr db = Throw e -> from_sqlite e.
Proof.
  unfold MooseSearch_match.
  destruct (fts5_lex LexStart (bind_text expr)) as [toks stopped] eqn:Hlex.
  destruct (fts5_parse true toks) as [due|e'] eqn:Hparse.
  - destruct stopped as [e'|].
    + destruct due; intros [= <-]; apply (fts5_lex_SqliteError _ _ _ _ Hlex).
    + destruct due; [intros [= <-]; exact I | discriminate].
  - intros [= <-]. apply (fts5_parse_SqliteError _ _ _ Hparse).
Qed.

(** C4, as amended.  An [offset] or [limit] that does not denote an
    integer (a fraction, an infinity, NaN) makes [getGalleryPage] throw
    its TypeError with no statement run against the store.  When both
    denote integers, of either sign, the call goes on to the store: one
    statement is run and no TypeError is thrown. *)
Theorem getGalleryPage_guard query offset limit order db :
  ((~ (exists z, denotes_integer offset z))
   \/ (~ (exists z, denotes_integer limit z)) ->
   getGalleryPage decimal_text fts5_satisfies join_order
     query offset limit order db
   = ([], Throw (TypeError "offset or limit is not a number")))
  /\ ((exists z, denotes_integer offset z) ->
      (exists z, denotes_integer limit z) ->
      List.length
        (fst (getGalleryPage decimal_text fts5_satisfies join_order
                query offset limit order db))
      = 1%nat
      /\ forall msg,
           snd (getGalleryPage decimal_text fts5_satisfies join_order
                  query offset limit order db)
           <> Throw (TypeError msg)).
Proof.
  unfold getGalleryPage; split.
  - intros H.
    assert (E : notInt offset || notInt limit = true).
    { apply orb_true_iff.
      destruct H as [H | H]; [left | right]; apply notInt_true_iff, H. }
    rewrite E; reflexivity.
  - intros Ho Hl.
    apply notInt_false_iff in Ho, Hl. rewrite Ho, Hl; simpl.
    destruct (negb (jsstring_eqb query [])); simpl.
    + split; [reflexivity|]. intros msg.
      destruct (limit_operands decimal_text offset limit) as [[off lim]|e]
        eqn:Hops.
      * destruct (MooseSearch_match fts5_satisfies (tokenize query) db)
          as [[toks found]|e] eqn:Hm; [discriminate|].
        intros [= ->]. apply (MooseSearch_match_SqliteError _ _ _ Hm).
      * intros [= ->]. apply (limit_operands_SqliteError _ _ _ Hops).
    + split; [reflexivity|]. intros msg.
      destruct (limit_operands decimal_text offset limit) as [[off lim]|e]
        eqn:Hops; [discriminate|].
      intros [= ->]. apply (limit_operands_SqliteError _ _ _ Hops).
Qed.

End GalleryGuard.

(** C4, the claim as written fails: with [offset] -1 no error is thrown;
    the page query runs and returns the newest record. *)
Lemma getGalleryPage_negative_offset :
  denotes_integer (num_of_Z (-1)) (-1)
  /\ getGalleryPage exact_text match_all table_order [] (num_of_Z (-1))
       (num_of_Z 1) (str "newest") store_A_B
     = ([PageStmt DESC (num_of_Z (-1)) (num_of_Z 1)], Ok [moose_B]).
Proof. split; [reflexivity | vm_compute; reflexivity]. Qed.

(** [limit] 1.5 is refused before the store is touched. *)
Lemma getGalleryPage_guard_witness :
  getGalleryPage exact_text match_all table_order [] (num_of_Z 0)
    one_and_a_half (str "newest") store_A_B
  = ([], Throw (TypeError "offset or limit is not a number")).
Proof.
  apply (getGalleryPage_guard exact_text match_all table_order []
           (num_of_Z 0) one_and_a_half (str "newest") store_A_B).
  right. apply notInt_true_iff. reflexivity.
Defined.

(* ================================================================== *)
(** * The search tokenizer *)

Lemma split_from_nonempty in_run query : split_from in_run query <> [].
Proof.
  revert in_run; induction query as [|c rest IH]; intros in_run; simpl.
  - discriminate.
  - destruct (is_white_space c).
    + destruct in_run; [apply IH | discriminate].
    + destruct (split_from false rest); discriminate.
Qed.

Lemma split_from_no_white_space in_run query :
  Forall (fun word => no_white_space word = true) (split_from in_run query).
Proof.
  revert in_run; induction query as [|c rest IH]; intros in_run; simpl.
  - repeat constructor.
  - destruct (is_white_space c) eqn:Hc.
    + destruct in_run; [apply IH | constructor; [reflexivity | apply IH]].
    + specialize (IH false).
      destruct (split_from false rest) as [|word words].
      * repeat constructor; simpl; rewrite Hc; reflexivity.
      * inversion IH; subst. constructor; [|assumption].
        simpl; rewrite Hc; simpl; assumption.
Qed.

Lemma split_from_concat in_run query :
  List.concat (split_from in_run query)
  = filter (fun c => negb (is_white_space c)) query.
Proof.
  revert in_run; induction query as [|c rest IH]; intros in_run; simpl.
  - reflexivity.
  - destruct (is_white_space c) eqn:Hc; simpl.
    + destruct in_run; simpl; apply IH.
    + specialize (IH false).
      destruct (split_from false rest) as [|word words]; simpl in *.
      * rewrite <- IH; reflexivity.
      * rewrite <- IH; reflexivity.
Qed.

(** A word without white space, followed by anything, is the start of the
    first piece. *)
Lemma split_from_word in_run word query :
  no_white_space word = true ->
  word <> [] \/ in_run = false ->
  split_from in_run (word ++ query)
  = match split_from false query with
    | piece :: pieces => (word ++ piece) :: pieces
    | [] => [word]
    end.
Proof.
  revert in_run; induction word as [|c word IH]; intros in_run Hw Hne.
  - destruct Hne as [Hne | ->]; [congruence|]. simpl.
    pose proof (split_from_nonempty false query) as Hq.
    destruct (split_from false query); [congruence | reflexivity].
  - simpl in Hw. apply andb_true_iff in Hw as [Hc Hw].
    apply negb_true_iff in Hc. simpl. rewrite Hc.
    rewrite (IH false Hw (or_intror eq_refl)).
    destruct (split_from false query); reflexivity.
Qed.

(** Splitting undoes joining with single spaces, for words that are not
    empty and hold no white space. *)
Lemma split_join (words : list jsstring) :
  words <> [] ->
  Forall (fun word => no_white_space word = true /\ word <> []) words ->
  split_white_space (join [space] words) = words.
Proof.
  unfold split_white_space.
  induction words as [|word rest IH]; intros Hne Hall; [congruence|].
  inversion Hall as [|? ? [Hw Hn] Hrest]; subst.
  destruct rest as [|word' rest'].
  - simpl. rewrite <- (app_nil_r word) at 1.
    rewrite (split_from_word false word [] Hw (or_intror eq_refl)).
    simpl. rewrite app_nil_r. reflexivity.
  - change (join [space] (word :: word' :: rest'))
      with (word ++ [space] ++ join [space] (word' :: rest')).
    rewrite (split_from_word false word _ Hw (or_intror eq_refl)).
    change ([space] ++ join [space] (word' :: rest'))
      with (space :: join [space] (word' :: rest')).
    cbn [split_from]. change (is_white_space space) with true. cbv iota.
    assert (E : split_from true (join [space] (word' :: rest'))
                = split_from false (join [space] (word' :: rest'))).
    { inversion Hrest as [|? ? [Hw' Hn'] _]; subst.
      destruct word' as [|c w]; [congruence|].
      simpl in Hw'. apply andb_true_iff in Hw' as [Hc _].
      apply negb_true_iff in Hc.
      destruct rest'; simpl; rewrite Hc; reflexivity. }
    rewrite E, IH by (assumption || discriminate).
    rewrite app_nil_r. reflexivity.
Qed.

Lemma map_from_nth ind len arr i word :
  nth_error arr i = Some word ->
  nth_error (map_from ind len arr) i = Some (escape_word word (ind + i) len).
Proof.
  revert ind i; induction arr as [|w rest IH]; intros ind [|i] H;
    simpl in *; try discriminate.
  - injection H as ->. rewrite Nat.add_0_r. reflexivity.
  - rewrite (IH (S ind) i H). f_equal. f_equal. lia.
Qed.

Lemma map_from_sanitise ind len arr :
  len = (ind + List.length arr)%nat ->
  map_from ind len arr = sanitise_words arr.
Proof.
  revert ind; induction arr as [|word rest IH]; intros ind Hlen;
    [reflexivity|].
  cbn [map_from]. rewrite (IH (S ind)) by (simpl in Hlen; lia).
  unfold escape_word. fold (is_connector word). fold (quoted word).
  destruct rest as [|word' rest'].
  - simpl in Hlen.
    replace (Nat.eqb ind (len - 1)) with true
      by (symmetry; apply Nat.eqb_eq; lia).
    rewrite andb_false_r. reflexivity.
  - simpl in Hlen.
    replace (Nat.eqb ind (len - 1)) with false
      by (symmetry; apply Nat.eqb_neq; lia).
    rewrite andb_true_r. reflexivity.
Qed.

(** C3.  The tokenizer splits the query at its runs of white space: no
    piece holds white space, the pieces together are the query without its
    white space, and words joined by single spaces are split into these
    words again.  A piece that is exactly AND or OR and is not the last one
    is kept as it is; every other piece has its quote characters doubled
    and is put between quotes.  The results are joined with single
    spaces. *)
Theorem tokenize_correct (query : jsstring) :
  let arr := split_white_space query in
  arr <> []
  /\ Forall (fun word => no_white_space word = true) arr
  /\ List.concat arr = filter (fun c => negb (is_white_space c)) query
  /\ (forall words,
        words <> [] ->
        Forall (fun word => no_white_space word = true /\ word <> []) words ->
        split_white_space (join [space] words) = words)
  /\ (forall i word,
        nth_error arr i = Some word ->
        nth_error (map_from 0 (List.length arr) arr) i
        = Some (if is_connector word && negb (Nat.eqb i (List.length arr - 1))
                then word
                else [dquote]
                       ++ flat_map
                            (fun c =>
                               if N.eqb c dquote then [dquote; dquote] else [c])
                            word
                       ++ [dquote]))
  /\ tokenize query = join [space] (sanitise_words arr).
Proof.
  intros arr.
  refine (conj _ (conj _ (conj _ (conj _ (conj _ _))))).
  - apply split_from_nonempty.
  - apply split_from_no_white_space.
  - apply split_from_concat.
  - apply split_join.
  - intros i word H. rewrite (map_from_nth 0 _ arr i word H). reflexivity.
  - unfold tokenize. fold arr.
    rewrite (map_from_sanitise 0 (List.length arr) arr) by reflexivity.
    reflexivity.
Qed.

(** [tokenize_correct] on a query with two spaces in a row and a connector
    in the middle, and on two words joined by a space. *)
Lemma tokenize_correct_witness :
  tokenize (str "moose  AND big")
  = quoted (str "moose") ++ str " AND " ++ quoted (str "big")
  /\ split_white_space (join [space] [str "big"; str "moose"])
     = [str "big"; str "moose"].
Proof.
  split.
  - exact (proj2 (proj2 (proj2 (proj2 (proj2
             (tokenize_correct (str "moose  AND big"))))))).
  - apply (proj1 (proj2 (proj2 (proj2 (tokenize_correct []))))
             [str "big"; str "moose"]).
    + discriminate.
    + repeat constructor; discriminate.
Defined.

(** ** What the full-text lexer reads in a sanitised query *)

Lemma prepend_nil (x : list fts5_token * option error) :
  (let (more, stopped) := x in ([] ++ more, stopped)) = x.
Proof. destruct x; reflexivity. Qed.

Lemma split_from_NUL_free in_run query :
  NUL_free query = true ->
  Forall (fun word => NUL_free word = true) (split_from in_run query).
Proof.
  revert in_run; induction query as [|c rest IH]; intros in_run H; simpl.
  - repeat constructor.
  - simpl in H. apply andb_true_iff in H as [Hc Hrest].
    destruct (is_white_space c).
    + destruct in_run; [apply IH, Hrest|].
      constructor; [reflexivity | apply IH, Hrest].
    + specialize (IH false Hrest).
      destruct (split_from false rest) as [|word words].
      * repeat constructor. simpl. rewrite Hc. reflexivity.
      * inversion IH; subst. constructor; [|assumption].
        simpl. rewrite Hc. assumption.
Qed.

(** Inside a string the doubled quotes of [word] are read as [word]. *)
Lemma lex_string_body word : forall acc z,
  NUL_free word = true ->
  fts5_lex (LexString acc) (double_quotes word ++ z)
  = fts5_lex (LexString (acc ++ word)) z.
Proof.
  induction word as [|c word IH]; intros acc z H.
  - rewrite app_nil_r. reflexivity.
  - simpl in H. apply andb_true_iff in H as [Hc Hw].
    apply negb_true_iff in Hc.
    replace (acc ++ c :: word) with ((acc ++ [c]) ++ word)
      by (rewrite <- app_assoc; reflexivity).
    cbn [double_quotes flat_map]. fold (double_quotes word).
    destruct (N.eqb c dquote) eqn:Hq.
    + apply N.eqb_eq in Hq; subst c.
      cbn [app fts5_lex]. change (N.eqb dquote 0) with false. cbv iota.
      cbn [lex_step]. change (N.eqb dquote dquote) with true. cbv iota.
      cbn [fts5_lex]. change (N.eqb dquote 0) with false. cbv iota.
      cbn [lex_step]. change (N.eqb dquote dquote) with true. cbv iota.
      rewrite !prepend_nil. apply IH, Hw.
    + cbn [app fts5_lex]. rewrite Hc. cbn [lex_step]. rewrite Hq.
      rewrite prepend_nil. apply IH, Hw.
Qed.

Lemma lex_quoted_last word :
  NUL_free word = true ->
  fts5_lex LexStart (quoted word) = ([FTS5_STRING word], None).
Proof.
  intros H. unfold quoted. cbn [app fts5_lex].
  change (N.eqb dquote 0) with false. cbv iota.
  change (lex_step LexStart dquote)
    with ([] : list fts5_token, Ok (LexString [])).
  cbv iota. rewrite prepend_nil, (lex_string_body word [] [dquote] H).
  reflexivity.
Qed.

Lemma lex_quoted_then word z :
  NUL_free word = true ->
  fts5_lex LexStart (quoted word ++ [space] ++ z)
  = let (more, stopped) := fts5_lex LexStart z in
    (FTS5_STRING word :: more, stopped).
Proof.
  intros H. unfold quoted. rewrite <- !app_assoc. cbn [app fts5_lex].
  change (N.eqb dquote 0) with false. cbv iota.
  change (lex_step LexStart dquote)
    with ([] : list fts5_token, Ok (LexString [])).
  cbv iota. rewrite prepend_nil.
  rewrite (lex_string_body word [] (dquote :: space :: z) H).
  cbn [app fts5_lex]. change (N.eqb dquote 0) with false. cbv iota.
  cbn [lex_step]. change (N.eqb dquote dquote) with true. cbv iota.
  cbn [fts5_lex]. change (N.eqb space 0) with false. cbv iota.
  change (lex_step (LexQuoteSeen word) space)
    with ([FTS5_STRING word], Ok LexStart).
  cbv iota. rewrite prepend_nil.
  destruct (fts5_lex LexStart z); reflexivity.
Qed.

Lemma lex_connector_then word z :
  is_connector word = true ->
  fts5_lex LexStart (word ++ [space] ++ z)
  = let (more, stopped) := fts5_lex LexStart z in
    (connector_token word :: more, stopped).
Proof.
  unfold is_connector, connector_token. intros H.
  destruct (jsstring_eqb word (str "AND")) eqn:Ha.
  - apply jsstring_eqb_eq in Ha; subst word.
    cbn. destruct (fts5_lex LexStart z); reflexivity.
  - simpl in H. apply jsstring_eqb_eq in H; subst word.
    cbn. destruct (fts5_lex LexStart z); reflexivity.
Qed.

(** The lexer reads sanitised words as one token for each word: AND or OR
    for a connector that was let through, and for every other word a
    string holding the word, whatever characters it is made of.  No
    punctuation token and no keyword NOT comes out, and the lexer is not
    stopped. *)
Lemma sanitised_words_tokens (arr : list jsstring) :
  arr <> [] ->
  Forall (fun word => NUL_free word = true) arr ->
  fts5_lex LexStart (join [space] (sanitise_words arr))
  = (word_tokens arr, None).
Proof.
  intros Hne Hall.
  induction arr as [|word rest IH]; [congruence|].
  inversion Hall as [|? ? Hw Hrest]; subst.
  destruct rest as [|word' rest'].
  - apply lex_quoted_last, Hw.
  - change (sanitise_words (word :: word' :: rest'))
      with ((if is_connector word then word else quoted word)
              :: sanitise_words (word' :: rest')).
    change (word_tokens (word :: word' :: rest'))
      with ((if is_connector word then connector_token word
             else FTS5_STRING word) :: word_tokens (word' :: rest')).
    set (tail := sanitise_words (word' :: rest')) in *.
    assert (Htail : tail <> []) by (subst tail; destruct rest'; discriminate).
    assert (Hj : forall w, join [space] (w :: tail)
                           = w ++ [space] ++ join [space] tail)
      by (intros w; destruct tail; [congruence | reflexivity]).
    rewrite Hj.
    destruct (is_connector word) eqn:Hc.
    + rewrite (lex_connector_then word _ Hc), IH by (discriminate || assumption).
      reflexivity.
    + rewrite (lex_quoted_then word _ Hw), IH by (discriminate || assumption).
      reflexivity.
Qed.

Lemma sanitised_query_tokens (query : jsstring) :
  NUL_free query = true ->
  fts5_lex LexStart (tokenize query)
  = (word_tokens (split_white_space query), None).
Proof.
  intros H. unfold tokenize.
  rewrite (map_from_sanitise 0 _ (split_white_space query)) by reflexivity.
  apply sanitised_words_tokens.
  - apply split_from_nonempty.
  - apply split_from_NUL_free, H.
Qed.

(** ** The sanitised query as it is bound to MATCH *)

Lemma plain_dquote : plain dquote.
Proof. split; reflexivity. Qed.

Lemma plain_space : plain space.
Proof. split; reflexivity. Qed.

Lemma next_is_low_double_quotes rest :
  next_is_low (double_quotes rest) = next_is_low rest.
Proof.
  destruct rest as [|d rest']; [reflexivity|].
  cbn [double_quotes flat_map]. destruct (N.eqb d dquote) eqn:E; [|reflexivity].
  apply N.eqb_eq in E; subst d. reflexivity.
Qed.

Lemma double_quotes_cons c rest :
  double_quotes (c :: rest)
  = (if N.eqb c dquote then [dquote; dquote] else [c]) ++ double_quotes rest.
Proof. reflexivity. Qed.

Lemma surrogate_not_dquote c :
  is_high_surrogate c = true \/ is_low_surrogate c = true ->
  N.eqb c dquote = false.
Proof.
  intros H. destruct (N.eqb c dquote) eqn:E; [|reflexivity].
  apply N.eqb_eq in E; subst c. destruct H as [H|H]; discriminate H.
Qed.

(** Doubling the quotes and binding the text can be done in either
    order. *)
Lemma bind_text_double_quotes word :
  bind_text (double_quotes word) = double_quotes (bind_text word).
Proof.
  assert (Hstep : forall a rest,
            bind_text (double_quotes rest) = double_quotes (bind_text rest) ->
            plain a \/ is_low_surrogate a = true
            \/ (is_high_surrogate a = true /\ next_is_low rest = false) ->
            bind_text (double_quotes (a :: rest))
            = double_quotes (bind_text (a :: rest))).
  { intros a rest IH [H | [H | [H1 H2]]].
    - rewrite (bind_text_plain _ _ H), !double_quotes_cons.
      destruct (N.eqb a dquote) eqn:E.
      + cbn [app]. rewrite !(bind_text_plain _ _ plain_dquote), IH.
        reflexivity.
      + cbn [app]. rewrite (bind_text_plain _ _ H), IH. reflexivity.
    - rewrite (bind_text_low _ _ H), !double_quotes_cons.
      rewrite (surrogate_not_dquote a (or_intror H)).
      change (N.eqb replacement_character dquote) with false.
      cbn [app]. rewrite (bind_text_low _ _ H), IH. reflexivity.
    - rewrite (bind_text_lone _ _ H1 H2), !double_quotes_cons.
      rewrite (surrogate_not_dquote a (or_introl H1)).
      change (N.eqb replacement_character dquote) with false.
      cbn [app].
      rewrite (bind_text_lone a (double_quotes rest) H1)
        by (rewrite next_is_low_double_quotes; exact H2).
      rewrite IH. reflexivity. }
  induction word as [| a | a b l IHl IHbl] using list_pair_ind.
  - reflexivity.
  - apply Hstep; [reflexivity|].
    destruct (text_cases a []) as [H | [H | [H | [_ H]]]]; auto.
    destruct H as (d & rest' & [=] & _).
  - destruct (text_cases a (b :: l)) as [H | [H | [H | [H1 H2]]]];
      try solve [apply Hstep; [exact IHbl | auto]].
    destruct H2 as (d & rest' & [= <- <-] & Hd).
    rewrite (bind_text_pair _ _ _ H1 Hd), !double_quotes_cons.
    rewrite (surrogate_not_dquote a (or_introl H1)),
      (surrogate_not_dquote b (or_intror Hd)).
    cbn [app]. rewrite (bind_text_pair _ _ _ H1 Hd), IHl. reflexivity.
Qed.

Lemma bind_text_quoted word : bind_text (quoted word) = quoted (bind_text word).
Proof.
  unfold quoted. cbn [app]. rewrite (bind_text_plain _ _ plain_dquote).
  rewrite (bind_text_snoc_plain _ _ plain_dquote), bind_text_double_quotes.
  reflexivity.
Qed.

(** AND and OR are bound as they are, and nothing else is bound as AND or
    OR. *)
Lemma is_connector_bind_text word :
  is_connector (bind_text word) = is_connector word
  /\ (is_connector word = true -> bind_text word = word).
Proof.
  assert (Hc : forall w, is_connector w = true -> w = str "AND" \/ w = str "OR").
  { intros w H. unfold is_connector in H. apply orb_true_iff in H.
    destruct H as [H|H]; apply jsstring_eqb_eq in H; auto. }
  assert (Hfix : forall w, is_connector w = true -> bind_text w = w)
    by (intros w H; destruct (Hc w H) as [-> | ->]; reflexivity).
  split; [|apply Hfix].
  destruct (is_connector word) eqn:E.
  - rewrite (Hfix word E). exact E.
  - destruct (is_connector (bind_text word)) eqn:E'; [|reflexivity].
    assert (Hsame : bind_text word = word).
    { apply bind_text_unchanged.
      destruct (Hc _ E') as [-> | ->]; intros H; simpl in H;
        intuition discriminate. }
    rewrite Hsame in E'. congruence.
Qed.

Lemma sanitise_words_bind_text arr :
  map bind_text (sanitise_words arr) = sanitise_words (map bind_text arr).
Proof.
  induction arr as [|word rest IH]; [reflexivity|].
  destruct rest as [|word' rest'].
  - cbn [map sanitise_words]. rewrite bind_text_quoted. reflexivity.
  - change (sanitise_words (word :: word' :: rest'))
      with ((if is_connector word then word else quoted word)
              :: sanitise_words (word' :: rest')).
    change (map bind_text (word :: word' :: rest'))
      with (bind_text word :: map bind_text (word' :: rest')).
    change (sanitise_words (bind_text word :: map bind_text (word' :: rest')))
      with ((if is_connector (bind_text word) then bind_text word
             else quoted (bind_text word))
              :: sanitise_words (map bind_text (word' :: rest'))).
    cbn [map]. change (bind_text word' :: map bind_text rest')
      with (map bind_text (word' :: rest')).
    rewrite <- IH. f_equal.
    destruct (is_connector_bind_text word) as [-> Hfix].
    destruct (is_connector word) eqn:E;
      [reflexivity | apply bind_text_quoted].
Qed.

Lemma bind_text_join arr :
  bind_text (join [space] arr) = join [space] (map bind_text arr).
Proof.
  induction arr as [|word rest IH]; [reflexivity|].
  destruct rest as [|word' rest']; [reflexivity|].
  change (join [space] (word :: word' :: rest'))
    with (word ++ space :: join [space] (word' :: rest')).
  rewrite (bind_text_app_plain _ _ _ plain_space), IH. reflexivity.
Qed.

Lemma NUL_free_bind_text word :
  NUL_free word = true -> NUL_free (bind_text word) = true.
Proof.
  unfold NUL_free. rewrite !forallb_forall. intros H c Hc.
  destruct (In_bind_text c word Hc) as [-> | Hin]; [reflexivity|].
  apply H, Hin.
Qed.

(** The expression, as the full-text match receives it, holds the words of
    the query, each as it is bound. *)
Lemma bound_query_tokens (query : jsstring) :
  NUL_free query = true ->
  fts5_lex LexStart (bind_text (tokenize query))
  = (word_tokens (map bind_text (split_white_space query)), None).
Proof.
  intros H. unfold tokenize.
  rewrite (map_from_sanitise 0 _ (split_white_space query)) by reflexivity.
  rewrite bind_text_join, sanitise_words_bind_text.
  apply sanitised_words_tokens.
  - pose proof (split_from_nonempty false query) as Hne.
    unfold split_white_space. destruct (split_from false query);
      [congruence | discriminate].
  - apply Forall_map. eapply Forall_impl; [|apply split_from_NUL_free, H].
    intros w Hw. apply NUL_free_bind_text, Hw.
Qed.

(** ** Connectors the tokenizer lets through *)

Section SearchErrors.

Variable decimal_text : number -> Z.
Variable fts5_satisfies : list fts5_token -> jsstring -> bool.
Variable join_order :
  sort_order -> list fts5_token -> Store -> list MooseRec -> list MooseRec.

(** C9, at the inputs where it fails.  A connector directly after a
    connector, or at the very start, is not the last word, so the
    tokenizer passes it on unquoted; the expression, which is bound as
    it is, then has an operator without an operand and the full-text match
    throws a syntax error that names the connector, whatever the store
    holds. *)
Theorem getGalleryPage_connector_syntax_error (db : Store) :
  tokenize (str "foo AND AND bar")
  = quoted (str "foo") ++ str " AND AND " ++ quoted (str "bar")
  /\ fts5_lex LexStart (tokenize (str "foo AND AND bar"))
     = ([FTS5_STRING (str "foo"); FTS5_AND; FTS5_AND;
         FTS5_STRING (str "bar")], None)
  /\ bind_text (tokenize (str "foo AND AND bar"))
     = tokenize (str "foo AND AND bar")
  /\ snd (getGalleryPage decimal_text fts5_satisfies join_order
            (str "foo AND AND bar") (num_of_Z 0) (num_of_Z 10)
            (str "newest") db)
     = Throw (fts5_syntax_error "AND")
  /\ snd (getGalleryPage decimal_text fts5_satisfies join_order
            (str "OR foo") (num_of_Z 0) (num_of_Z 10) (str "newest") db)
     = Throw (fts5_syntax_error "OR").
Proof.
  refine (conj _ (conj _ (conj _ (conj _ _)))).
  - vm_compute; reflexivity.
  - vm_compute; reflexivity.
  - vm_compute; reflexivity.
  - unfold getGalleryPage, _findMooseByQuery, MooseSearch_match.
    change (notInt (num_of_Z 0) || notInt (num_of_Z 10)) with false.
    change (negb (jsstring_eqb (str "foo AND AND bar") [])) with true.
    cbv iota. cbn [snd].
    change (limit_operands decimal_text (num_of_Z 0) (num_of_Z 10))
      with (Ok (0, 10) : result (Z * Z)).
    replace (fts5_lex LexStart (bind_text (tokenize (str "foo AND AND bar"))))
      with ([FTS5_STRING (str "foo"); FTS5_AND; FTS5_AND;
             FTS5_STRING (str "bar")], @None error)
      by (vm_compute; reflexivity).
    reflexivity.
  - unfold getGalleryPage, _findMooseByQuery, MooseSearch_match.
    change (notInt (num_of_Z 0) || notInt (num_of_Z 10)) with false.
    change (negb (jsstring_eqb (str "OR foo") [])) with true.
    cbv iota. cbn [snd].
    change (limit_operands decimal_text (num_of_Z 0) (num_of_Z 10))
      with (Ok (0, 10) : result (Z * Z)).
    replace (fts5_lex LexStart (bind_text (tokenize (str "OR foo"))))
      with ([FTS5_OR; FTS5_STRING (str "foo")], @None error)
      by (vm_compute; reflexivity).
    reflexivity.
Qed.

End SearchErrors.

(* ================================================================== *)
(** * The store: statements *)

Lemma name_is_true n r : name_is n r = true <-> col_name r = n.
Proof. apply jsstring_eqb_eq. Qed.

Lemma existsb_name_is n t :
  existsb (name_is n) t = true <-> In n (map col_name t).
Proof.
  rewrite existsb_exists, in_map_iff.
  split; intros [r [H1 H2]]; exists r.
  - apply name_is_true in H2; auto.
  - split; [tauto | apply name_is_true; tauto].
Qed.

Lemma existsb_name_is_false n t :
  existsb (name_is n) t = false <-> ~ In n (map col_name t).
Proof.
  rewrite <- existsb_name_is. destruct (existsb (name_is n) t);
    split; congruence.
Qed.

Lemma table_insert_perm r t : Permutation (table_insert r t) (r :: t).
Proof.
  induction t as [|x rest IH]; simpl; [reflexivity|].
  destruct (rowid r <? rowid x); [reflexivity|].
  rewrite IH. apply perm_swap.
Qed.

Lemma find_table_insert n new t :
  existsb (name_is n) t = false ->
  name_is n new = true ->
  find (name_is n) (table_insert new t) = Some new.
Proof.
  intros Ht Hn; induction t as [|x rest IH]; simpl.
  - rewrite Hn; reflexivity.
  - simpl in Ht. apply orb_false_iff in Ht as [Hx Hrest].
    destruct (rowid new <? rowid x); simpl.
    + rewrite Hn; reflexivity.
    + rewrite Hx. apply IH, Hrest.
Qed.

Lemma Permutation_filter {A : Type} (f : A -> bool) (l l' : list A) :
  Permutation l l' -> Permutation (filter f l) (filter f l').
Proof.
  induction 1; simpl.
  - constructor.
  - destruct (f x); [constructor|]; assumption.
  - destruct (f x), (f y); try reflexivity. apply perm_swap.
  - etransitivity; eassumption.
Qed.

Lemma filter_split_perm {A : Type} (f : A -> bool) (l : list A) :
  Permutation (filter f l ++ filter (fun x => negb (f x)) l) l.
Proof.
  induction l as [|x l IH]; simpl; [constructor|].
  destruct (f x); simpl.
  - constructor; assumption.
  - symmetry. apply Permutation_cons_app. symmetry. assumption.
Qed.

(** Moving the row with the largest rowid changes rowids only. *)
Lemma move_max_rowid_names id t :
  Permutation (map col_name (move_max_rowid id t)) (map col_name t).
Proof.
  unfold move_max_rowid. destruct (max_rowid t) as [mx|]; [|reflexivity].
  set (f := fun r => rowid r =? mx).
  transitivity (map col_name (filter f t ++ filter (fun r => negb (f r)) t));
    [|apply Permutation_map, filter_split_perm].
  rewrite map_app. subst f; cbv beta.
  generalize (filter (fun r => negb (rowid r =? mx)) t) as kept; intros kept.
  induction (filter (fun r => rowid r =? mx) t) as [|r moved IH]; simpl.
  - reflexivity.
  - etransitivity;
      [apply Permutation_map, table_insert_perm|].
    simpl. constructor. exact IH.
Qed.

Lemma names_filter n t :
  map col_name (filter (fun r => negb (name_is n r)) t)
  = filter (fun e => negb (jsstring_eqb e n)) (map col_name t).
Proof.
  induction t as [|r t IH]; simpl; [reflexivity|].
  unfold name_is at 1. destruct (jsstring_eqb (col_name r) n); simpl;
    rewrite IH; reflexivity.
Qed.

Lemma find_name_is n t old :
  find (name_is n) t = Some old -> col_name old = n /\ In old t.
Proof.
  intros H. apply find_some in H as [Hin Hn].
  split; [apply name_is_true, Hn | exact Hin].
Qed.

(** ** Each mutation keeps the table and the index coupled *)

Lemma saveMooseStmt_run_coupled row db db' :
  coupled db -> saveMooseStmt_run row db = Ok db' -> coupled db'.
Proof.
  intros [Hnd Hperm]; unfold saveMooseStmt_run, has_name.
  destruct (row_name row) as [n|]; [|discriminate].
  destruct (row_created row) as [c|]; [|discriminate].
  destruct (row_image row) as [i|]; [|discriminate].
  destruct (existsb (name_is (bind_text n)) (Moose_table db)) eqn:Hex;
    [discriminate|].
  intros [= <-]. apply existsb_name_is_false in Hex.
  unfold coupled, names, Moose_InsertTrigger; simpl.
  split.
  - eapply Permutation_NoDup.
    + symmetry. apply Permutation_map. apply table_insert_perm.
    + simpl. constructor; assumption.
  - rewrite (Permutation_map col_name (table_insert_perm _ _)). simpl.
    rewrite <- Permutation_cons_append. constructor. exact Hperm.
Qed.

Lemma deleteMoose_coupled n db : coupled db -> coupled (deleteMoose n db).
Proof.
  intros [Hnd Hperm]; unfold deleteMoose, deleteMooseStmt_run, has_name.
  generalize (bind_text n); clear n; intros n.
  destruct (find (name_is n) (Moose_table db)) as [old|] eqn:Hf;
    [|split; assumption].
  apply find_name_is in Hf as [Hold _].
  unfold coupled, names, Moose_DelTrigger; simpl. rewrite Hold.
  split.
  - eapply Permutation_NoDup; [symmetry; apply move_max_rowid_names|].
    rewrite names_filter. apply NoDup_filter, Hnd.
  - rewrite move_max_rowid_names, names_filter.
    apply Permutation_filter, Hperm.
Qed.

Lemma saveMoosePng_coupled n png db :
  coupled db -> coupled (saveMoosePng n png db).
Proof.
  unfold coupled, names, saveMoosePng, saveMoosePngStmt_run; simpl.
  rewrite map_map.
  erewrite map_ext; [intros H; exact H|].
  intros r; simpl. destruct (has_name n r); reflexivity.
Qed.

Lemma bulk_loop_preserves (P : Store -> Prop) meese db log :
  (forall m db0 db1,
     P db0 -> saveMooseStmt_run (mooseToRow m) db0 = Ok db1 -> P db1) ->
  P db -> P (snd (fst (bulk_loop meese db log))).
Proof.
  intros Hstep. revert db log; induction meese as [|m rest IH];
    intros db log H; simpl; [exact H|].
  destruct (saveMooseStmt_run (mooseToRow m) db) as [db'|e] eqn:Hs.
  - apply IH. eapply Hstep; eassumption.
  - destruct (is_unique_violation e); [apply IH, H | exact H].
Qed.

Lemma bulkSaveMoose_preserves (P : Store -> Prop) meese db :
  (forall m db0 db1,
     P db0 -> saveMooseStmt_run (mooseToRow m) db0 = Ok db1 -> P db1) ->
  P db -> P (snd (fst (bulkSaveMoose meese db))).
Proof.
  intros Hstep H. unfold bulkSaveMoose, transaction.
  pose proof (bulk_loop_preserves P meese db [] Hstep H) as Hl.
  destruct (bulk_loop meese db []) as [[[[]|e] db'] log]; simpl in *;
    assumption.
Qed.

Lemma bulk_loop_coupled meese db log :
  coupled db -> coupled (snd (fst (bulk_loop meese db log))).
Proof.
  revert db log; induction meese as [|m rest IH]; intros db log H; simpl.
  - exact H.
  - destruct (saveMooseStmt_run (mooseToRow m) db) as [db'|e] eqn:Hs.
    + apply IH. eapply saveMooseStmt_run_coupled; eassumption.
    + destruct (is_unique_violation e); [apply IH, H | exact H].
Qed.

Lemma bulkSaveMoose_coupled meese db :
  coupled db -> coupled (snd (fst (bulkSaveMoose meese db))).
Proof.
  intros H; unfold bulkSaveMoose, transaction.
  pose proof (bulk_loop_coupled meese db [] H) as Hl.
  destruct (bulk_loop meese db []) as [[[[]|e] db'] log]; simpl in *;
    assumption.
Qed.

Lemma apply_mutation_coupled op db :
  coupled db -> coupled (apply_mutation op db).
Proof.
  intros H; destruct op as [m|meese|n|n png]; simpl.
  - unfold saveMoose.
    destruct (saveMooseStmt_run (mooseToRow m) db) eqn:Hs; simpl;
      [eapply saveMooseStmt_run_coupled; eassumption | exact H].
  - apply bulkSaveMoose_coupled, H.
  - apply deleteMoose_coupled, H.
  - apply saveMoosePng_coupled, H.
Qed.

Lemma reachable_coupled db : reachable db -> coupled db.
Proof.
  induction 1 as [|op db _ IH].
  - split; constructor.
  - apply apply_mutation_coupled, IH.
Qed.

Lemma filter_absent (n : jsstring) (l : list jsstring) :
  ~ In n l -> filter (fun e => jsstring_eqb e n) l = [].
Proof.
  induction l as [|y l IH]; intros H; simpl; [reflexivity|].
  destruct (jsstring_eqb y n) eqn:E.
  - apply jsstring_eqb_eq in E; subst y. exfalso; apply H; left; reflexivity.
  - apply IH. intros Hin; apply H; right; exact Hin.
Qed.

Lemma NoDup_count_one (n : jsstring) (l : list jsstring) :
  NoDup l -> In n l ->
  List.length (filter (fun e => jsstring_eqb e n) l) = 1%nat.
Proof.
  induction 1 as [|x l Hx Hnd IH]; intros Hin; [destruct Hin|].
  simpl. destruct (jsstring_eqb x n) eqn:E.
  - apply jsstring_eqb_eq in E; subst x.
    rewrite (filter_absent n l Hx). reflexivity.
  - apply IH. destruct Hin as [->|Hin]; [|exact Hin].
    rewrite jsstring_eqb_refl in E; discriminate.
Qed.

Lemma rows_named_names n db :
  rows_named n db
  = List.length (filter (fun e => jsstring_eqb e (bind_text n)) (names db)).
Proof.
  unfold rows_named, names, has_name.
  induction (Moose_table db) as [|r t IH]; simpl; [reflexivity|].
  unfold name_is at 1. destruct (jsstring_eqb (col_name r) (bind_text n));
    simpl; rewrite IH; reflexivity.
Qed.

Lemma find_name_is_none n t :
  ~ In n (map col_name t) -> find (name_is n) t = None.
Proof.
  intros H. destruct (find (name_is n) t) as [r|] eqn:Hf; [|reflexivity].
  apply find_name_is in Hf as [Hn Hin]. exfalso; apply H.
  rewrite <- Hn. apply in_map, Hin.
Qed.

Lemma deleteMoose_removes n db :
  coupled db ->
  ~ In (bind_text n) (names (deleteMoose n db))
  /\ ~ In (bind_text n) (MooseSearch (deleteMoose n db)).
Proof.
  intros Hc. pose proof (deleteMoose_coupled n db Hc) as [_ Hperm'].
  assert (Hn : ~ In (bind_text n) (names (deleteMoose n db))).
  { unfold deleteMoose, deleteMooseStmt_run, names, has_name.
    destruct (find (name_is (bind_text n)) (Moose_table db)) as [old|] eqn:Hf.
    - simpl. intros Hin.
      apply (Permutation_in _ (move_max_rowid_names _ _)) in Hin.
      rewrite names_filter in Hin. apply filter_In in Hin as [_ Hin].
      rewrite jsstring_eqb_refl in Hin. discriminate.
    - intros Hin. apply existsb_name_is in Hin.
      apply existsb_exists in Hin as [r [Hr1 Hr2]].
      apply (find_none _ _ Hf) in Hr1. congruence. }
  split; [exact Hn|].
  intros Hin. apply Hn. eapply Permutation_in; [symmetry; exact Hperm'|].
  exact Hin.
Qed.

(** ** The names of a reachable store are well formed *)

Lemma saveMooseStmt_run_names_well_formed row db db' :
  names_well_formed db -> saveMooseStmt_run row db = Ok db' ->
  names_well_formed db'.
Proof.
  unfold names_well_formed, saveMooseStmt_run. intros Hwf.
  destruct (row_name row) as [n|]; [|discriminate].
  destruct (row_created row) as [c|]; [|discriminate].
  destruct (row_image row) as [i|]; [|discriminate].
  destruct (existsb (has_name n) (Moose_table db)); [discriminate|].
  intros [= <-]. unfold Moose_InsertTrigger; cbn [Moose_table].
  eapply Permutation_Forall;
    [symmetry; apply Permutation_map, table_insert_perm|].
  cbn [map col_name]. constructor; [apply bind_text_well_formed | exact Hwf].
Qed.

Lemma deleteMoose_names_well_formed n db :
  names_well_formed db -> names_well_formed (deleteMoose n db).
Proof.
  unfold names_well_formed, deleteMoose, deleteMooseStmt_run. intros Hwf.
  destruct (find (has_name n) (Moose_table db)) as [old|]; [|exact Hwf].
  cbn [Moose_DelTrigger Moose_table].
  eapply Permutation_Forall; [symmetry; apply move_max_rowid_names|].
  rewrite Forall_forall in *. intros x Hx. apply Hwf.
  apply in_map_iff in Hx as [r [<- Hr]]. apply filter_In in Hr as [Hr _].
  apply in_map, Hr.
Qed.

Lemma saveMoosePng_names_well_formed n png db :
  names_well_formed db -> names_well_formed (saveMoosePng n png db).
Proof.
  unfold names_well_formed, saveMoosePng, saveMoosePngStmt_run.
  cbn [Moose_table]. rewrite map_map.
  erewrite map_ext; [intros H; exact H|].
  intros r; simpl. destruct (has_name n r); reflexivity.
Qed.

Lemma reachable_names_well_formed db : reachable db -> names_well_formed db.
Proof.
  induction 1 as [|op db _ IH]; [constructor|].
  destruct op as [m|meese|n|n png]; simpl.
  - unfold saveMoose.
    destruct (saveMooseStmt_run (mooseToRow m) db) as [db'|e] eqn:Hs;
      [eapply saveMooseStmt_run_names_well_formed; eassumption | exact IH].
  - apply (bulkSaveMoose_preserves names_well_formed); [|exact IH].
    intros m db0 db1 H0 Hs.
    eapply saveMooseStmt_run_names_well_formed; eassumption.
  - apply deleteMoose_names_well_formed, IH.
  - apply saveMoosePng_names_well_formed, IH.
Qed.

Lemma row_name_well_formed db r :
  names_well_formed db -> In r (Moose_table db) ->
  bind_text (col_name r) = col_name r.
Proof.
  unfold names_well_formed. rewrite Forall_forall. intros H Hin.
  apply H, in_map, Hin.
Qed.

(** C6.  In every store the four mutations can reach, each row of the
    table has exactly one entry in the search index under its name (and
    no other row has that name), every entry of the index belongs to a
    row, and a delete leaves neither the row nor its entry behind. *)
Theorem search_index_coupled (db : Store) :
  reachable db ->
  (forall r, In r (Moose_table db) ->
     entries_named (col_name r) db = 1%nat
     /\ rows_named (col_name r) db = 1%nat)
  /\ (forall n, In n (MooseSearch db) ->
        exists r, In r (Moose_table db) /\ col_name r = n)
  /\ (forall n,
        getMooseByName n (deleteMoose n db) = None
        /\ rows_named n (deleteMoose n db) = 0%nat
        /\ entries_named n (deleteMoose n db) = 0%nat).
Proof.
  intros Hr. pose proof (reachable_coupled db Hr) as Hc.
  pose proof (reachable_names_well_formed db Hr) as Hwf.
  destruct Hc as [Hnd Hperm].
  refine (conj _ (conj _ _)).
  - intros r Hin.
    assert (Hn : In (col_name r) (names db)) by (apply in_map, Hin).
    split.
    + unfold entries_named. rewrite (row_name_well_formed db r Hwf Hin).
      rewrite <- (Permutation_length
                    (Permutation_filter _ _ _ Hperm)).
      apply NoDup_count_one; assumption.
    + rewrite rows_named_names, (row_name_well_formed db r Hwf Hin).
      apply NoDup_count_one; assumption.
  - intros n Hin.
    apply (Permutation_in _ (Permutation_sym Hperm)) in Hin.
    apply in_map_iff in Hin as [r [Hn Hin]]. exists r; auto.
  - intros n.
    destruct (deleteMoose_removes n db (conj Hnd Hperm)) as [Hn Hs].
    refine (conj _ (conj _ _)).
    + unfold getMooseByName, getMooseByNameStmt_get, has_name.
      rewrite (find_name_is_none _ _ Hn). reflexivity.
    + rewrite rows_named_names, (filter_absent _ _ Hn). reflexivity.
    + unfold entries_named. rewrite (filter_absent _ _ Hs). reflexivity.
Qed.

Lemma max_rowid_spec t mx :
  max_rowid t = Some mx ->
  In mx (map rowid t) /\ forall x, In x (map rowid t) -> x <= mx.
Proof.
  revert mx; induction t as [|r rest IH]; intros mx H; [discriminate|].
  simpl in H. destruct (max_rowid rest) as [a|] eqn:Ha.
  - destruct (IH a eq_refl) as [Hin Hle]. injection H as <-. simpl. split.
    + destruct (Z.max_spec (rowid r) a) as [[_ ->]|[_ ->]]; auto.
    + intros x [<-|Hx]; [lia|]. specialize (Hle x Hx). lia.
  - injection H as <-. destruct rest as [|y rest'].
    + simpl. split; [auto|]. intros x [<-|[]]. lia.
    + simpl in Ha. destruct (max_rowid rest'); discriminate.
Qed.

Lemma max_rowid_nonempty t : t <> [] -> exists mx, max_rowid t = Some mx.
Proof.
  destruct t as [|r rest]; [congruence|]. intros _. simpl.
  destruct (max_rowid rest); eexists; reflexivity.
Qed.

(** ** The table of a reachable store stands in the order of its rowids *)

Lemma rowid_order_filter (f : MooseRec -> bool) t :
  rowid_order t -> rowid_order (filter f t).
Proof.
  unfold rowid_order. induction 1 as [|x l Hl IH Hx]; simpl; [constructor|].
  destruct (f x); [|exact IH].
  constructor; [exact IH|].
  apply Forall_forall. intros y Hy. apply filter_In in Hy as [Hy _].
  apply (proj1 (Forall_forall _ _) Hx y Hy).
Qed.

Lemma table_insert_rowid_order r t :
  rowid_order t -> ~ In (rowid r) (map rowid t) ->
  rowid_order (table_insert r t).
Proof.
  unfold rowid_order.
  induction t as [|x rest IH]; intros Hs Hnew; simpl.
  - repeat constructor.
  - apply StronglySorted_inv in Hs as [Hrest Hx].
    destruct (rowid r <? rowid x) eqn:E.
    + apply Z.ltb_lt in E. constructor; [constructor; assumption|].
      constructor; [exact E|].
      eapply Forall_impl; [|exact Hx]. intros y Hy. simpl in Hy. lia.
    + apply Z.ltb_ge in E.
      assert (Hne : rowid x <> rowid r)
        by (intros Heq; apply Hnew; left; exact Heq).
      constructor.
      * apply IH; [exact Hrest|]. intros Hin. apply Hnew. right; exact Hin.
      * apply Forall_forall. intros y Hy.
        apply (Permutation_in _ (table_insert_perm r rest)) in Hy.
        destruct Hy as [<-|Hy]; [simpl; lia|].
        apply (proj1 (Forall_forall _ _) Hx y Hy).
Qed.

Lemma rowid_order_one_max t mx :
  rowid_order t ->
  filter (fun r => rowid r =? mx) t = []
  \/ exists m, filter (fun r => rowid r =? mx) t = [m].
Proof.
  unfold rowid_order. induction 1 as [|x l Hl IH Hx]; simpl; [left; reflexivity|].
  destruct (rowid x =? mx) eqn:E; [|exact IH].
  right. exists x. f_equal. apply Z.eqb_eq in E.
  clear IH Hl. induction l as [|y l IHl]; [reflexivity|].
  inversion Hx as [|? ? Hy Hx']; subst. simpl.
  replace (rowid y =? rowid x) with false
    by (symmetry; apply Z.eqb_neq; lia).
  apply IHl, Hx'.
Qed.

Lemma move_max_rowid_order id t :
  rowid_order t -> ~ In id (map rowid t) -> rowid_order (move_max_rowid id t).
Proof.
  intros Ht Hid. unfold move_max_rowid.
  destruct (max_rowid t) as [mx|]; [|exact Ht].
  assert (Hkept : rowid_order (filter (fun r => negb (rowid r =? mx)) t))
    by apply rowid_order_filter, Ht.
  assert (Hfree : ~ In id (map rowid (filter (fun r => negb (rowid r =? mx)) t))).
  { intros Hin. apply Hid. apply in_map_iff in Hin as [r [<- Hr]].
    apply filter_In in Hr as [Hr _]. apply in_map, Hr. }
  destruct (rowid_order_one_max t mx Ht) as [-> | [m ->]]; simpl.
  - exact Hkept.
  - apply table_insert_rowid_order; [exact Hkept | exact Hfree].
Qed.

Lemma rowid_order_NoDup t : rowid_order t -> NoDup (map rowid t).
Proof.
  unfold rowid_order. induction 1 as [|x l Hl IH Hx]; simpl; constructor;
    [|exact IH].
  intros Hin. apply in_map_iff in Hin as [y [Hy Hin]].
  pose proof (proj1 (Forall_forall _ _) Hx y Hin) as Hlt. simpl in Hlt. lia.
Qed.

Lemma saveMooseStmt_run_rowid_order row db db' :
  rowid_order (Moose_table db) -> saveMooseStmt_run row db = Ok db' ->
  rowid_order (Moose_table db').
Proof.
  intros Ht. unfold saveMooseStmt_run.
  destruct (row_name row) as [n|]; [|discriminate].
  destruct (row_created row) as [c|]; [|discriminate].
  destruct (row_image row) as [i|]; [|discriminate].
  destruct (existsb (has_name n) (Moose_table db)); [discriminate|].
  intros [= <-]. unfold Moose_InsertTrigger. cbn [Moose_table].
  apply table_insert_rowid_order; [exact Ht|]. cbn [rowid].
  unfold next_rowid. intros Hin.
  destruct (max_rowid (Moose_table db)) as [mx|] eqn:Hmx.
  - destruct (max_rowid_spec _ _ Hmx) as [_ Hle]. specialize (Hle _ Hin). lia.
  - destruct (Moose_table db) as [|r t]; [destruct Hin|].
    simpl in Hmx. destruct (max_rowid t); discriminate.
Qed.

Lemma deleteMoose_rowid_order n db :
  rowid_order (Moose_table db) -> rowid_order (Moose_table (deleteMoose n db)).
Proof.
  intros Ht. unfold deleteMoose, deleteMooseStmt_run.
  destruct (find (has_name n) (Moose_table db)) as [old|] eqn:Hf; [|exact Ht].
  cbn [Moose_DelTrigger Moose_table].
  apply find_some in Hf as [Hin Hname].
  apply move_max_rowid_order; [apply rowid_order_filter, Ht|].
  intros Hid. apply in_map_iff in Hid as [r [Hr Hrin]].
  apply filter_In in Hrin as [Hrin Hrn].
  assert (r = old).
  { pose proof (rowid_order_NoDup _ Ht) as Hnd.
    clear -Hnd Hin Hrin Hr.
    induction (Moose_table db) as [|x t IH]; [destruct Hin|].
    simpl in Hnd. inversion Hnd as [|? ? Hx Hnd']; subst.
    destruct Hin as [-> | Hin], Hrin as [-> | Hrin]; auto.
    - exfalso. apply Hx. rewrite <- Hr. apply in_map, Hrin.
    - exfalso. apply Hx. rewrite Hr. apply in_map, Hin. }
  subst r. rewrite Hname in Hrn. discriminate.
Qed.

Lemma reachable_rowid_order db : reachable db -> rowid_order (Moose_table db).
Proof.
  induction 1 as [|op db _ IH]; [constructor|].
  destruct op as [m|meese|n|n png]; simpl.
  - unfold saveMoose.
    destruct (saveMooseStmt_run (mooseToRow m) db) as [db'|e] eqn:Hs;
      [eapply saveMooseStmt_run_rowid_order; eassumption | exact IH].
  - apply (bulkSaveMoose_preserves (fun db => rowid_order (Moose_table db)));
      [|exact IH].
    intros m db0 db1 H0 Hs. eapply saveMooseStmt_run_rowid_order; eassumption.
  - apply deleteMoose_rowid_order, IH.
  - unfold saveMoosePng, saveMoosePngStmt_run. cbn [Moose_table].
    unfold rowid_order in *.
    induction IH as [|x l Hl IHl Hx]; simpl; constructor; [exact IHl|].
    apply Forall_map. eapply Forall_impl; [|exact Hx].
    intros y Hy. destruct (has_name n x), (has_name n y); exact Hy.
Qed.

Lemma store_A_B_reachable : reachable store_A_B.
Proof. unfold store_A_B. do 2 apply reach_step. apply reach_empty. Qed.

(** [search_index_coupled] at the store holding A and B. *)
Lemma search_index_coupled_witness :
  entries_named (str "A") store_A_B = 1%nat
  /\ entries_named (str "B") (deleteMoose (str "B") store_A_B) = 0%nat.
Proof.
  destruct (search_index_coupled store_A_B store_A_B_reachable)
    as (Hrows & _ & Hdel).
  split.
  - refine (proj1 (Hrows
      (mkMooseRec 1 (str "A") (num_of_Z 100) (str "img") (Some [])
         (Some 0) (Some 0) (Some 0) None) _)).
    left; reflexivity.
  - apply (Hdel (str "B")).
Defined.

(* ================================================================== *)
(** * Saving and looking up *)

Lemma integer_affinity_num_of_Z t :
  integer_affinity (num_of_Z t) = num_of_Z t.
Proof. destruct t; reflexivity. Qed.

Lemma isNaN_num_of_Z t : isNaN (num_of_Z t) = false.
Proof. destruct t; reflexivity. Qed.

(** C1.  For a valid Moose [m] (every property present, a valid date,
    well-formed strings) whose name is not in the store, [saveMoose]
    succeeds and [getMooseByName] then returns [m], equal in all seven
    properties; the png of the new record is absent (null); and decoding
    the encoded row gives [m] back. *)
Theorem saveMoose_then_getMooseByName (m : Moose) (n : jsstring) (db : Store) :
  valid_Moose m ->
  name m = Val n ->
  existsb (has_name n) (Moose_table db) = false ->
  exists db',
    saveMoose m db = Ok db'
    /\ getMooseByName n db' = Some m
    /\ getMoosePng n db' = Null
    /\ rowToMoose (Some (mooseToRow m)) = Some m.
Proof.
  intros (n' & t & i & s & h & sh & ex & -> & Ht & Hn & Hi & Hs) [= ->] Hfresh.
  unfold saveMoose, saveMooseStmt_run, mooseToRow.
  cbn [name created image shade hd shaded extended nullish_or ToNumber
       Date_valueOf row_name row_created row_image row_shade row_hd
       row_shaded row_extended truthy option_map].
  rewrite isNaN_num_of_Z, Hfresh. unfold well_formed in Hn, Hi, Hs.
  rewrite Hn, Hi, Hs.
  eexists; split; [reflexivity|].
  pose proof (new_Date_valueOf t Ht) as Hd. simpl in Hd.
  unfold has_name in Hfresh. rewrite Hn in Hfresh.
  refine (conj _ (conj _ _)).
  - unfold getMooseByName, getMooseByNameStmt_get, Moose_InsertTrigger, has_name.
    cbn [Moose_table]. rewrite Hn.
    rewrite (find_table_insert n) by
      (try exact Hfresh; apply name_is_true; reflexivity).
    cbn. rewrite Hd. destruct h, sh, ex; reflexivity.
  - unfold getMoosePng, getMoosePngStmt_get_png, Moose_InsertTrigger, has_name.
    cbn [Moose_table]. rewrite Hn.
    rewrite (find_table_insert n) by
      (try exact Hfresh; apply name_is_true; reflexivity).
    reflexivity.
  - cbn. rewrite integer_affinity_num_of_Z in Hd.
    rewrite Hd. destruct h, sh, ex; reflexivity.
Qed.

(** [saveMoose_then_getMooseByName] for moose B and the store holding A. *)
Lemma saveMoose_then_getMooseByName_witness :
  exists db',
    saveMoose moose_B (apply_mutation (SaveMoose moose_A) empty_store) = Ok db'
    /\ getMooseByName (str "B") db' = Some moose_B
    /\ getMoosePng (str "B") db' = Null
    /\ rowToMoose (Some (mooseToRow moose_B)) = Some moose_B.
Proof.
  apply (saveMoose_then_getMooseByName moose_B (str "B")).
  - exists (str "B"), 200, (str "img"), [], false, false, false.
    refine (conj eq_refl (conj _ (conj eq_refl (conj eq_refl eq_refl)))).
    unfold max_time_value; lia.
  - reflexivity.
  - reflexivity.
Defined.

(* ================================================================== *)
(** * The random record *)

(** C10, where it fails.  Save A, save B, delete B: B held the largest
    rowid, so the trigger finds A as the new largest and moves it to the
    rowid of B.  The only row now has rowid 2, rowid 1 is free, and an even
    draw selects rowid 1: no record comes back from a store that holds
    one.  An empty store gives no record for any draw. *)
Theorem getRandomMoose_after_deleting_last :
  reachable store_A_after_delete_B
  /\ map (fun r => (rowid r, col_name r)) (Moose_table store_A_after_delete_B)
     = [(2, str "A")]
  /\ getRandomMoose 0 store_A_after_delete_B = None
  /\ getRandomMoose 1 store_A_after_delete_B = Some moose_A
  /\ (forall draw, getRandomMoose draw empty_store = None).
Proof.
  refine (conj _ (conj _ (conj _ (conj _ _)))).
  - apply reach_step, store_A_B_reachable.
  - vm_compute; reflexivity.
  - vm_compute; reflexivity.
  - vm_compute; reflexivity.
  - intros draw; reflexivity.
Qed.

(* ================================================================== *)
(** * Bulk import *)

(** An incomplete row fails on a NOT NULL constraint, whatever the store
    holds; a complete row is inserted or fails on the unique index. *)
Lemma saveMooseStmt_run_incomplete row db :
  row_complete row = false ->
  exists e, saveMooseStmt_run row db = Throw e
            /\ is_unique_violation e = false.
Proof.
  unfold row_complete, saveMooseStmt_run.
  destruct (row_name row), (row_created row), (row_image row);
    intros H; try discriminate H; eexists; split; reflexivity.
Qed.

Lemma saveMooseStmt_run_complete row db :
  row_complete row = true ->
  (exists db', saveMooseStmt_run row db = Ok db'
     /\ List.length (Moose_table db') = S (List.length (Moose_table db)))
  \/ (saveMooseStmt_run row db = Throw (SqliteError UNIQUE_failed)).
Proof.
  unfold row_complete, saveMooseStmt_run.
  destruct (row_name row) as [n|], (row_created row) as [c|],
    (row_image row) as [i|]; intros H; try discriminate H.
  destruct (existsb (has_name n) (Moose_table db)); [right; reflexivity|].
  left. eexists; split; [reflexivity|]. simpl.
  apply (Permutation_length (table_insert_perm _ _)).
Qed.

Lemma bulk_loop_complete meese db log :
  forallb complete meese = true ->
  exists log',
    bulk_loop meese db log = (Ok tt, save_each meese db, log')
    /\ (List.length log' + List.length (Moose_table (save_each meese db))
        = List.length log + List.length meese
          + List.length (Moose_table db))%nat.
Proof.
  revert db log; induction meese as [|m rest IH]; intros db log Hall.
  - exists log; split; [reflexivity | simpl; lia].
  - simpl in Hall. apply andb_true_iff in Hall as [Hm Hrest].
    cbn [bulk_loop save_each]. unfold saveMoose.
    destruct (saveMooseStmt_run_complete (mooseToRow m) db Hm)
      as [(db' & -> & Hlen) | ->].
    + destruct (IH db' log Hrest) as (log' & -> & Hl).
      exists log'; split; [reflexivity|]. simpl in *. lia.
    + change (is_unique_violation (SqliteError UNIQUE_failed)) with true.
      cbv iota. cbn [store_after].
      destruct (IH db
                  (log ++ [str "BULK IMPORT MOOSE ALREADY EXISTS "
                             ++ template_name (name m)]) Hrest)
        as (log' & -> & Hl).
      exists log'; split; [reflexivity|].
      rewrite length_app in Hl. simpl in *. lia.
Qed.

Lemma bulk_loop_fatal pre m post db log :
  forallb complete pre = true ->
  complete m = false ->
  exists e log',
    saveMoose m (save_each pre db) = Throw e
    /\ is_unique_violation e = false
    /\ bulk_loop (pre ++ m :: post) db log
       = (Throw e, save_each pre db, log').
Proof.
  revert db log; induction pre as [|p pre IH]; intros db log Hpre Hm.
  - destruct (saveMooseStmt_run_incomplete (mooseToRow m) db Hm)
      as (e & He & Hu).
    exists e, log. cbn [app bulk_loop save_each]. unfold saveMoose.
    rewrite He, Hu. auto.
  - simpl in Hpre. apply andb_true_iff in Hpre as [Hp Hpre].
    cbn [app bulk_loop save_each].
    change (saveMoose p db) with (saveMooseStmt_run (mooseToRow p) db).
    destruct (saveMooseStmt_run_complete (mooseToRow p) db Hp)
      as [(db' & -> & _) | ->].
    + apply IH; assumption.
    + change (is_unique_violation (SqliteError UNIQUE_failed)) with true.
      cbv iota. cbn [store_after]. apply IH; assumption.
Qed.

Lemma rows_named_zero n db :
  existsb (has_name n) (Moose_table db) = false -> rows_named n db = 0%nat.
Proof.
  intros H. rewrite rows_named_names, filter_absent; [reflexivity|].
  apply existsb_name_is_false, H.
Qed.

Lemma rows_named_pos n db :
  existsb (has_name n) (Moose_table db) = true -> (1 <= rows_named n db)%nat.
Proof.
  unfold rows_named. induction (Moose_table db) as [|r t IH]; simpl;
    [discriminate|].
  destruct (has_name n r); simpl; [lia | exact IH].
Qed.

(** C2.  [bulkSaveMoose] inserts the records inside one transaction.
    (1) When every record is complete, so that the only way an insert can
    fail is the unique index on the name, the call returns normally: each
    record is inserted or skipped with one warning, and the inserts after a
    skipped record still happen.  (2) When a record fails for another
    reason, that exception leaves the call and the store is the one before
    the call, although the loop had already inserted the records in front
    of it.  (3) Given the same complete record twice, the call returns
    normally and the store holds exactly one row of that name. *)
Theorem bulkSaveMoose_transaction :
  (forall meese db,
     forallb complete meese = true ->
     exists log,
       bulkSaveMoose meese db = (Ok tt, save_each meese db, log)
       /\ (List.length log + List.length (Moose_table (save_each meese db))
           = List.length meese + List.length (Moose_table db))%nat)
  /\ (forall pre m post db,
        forallb complete pre = true ->
        complete m = false ->
        exists e log,
          saveMoose m (save_each pre db) = Throw e
          /\ is_unique_violation e = false
          /\ bulk_loop (pre ++ m :: post) db [] = (Throw e, save_each pre db, log)
          /\ bulkSaveMoose (pre ++ m :: post) db = (Throw e, db, log))
  /\ (forall m n db,
        name m = Val n ->
        complete m = true ->
        (rows_named n db <= 1)%nat ->
        exists db' log,
          bulkSaveMoose [m; m] db = (Ok tt, db', log)
          /\ rows_named n db' = 1%nat).
Proof.
  refine (conj _ (conj _ _)).
  - intros meese db Hall. unfold bulkSaveMoose, transaction.
    destruct (bulk_loop_complete meese db [] Hall) as (log & -> & Hl).
    exists log; split; [reflexivity | simpl in Hl; lia].
  - intros pre m post db Hpre Hm. unfold bulkSaveMoose, transaction.
    destruct (bulk_loop_fatal pre m post db [] Hpre Hm)
      as (e & log & Hs & Hu & ->).
    exists e, log. auto.
  - intros m n db Hn Hm Hone. unfold bulkSaveMoose, transaction.
    cbn [bulk_loop]. unfold complete, row_complete in Hm.
    unfold saveMooseStmt_run.
    assert (Hrn : row_name (mooseToRow m) = Some n).
    { unfold mooseToRow; simpl. rewrite Hn. reflexivity. }
    rewrite Hrn in *.
    destruct (row_created (mooseToRow m)) as [c|]; [|discriminate].
    destruct (row_image (mooseToRow m)) as [i|]; [|discriminate].
    destruct (existsb (has_name n) (Moose_table db)) eqn:Hex.
    + change (is_unique_violation (SqliteError UNIQUE_failed)) with true.
      cbv iota. do 2 eexists; split; [reflexivity|].
      apply rows_named_pos in Hex. lia.
    + cbn [Moose_InsertTrigger Moose_table MooseSearch].
      set (new := mkMooseRec _ (bind_text n) _ _ _ _ _ _ _).
      assert (Hin : existsb (has_name n) (table_insert new (Moose_table db))
                    = true).
      { apply existsb_exists. exists new. split.
        - apply (Permutation_in _ (Permutation_sym (table_insert_perm _ _))).
          left; reflexivity.
        - apply name_is_true; reflexivity. }
      rewrite Hin.
      change (is_unique_violation (SqliteError UNIQUE_failed)) with true.
      cbv iota. do 2 eexists; split; [reflexivity|].
      unfold rows_named, Moose_InsertTrigger; cbn [Moose_table].
      rewrite (Permutation_length
                 (Permutation_filter (has_name n) _ _
                    (table_insert_perm new (Moose_table db)))).
      cbn [filter]. replace (has_name n new) with true
        by (symmetry; apply name_is_true; reflexivity).
      cbn [List.length]. f_equal. apply (rows_named_zero n db Hex).
Qed.

(** [bulkSaveMoose_transaction] at three batches on the store holding A:
    B next to a second A, B in front of a record without image, and B
    twice. *)
Lemma bulkSaveMoose_transaction_witness :
  let db := apply_mutation (SaveMoose moose_A) empty_store in
  (exists log, bulkSaveMoose [moose_A; moose_B] db = (Ok tt, store_A_B, log))
  /\ (exists e log,
        bulkSaveMoose [moose_B; moose_no_image] db = (Throw e, db, log))
  /\ (exists db' log,
        bulkSaveMoose [moose_B; moose_B] db = (Ok tt, db', log)
        /\ rows_named (str "B") db' = 1%nat).
Proof.
  intros db.
  destruct bulkSaveMoose_transaction as (Hok & Hfatal & Htwice).
  refine (conj _ (conj _ _)).
  - destruct (Hok [moose_A; moose_B] db eq_refl) as (log & H & _).
    exists log. exact H.
  - destruct (Hfatal [moose_B] moose_no_image [] db eq_refl eq_refl)
      as (e & log & _ & _ & _ & H).
    exists e, log. exact H.
  - apply (Htwice moose_B (str "B") db eq_refl eq_refl).
    vm_compute. lia.
Defined.

(* ================================================================== *)
(** * The streaming exporter *)

Lemma serialise_row row :
  serialise (Some (RowValue row)) = Ok (Some (row_json row)).
Proof. reflexivity. Qed.

(** Reading a cursor over [rows] to its end takes one read per row and one
    more, which meets the end. *)
Lemma read_to_end rows : forall is_first before rel ret err,
  run_stream (repeat EvRead (S (List.length rows)))
    (mkReadable
       (mkIter (map (fun row => Yields (RowValue row)) rows) true rel ret)
       is_first before false false err)
  = mkReadable (mkIter [] false (S rel) ret)
      (match rows with [] => is_first | _ :: _ => false end)
      (before ++ chunks is_first rows ++ [[RBRACKET]]) true false err.
Proof.
  induction rows as [|row rest IH]; intros is_first before rel ret err.
  - reflexivity.
  - change (repeat EvRead (S (List.length (row :: rest))))
      with (EvRead :: repeat EvRead (S (List.length rest))).
    cbn [run_stream fold_left]. fold (run_stream (repeat EvRead (S (List.length rest)))).
    cbn [map on_event ended destroyed orb].
    unfold _read. cbn [iter iter_next alive upcoming releases returns].
    rewrite serialise_row. cbn [json_text first].
    destruct is_first; cbn [negb];
      unfold set_first, push, set_iter;
      cbn [iter first pushed ended destroyed errored];
      rewrite IH; cbn [chunks]; rewrite <- app_assoc;
      destruct rest; reflexivity.
Qed.

Lemma concat_chunks_false rows :
  List.concat (chunks false rows)
  = flat_map (fun v => [COMMA; VALUE v]) (map row_json rows).
Proof.
  induction rows as [|row rest IH]; [reflexivity|].
  simpl. rewrite IH. reflexivity.
Qed.

Lemma concat_chunks_first rows :
  List.concat (chunks true rows) = comma_separated (map row_json rows).
Proof.
  destruct rows as [|row rest]; [reflexivity|].
  simpl. rewrite concat_chunks_false. reflexivity.
Qed.

Lemma parse_elements_commas vs :
  parse_elements (flat_map (fun v => [COMMA; VALUE v]) vs ++ [RBRACKET])
  = Some vs.
Proof.
  induction vs as [|v vs IH]; [reflexivity|].
  cbn [flat_map app]. cbn [parse_elements]. rewrite IH. reflexivity.
Qed.

Lemma parse_array_commas vs :
  parse_array ([LBRACKET] ++ comma_separated vs ++ [RBRACKET]) = Some vs.
Proof.
  destruct vs as [|v vs]; [reflexivity|].
  cbn [comma_separated app]. cbn [parse_array].
  rewrite parse_elements_commas. reflexivity.
Qed.

Lemma find_unique_name r t :
  NoDup (map col_name t) -> In r t -> find (name_is (col_name r)) t = Some r.
Proof.
  induction t as [|x t IH]; intros Hnd Hin; [destruct Hin|].
  simpl in *. inversion Hnd as [|? ? Hx Hnd']; subst.
  destruct Hin as [-> | Hin].
  - unfold name_is. rewrite jsstring_eqb_refl. reflexivity.
  - destruct (name_is (col_name r) x) eqn:E.
    + apply name_is_true in E. exfalso; apply Hx. rewrite E.
      apply in_map, Hin.
    + apply IH; assumption.
Qed.

(** C7.  For a store of K records, reading the export stream to its end
    pushes an opening bracket, the K records with a comma between
    neighbours and none after the last, and a closing bracket, and then
    ends the stream without error; what was pushed reads as a JSON array
    of the K values, the empty array for an empty store.  Each value is
    [JSON.stringify] of [rowToMoose] of the row, which for a reachable
    store is what [getMooseByName] returns for that record. *)
Theorem reader_output_is_json_array (db : Store) :
  let K := List.length (Moose_table db) in
  let s := run_stream (repeat EvRead (S K)) (reader db) in
  let values := map row_json (dumpDbStmt_all db) in
  ended s = true
  /\ errored s = None
  /\ output s = [LBRACKET] ++ comma_separated values ++ [RBRACKET]
  /\ parse_array (output s) = Some values
  /\ List.length values = K
  /\ map Some values
     = map (fun row => JSON_stringify (rowToMoose (Some row)))
         (dumpDbStmt_all db)
  /\ (reachable db ->
      forall r, In r (Moose_table db) ->
        JSON_stringify (getMooseByName (col_name r) db)
        = Some (row_json (select_columns r))).
Proof.
  intros K s values.
  assert (Hs : s = mkReadable (mkIter [] false 1 0)
                     (match dumpDbStmt_all db with
                      | [] => true
                      | _ :: _ => false
                      end)
                     ([[LBRACKET]] ++ chunks true (dumpDbStmt_all db)
                        ++ [[RBRACKET]]) true false None).
  { subst s K. unfold reader, new_MooseReadable, dumpDbStmt_iterate.
    unfold set_first, push.
    cbn [iter first pushed ended destroyed errored app].
    replace (List.length (Moose_table db))
      with (List.length (dumpDbStmt_all db))
      by (unfold dumpDbStmt_all; apply length_map).
    apply read_to_end. }
  assert (Hout : output s
                 = [LBRACKET] ++ comma_separated values ++ [RBRACKET]).
  { rewrite Hs. unfold output. cbn [pushed].
    rewrite !concat_app, concat_chunks_first. reflexivity. }
  refine (conj _ (conj _ (conj Hout (conj _ (conj _ (conj _ _)))))).
  - rewrite Hs; reflexivity.
  - rewrite Hs; reflexivity.
  - rewrite Hout. apply parse_array_commas.
  - subst values K. unfold dumpDbStmt_all. rewrite !length_map. reflexivity.
  - subst values. rewrite map_map. reflexivity.
  - intros Hr r Hin.
    pose proof (reachable_names_well_formed db Hr) as Hwf.
    apply reachable_coupled in Hr as [Hnd _].
    unfold getMooseByName, getMooseByNameStmt_get, has_name.
    rewrite (row_name_well_formed db r Hwf Hin).
    rewrite (find_unique_name r _ Hnd Hin). reflexivity.
Qed.

(** [reader_output_is_json_array] at the store holding A and B, and at the
    empty store. *)
Lemma reader_output_is_json_array_witness :
  parse_array (output (run_stream [EvRead; EvRead; EvRead] (reader store_A_B)))
  = Some [row_json (mooseToRow moose_A); row_json (mooseToRow moose_B)]
  /\ output (run_stream [EvRead] (reader empty_store)) = [LBRACKET; RBRACKET].
Proof.
  split.
  - exact (proj1 (proj2 (proj2 (proj2
             (reader_output_is_json_array store_A_B))))).
  - exact (proj1 (proj2 (proj2 (reader_output_is_json_array empty_store)))).
Defined.

(** ** The cursor is released once *)

Lemma new_MooseReadable_accounted pulls :
  cursor_accounted (new_MooseReadable (mkIter pulls true 0 0)).
Proof. unfold cursor_accounted; simpl; intuition congruence. Qed.

Lemma on_event_accounted s ev :
  cursor_accounted s -> cursor_accounted (on_event s ev).
Proof.
  destruct s as [[up al rel ret] f p en de er].
  unfold cursor_accounted; simpl. intros (H1 & H2 & H3 & H4 & H5 & H6).
  destruct ev as [|err]; simpl.
  - destruct en; simpl; [intuition congruence|].
    destruct de; simpl; [intuition congruence|].
    unfold _read; simpl.
    destruct al; simpl.
    + destruct up as [|[[row|e]|e] up]; simpl.
      * intuition (congruence || lia).
      * destruct f; simpl; intuition (congruence || lia).
      * unfold destroy; simpl. intuition (congruence || lia).
      * unfold destroy; simpl. intuition (congruence || lia).
    + intuition (congruence || lia).
  - unfold destroy; simpl. destruct de; simpl; [intuition congruence|].
    destruct al; simpl; intuition (congruence || lia).
Qed.

Lemma run_stream_accounted evs s :
  cursor_accounted s -> cursor_accounted (run_stream evs s).
Proof.
  revert s; induction evs as [|ev evs IH]; intros s H; simpl; [exact H|].
  apply IH, on_event_accounted, H.
Qed.

(** What one read does to a stream that has neither ended nor been
    destroyed, by what its cursor holds next. *)
Lemma read_step s :
  cursor_accounted s -> ended s = false -> destroyed s = false ->
  let s' := on_event s EvRead in
  match upcoming (iter s) with
  | [] =>
      ended s' = true /\ destroyed s' = false /\ errored s' = None
      /\ pushed s' = pushed s ++ [[RBRACKET]]
  | Yields (RowValue row) :: rest =>
      ended s' = false /\ destroyed s' = false
      /\ alive (iter s') = true /\ upcoming (iter s') = rest
  | Yields (Unserialisable e) :: _ | StepFails e :: _ =>
      ended s' = false /\ destroyed s' = true /\ errored s' = Some e
      /\ pushed s' = pushed s
  end.
Proof.
  destruct s as [[up al rel ret] f p en de er].
  unfold cursor_accounted; simpl. intros (_ & _ & _ & _ & H5 & H6) -> ->.
  destruct (H5 eq_refl) as [_ ->].
  rewrite (H6 eq_refl eq_refl). simpl. unfold _read; simpl.
  destruct up as [|[[row|e]|e] up]; simpl.
  - auto.
  - destruct f; simpl; auto.
  - unfold destroy; simpl. auto.
  - unfold destroy; simpl. auto.
Qed.

Lemma stopped_stays s evs :
  ended s = true \/ destroyed s = true ->
  ended (run_stream (repeat EvRead evs) s) = ended s
  /\ destroyed (run_stream (repeat EvRead evs) s) = destroyed s.
Proof.
  intros H. induction evs as [|n IH]; [split; reflexivity|].
  cbn [repeat run_stream fold_left].
  replace (on_event s EvRead) with s; [exact IH|].
  simpl. destruct H as [-> | ->]; [|rewrite orb_true_r]; reflexivity.
Qed.

(** Reading on comes to a stop, whatever the cursor holds: one read more
    than the cursor has values always finds the stream ended or
    destroyed. *)
Lemma reads_stop n : forall s,
  cursor_accounted s ->
  (List.length (upcoming (iter s)) < n)%nat ->
  let s' := run_stream (repeat EvRead n) s in
  ended s' = true \/ destroyed s' = true.
Proof.
  induction n as [|n IH]; intros s Hs Hlen; [lia|]. cbv zeta in *.
  destruct (ended s) eqn:He.
  { destruct (stopped_stays s (S n) (or_introl He)) as [-> _]. auto. }
  destruct (destroyed s) eqn:Hd.
  { destruct (stopped_stays s (S n) (or_intror Hd)) as [_ ->]. auto. }
  cbn [repeat run_stream fold_left].
  fold (run_stream (repeat EvRead n) (on_event s EvRead)).
  pose proof (read_step s Hs He Hd) as Hstep. cbv zeta in Hstep.
  pose proof (on_event_accounted s EvRead Hs) as Hs'.
  destruct (upcoming (iter s)) as [|[[row|e]|e] rest] eqn:Hup.
  - destruct Hstep as (He' & _).
    destruct (stopped_stays (on_event s EvRead) n (or_introl He')) as [-> _].
    auto.
  - destruct Hstep as (_ & _ & _ & Hrest).
    apply (IH _ Hs'). rewrite Hrest. simpl in Hlen. lia.
  - destruct Hstep as (_ & Hd' & _).
    destruct (stopped_stays (on_event s EvRead) n (or_intror Hd')) as [_ ->].
    auto.
  - destruct Hstep as (_ & Hd' & _).
    destruct (stopped_stays (on_event s EvRead) n (or_intror Hd')) as [_ ->].
    auto.
Qed.

(** C8.  Whatever the cursor delivers (rows, a value that cannot be
    serialised, a failing step) and whatever happened to the stream so far
    (reads, a destroy at any moment): the cursor is released at most once;
    once the stream has ended or was destroyed the cursor is closed and was
    released exactly once; [return()] is called exactly once by a destroy
    and never otherwise; an error reaches the consumer only through a
    destroy; a destroy, at any moment, leaves the cursor closed.  A read
    of a stream that is still going meets the end of the rows and ends the
    stream, or meets a failing step or a value that cannot be serialised
    and destroys the stream with that error, or meets a row and goes on;
    in the first two cases the cursor is closed and released once by that
    read.  And reading on always comes to a stop: after one read more than
    the cursor has values the stream has ended or is destroyed, and the
    cursor is closed and was released exactly once. *)
Theorem cursor_released_exactly_once
  (pulls : list pull) (evs : list stream_event) :
  let s := run_stream evs (new_MooseReadable (mkIter pulls true 0 0)) in
  (releases (iter s) <= 1)%nat
  /\ (ended s = true \/ destroyed s = true ->
      alive (iter s) = false /\ releases (iter s) = 1%nat)
  /\ returns (iter s) = (if destroyed s then 1 else 0)%nat
  /\ (errored s <> None -> destroyed s = true)
  /\ (forall err,
        let s' := on_event s (EvDestroy err) in
        destroyed s' = true /\ alive (iter s') = false
        /\ releases (iter s') = 1%nat /\ returns (iter s') = 1%nat)
  /\ (ended s = false -> destroyed s = false ->
      let s' := on_event s EvRead in
      alive (iter s) = true /\ releases (iter s) = 0%nat
      /\ match upcoming (iter s) with
         | [] =>
             ended s' = true /\ destroyed s' = false /\ errored s' = None
             /\ alive (iter s') = false /\ releases (iter s') = 1%nat
         | Yields (RowValue row) :: rest =>
             ended s' = false /\ destroyed s' = false
             /\ alive (iter s') = true /\ upcoming (iter s') = rest
         | Yields (Unserialisable e) :: _ | StepFails e :: _ =>
             destroyed s' = true /\ errored s' = Some e
             /\ pushed s' = pushed s
             /\ alive (iter s') = false /\ releases (iter s') = 1%nat
             /\ returns (iter s') = 1%nat
         end)
  /\ (let s' := run_stream (repeat EvRead (S (List.length pulls))) s in
      (ended s' = true \/ destroyed s' = true)
      /\ alive (iter s') = false /\ releases (iter s') = 1%nat).
Proof.
  intros s.
  assert (Hs : cursor_accounted s)
    by apply run_stream_accounted, new_MooseReadable_accounted.
  assert (Hd : forall err, cursor_accounted (on_event s (EvDestroy err)))
    by (intros err; apply on_event_accounted, Hs).
  assert (Hclosed : forall s0,
            cursor_accounted s0 -> ended s0 = true \/ destroyed s0 = true ->
            alive (iter s0) = false /\ releases (iter s0) = 1%nat).
  { intros s0 (_ & H2 & H3 & H4 & _) [He | Hde].
    - split; [auto | apply H2; auto].
    - split; [apply H4; auto | apply H2, H4; auto]. }
  pose proof Hs as (H1 & H2 & H3 & H4 & H5 & H6).
  refine (conj _ (conj (Hclosed s Hs) (conj _ (conj _ (conj _ (conj _ _)))))).
  - destruct (alive (iter s)); [rewrite H1 | rewrite H2]; auto.
  - destruct (destroyed s); [apply H4 | apply H5]; reflexivity.
  - intros He. destruct (destroyed s); [reflexivity|].
    destruct (H5 eq_refl) as [_ Hn]. congruence.
  - intros err s'. specialize (Hd err). fold s' in Hd.
    destruct Hd as (_ & H2' & _ & H4' & _).
    assert (Hde : destroyed s' = true).
    { subst s'. simpl. unfold destroy. destruct (destroyed s) eqn:E;
        [exact E | reflexivity]. }
    destruct (H4' Hde) as [Ha Hr]. auto.
  - intros He Hde s'.
    pose proof (read_step s Hs He Hde) as Hstep. cbv zeta in Hstep.
    fold s' in Hstep.
    pose proof (on_event_accounted s EvRead Hs) as Hs'. fold s' in Hs'.
    refine (conj (H6 He Hde) (conj (H1 (H6 He Hde)) _)).
    destruct (upcoming (iter s)) as [|[[row|e]|e] rest].
    + destruct Hstep as (He' & Hd' & Her & _).
      destruct (Hclosed s' Hs' (or_introl He')) as [Ha Hr]. auto.
    + exact Hstep.
    + destruct Hstep as (_ & Hd' & Her & Hp).
      destruct (Hclosed s' Hs' (or_intror Hd')) as [Ha Hr].
      destruct Hs' as (_ & _ & _ & H4' & _). destruct (H4' Hd') as [_ Hret].
      auto 10.
    + destruct Hstep as (_ & Hd' & Her & Hp).
      destruct (Hclosed s' Hs' (or_intror Hd')) as [Ha Hr].
      destruct Hs' as (_ & _ & _ & H4' & _). destruct (H4' Hd') as [_ Hret].
      auto 10.
  - intros s'.
    assert (Hlen : forall evs0 s0,
              (List.length (upcoming (iter s0)) <= List.length pulls)%nat ->
              (List.length (upcoming (iter (run_stream evs0 s0)))
               <= List.length pulls)%nat).
    { induction evs0 as [|ev evs0 IHe]; intros s0 H0; [exact H0|].
      simpl. apply IHe.
      destruct s0 as [[up al rel ret] f p en de er]. simpl in *.
      destruct ev as [|err]; simpl.
      - destruct en, de; simpl; try exact H0.
        unfold _read; simpl. destruct al; simpl; [|exact H0].
        destruct up as [|[[row|e]|e] up]; simpl in *;
          try (destruct f; simpl); unfold destroy; simpl; lia.
      - unfold destroy; simpl. destruct de; simpl; [exact H0|].
        destruct al; simpl; lia. }
    assert (Hstop : ended s' = true \/ destroyed s' = true).
    { apply (reads_stop (S (List.length pulls)) s Hs).
      pose proof (Hlen evs (new_MooseReadable (mkIter pulls true 0 0))
                    (Nat.le_refl _)) as Hl.
      fold s in Hl. lia. }
    split; [exact Hstop|].
    apply Hclosed; [|exact Hstop].
    apply run_stream_accounted, Hs.
Qed.

(** [cursor_released_exactly_once] on the three ways a stream stops: read
    to the end and then destroyed by the runtime; destroyed by the consumer
    after one of two rows; destroyed by [_read] on a value that cannot be
    serialised, the cursor holding another row behind it. *)
Lemma cursor_released_exactly_once_witness :
  let fresh pulls := new_MooseReadable (mkIter pulls true 0 0) in
  let completed :=
    run_stream [EvRead; EvRead; EvDestroy None] (fresh [Yields (RowValue row_A)]) in
  let cancelled :=
    run_stream [EvRead; EvDestroy None]
      (fresh [Yields (RowValue row_A); Yields (RowValue row_A)]) in
  let failing :=
    run_stream [EvRead]
      (fresh [Yields (RowValue row_A);
              Yields (Unserialisable (TypeError "cannot serialise"));
              Yields (RowValue row_A)]) in
  let failed := on_event failing EvRead in
  (alive (iter completed) = false /\ releases (iter completed) = 1%nat)
  /\ (alive (iter cancelled) = false /\ releases (iter cancelled) = 1%nat)
  /\ (destroyed failed = true
      /\ errored failed = Some (TypeError "cannot serialise")
      /\ pushed failed = pushed failing
      /\ alive (iter failed) = false /\ releases (iter failed) = 1%nat
      /\ returns (iter failed) = 1%nat).
Proof.
  intros fresh completed cancelled failing failed.
  refine (conj _ (conj _ _)).
  - apply (proj1 (proj2 (cursor_released_exactly_once
             [Yields (RowValue row_A)] [EvRead; EvRead; EvDestroy None]))).
    left; reflexivity.
  - apply (proj1 (proj2 (cursor_released_exactly_once
             [Yields (RowValue row_A); Yields (RowValue row_A)]
             [EvRead; EvDestroy None]))).
    right; reflexivity.
  - apply (proj2 (proj2
      (proj1 (proj2 (proj2 (proj2 (proj2 (proj2
        (cursor_released_exactly_once
           [Yields (RowValue row_A);
            Yields (Unserialisable (TypeError "cannot serialise"));
            Yields (RowValue row_A)]
           [EvRead])))))) eq_refl eq_refl))).
Defined.

(* ================================================================== *)
(** * Saving, deleting and the png of a record *)

Lemma content_name r r' : content r = content r' -> col_name r = col_name r'.
Proof. unfold content, select_columns. intros [= H _]; exact H. Qed.

Lemma content_with_rowid id r : content (with_rowid id r) = content r.
Proof. reflexivity. Qed.

Lemma names_of_content t : map col_name t
  = map (fun c => match row_name (fst c) with Some n => n | None => [] end)
      (map content t).
Proof. rewrite map_map. apply map_ext. reflexivity. Qed.

Lemma move_max_rowid_content id t :
  Permutation (map content (move_max_rowid id t)) (map content t).
Proof.
  unfold move_max_rowid. destruct (max_rowid t) as [mx|]; [|reflexivity].
  transitivity (map content (filter (fun r => rowid r =? mx) t
                             ++ filter (fun r => negb (rowid r =? mx)) t));
    [|apply Permutation_map, (filter_split_perm (fun r => rowid r =? mx))].
  rewrite map_app.
  generalize (filter (fun r => negb (rowid r =? mx)) t) as kept; intros kept.
  induction (filter (fun r => rowid r =? mx) t) as [|r moved IH]; simpl.
  - reflexivity.
  - etransitivity; [apply Permutation_map, table_insert_perm|].
    simpl. constructor. exact IH.
Qed.

(** With distinct names, what a lookup by name finds depends on the rows
    only, not on their order or their rowids. *)
Lemma find_by_content n t t' :
  NoDup (map col_name t) -> NoDup (map col_name t') ->
  Permutation (map content t) (map content t') ->
  option_map content (find (name_is n) t)
  = option_map content (find (name_is n) t').
Proof.
  intros Hnd Hnd' Hperm.
  destruct (find (name_is n) t) as [r|] eqn:Hf.
  - apply find_name_is in Hf as [Hn Hin].
    assert (Hc : In (content r) (map content t'))
      by (eapply Permutation_in; [exact Hperm | apply in_map, Hin]).
    apply in_map_iff in Hc as [r' [Hc Hin']].
    assert (Hn' : col_name r' = n)
      by (rewrite (content_name _ _ Hc); exact Hn).
    rewrite <- Hn', (find_unique_name r' t' Hnd' Hin'). simpl. congruence.
  - destruct (find (name_is n) t') as [r'|] eqn:Hf'; [|reflexivity].
    apply find_name_is in Hf' as [Hn' Hin'].
    assert (Hc : In (content r') (map content t))
      by (eapply Permutation_in; [symmetry; exact Hperm | apply in_map, Hin']).
    apply in_map_iff in Hc as [r [Hc Hin]].
    apply (find_none _ _ Hf) in Hin.
    apply content_name in Hc. unfold name_is in Hin.
    rewrite Hc, Hn', jsstring_eqb_refl in Hin. discriminate.
Qed.

Lemma getMooseByName_content n db :
  getMooseByName n db
  = rowToMoose (option_map fst
                  (option_map content (find (has_name n) (Moose_table db)))).
Proof.
  unfold getMooseByName, getMooseByNameStmt_get.
  destruct (find (has_name n) (Moose_table db)); reflexivity.
Qed.

Lemma getMoosePng_content n db :
  getMoosePng n db
  = match option_map content (find (has_name n) (Moose_table db)) with
    | None => Undefined
    | Some c => of_column (snd c)
    end.
Proof.
  unfold getMoosePng, getMoosePngStmt_get_png.
  destruct (find (has_name n) (Moose_table db)); reflexivity.
Qed.

Lemma find_table_insert_other n new t :
  name_is n new = false ->
  find (name_is n) (table_insert new t) = find (name_is n) t.
Proof.
  intros Hn; induction t as [|x rest IH]; simpl.
  - rewrite Hn; reflexivity.
  - destruct (rowid new <? rowid x); simpl.
    + rewrite Hn; reflexivity.
    + rewrite IH; reflexivity.
Qed.

Lemma find_filter_other n n' t :
  n' <> n ->
  find (name_is n') (filter (fun r => negb (name_is n r)) t)
  = find (name_is n') t.
Proof.
  intros Hne; induction t as [|x rest IH]; simpl; [reflexivity|].
  destruct (name_is n x) eqn:Hx; simpl.
  - destruct (name_is n' x) eqn:Hx'; [|exact IH].
    apply name_is_true in Hx, Hx'. congruence.
  - rewrite IH; reflexivity.
Qed.

Lemma deleteMoose_absent n db :
  ~ In (bind_text n) (names db) -> deleteMoose n db = db.
Proof.
  intros H. unfold deleteMoose, deleteMooseStmt_run, has_name.
  rewrite (find_name_is_none _ _ H). reflexivity.
Qed.

(** What [saveMooseStmt] does with a row that has its three NOT NULL
    columns. *)
Lemma saveMooseStmt_run_complete_row row n c i db :
  row_name row = Some n -> row_created row = Some c ->
  row_image row = Some i ->
  saveMooseStmt_run row db
  = if existsb (name_is (bind_text n)) (Moose_table db) then
      Throw (SqliteError UNIQUE_failed)
    else
      let new :=
        mkMooseRec (next_rowid (Moose_table db)) (bind_text n)
          (integer_affinity c) (bind_text i)
          (option_map bind_text (row_shade row))
          (row_hd row) (row_shaded row) (row_extended row) None in
      Ok (mkStore (table_insert new (Moose_table db))
            (MooseSearch db ++ [bind_text n])).
Proof.
  intros Hn Hc Hi. unfold saveMooseStmt_run. rewrite Hn, Hc, Hi. reflexivity.
Qed.

Lemma complete_row moose :
  complete moose = true ->
  exists n c i,
    name moose = Val n
    /\ row_name (mooseToRow moose) = Some n
    /\ row_created (mooseToRow moose) = Some c
    /\ row_image (mooseToRow moose) = Some i.
Proof.
  unfold complete, row_complete.
  destruct (row_name (mooseToRow moose)) as [n|] eqn:Hn; [|discriminate].
  destruct (row_created (mooseToRow moose)) as [c|]; [|discriminate].
  destruct (row_image (mooseToRow moose)) as [i|]; [|discriminate].
  intros _. exists n, c, i. refine (conj _ (conj eq_refl (conj eq_refl eq_refl))).
  unfold mooseToRow in Hn; simpl in Hn.
  destruct (name moose); simpl in Hn; congruence.
Qed.

(** X1.  [saveMoose] of a complete record: when a row exists whose name
    is the name of the record as it is bound, the call throws the UNIQUE
    violation; when none exists the call inserts one row and one index
    entry of that name, and saving the same record once more, or any
    complete record whose name is bound to the same text, throws the
    UNIQUE violation. *)
Theorem saveMoose_unique_name (moose : Moose) (n : jsstring) (db : Store) :
  complete moose = true ->
  name moose = Val n ->
  (In (bind_text n) (names db) ->
   saveMoose moose db = Throw (SqliteError UNIQUE_failed))
  /\ (~ In (bind_text n) (names db) ->
      exists db',
        saveMoose moose db = Ok db'
        /\ Permutation (names db') (bind_text n :: names db)
        /\ MooseSearch db' = MooseSearch db ++ [bind_text n]
        /\ saveMoose moose db' = Throw (SqliteError UNIQUE_failed)
        /\ forall moose' n',
             complete moose' = true -> name moose' = Val n' ->
             bind_text n' = bind_text n ->
             saveMoose moose' db' = Throw (SqliteError UNIQUE_failed)).
Proof.
  intros Hc Hn.
  assert (Hsave : forall moose' n' db0,
            complete moose' = true -> name moose' = Val n' ->
            In (bind_text n') (names db0) ->
            saveMoose moose' db0 = Throw (SqliteError UNIQUE_failed)).
  { intros moose' n' db0 Hc' Hn' Hin.
    destruct (complete_row moose' Hc') as (n0 & c & i & Hn0 & Hr & Hcr & Hi).
    assert (n0 = n') by congruence. subst n0.
    unfold saveMoose.
    rewrite (saveMooseStmt_run_complete_row _ _ _ _ db0 Hr Hcr Hi).
    apply existsb_name_is in Hin. unfold names in Hin. rewrite Hin.
    reflexivity. }
  split; [apply (Hsave moose n db Hc Hn)|].
  intros Hin.
  destruct (complete_row moose Hc) as (n0 & c & i & Hn0 & Hr & Hcr & Hi).
  assert (n0 = n) by congruence. subst n0.
  unfold saveMoose at 1.
  rewrite (saveMooseStmt_run_complete_row _ _ _ _ db Hr Hcr Hi).
  apply existsb_name_is_false in Hin. rewrite Hin. cbv zeta.
  eexists; split; [reflexivity|].
  set (new := mkMooseRec _ (bind_text n) _ _ _ _ _ _ _).
  assert (Hp : Permutation (map col_name (table_insert new (Moose_table db)))
                 (bind_text n :: map col_name (Moose_table db)))
    by apply (Permutation_map col_name (table_insert_perm new _)).
  assert (Hnew : forall n', bind_text n' = bind_text n ->
            In (bind_text n')
              (names (mkStore (table_insert new (Moose_table db))
                        (MooseSearch db ++ [bind_text n])))).
  { intros n' ->. unfold names; cbn [Moose_table].
    apply (Permutation_in _ (Permutation_sym Hp)). left; reflexivity. }
  refine (conj Hp (conj eq_refl (conj _ _))).
  - apply (Hsave moose n _ Hc Hn), Hnew. reflexivity.
  - intros moose' n' Hc' Hn' Hsame.
    apply (Hsave moose' n' _ Hc' Hn'), Hnew, Hsame.
Qed.

(** [saveMoose_unique_name]: a record named by a lone surrogate is saved
    under U+FFFD, and a record named U+FFFD is refused after it. *)
Lemma saveMoose_unique_name_witness :
  exists db',
    saveMoose moose_lone_surrogate empty_store = Ok db'
    /\ names db' = [[replacement_character]]
    /\ saveMoose moose_replacement db' = Throw (SqliteError UNIQUE_failed).
Proof.
  destruct (saveMoose_unique_name moose_lone_surrogate [55296%N] empty_store
              eq_refl eq_refl) as [_ Hfresh].
  destruct (Hfresh (fun H => H)) as (db' & Hs & _ & _ & _ & Hother).
  exists db'. refine (conj Hs (conj _ _)).
  - injection Hs as <-. reflexivity.
  - apply (Hother moose_replacement [replacement_character]); reflexivity.
Defined.

(** X2.  A successful [saveMoose] of a record named [n] changes no other
    record: for every name that is bound to another text than [n],
    [getMooseByName] and [getMoosePng] answer as before. *)
Theorem saveMoose_frame (moose : Moose) (n n' : jsstring) (db db' : Store) :
  saveMoose moose db = Ok db' ->
  name moose = Val n ->
  bind_text n' <> bind_text n ->
  getMooseByName n' db' = getMooseByName n' db
  /\ getMoosePng n' db' = getMoosePng n' db.
Proof.
  intros Hs Hn Hne. unfold saveMoose, saveMooseStmt_run in Hs.
  assert (Hrn : row_name (mooseToRow moose) = Some n)
    by (unfold mooseToRow; simpl; rewrite Hn; reflexivity).
  rewrite Hrn in Hs.
  destruct (row_created (mooseToRow moose)) as [c|]; [|discriminate].
  destruct (row_image (mooseToRow moose)) as [i|]; [|discriminate].
  destruct (existsb (has_name n) (Moose_table db)); [discriminate|].
  injection Hs as <-.
  unfold getMooseByName, getMooseByNameStmt_get, getMoosePng,
    getMoosePngStmt_get_png, Moose_InsertTrigger, has_name; cbn [Moose_table].
  rewrite find_table_insert_other; [split; reflexivity|].
  apply jsstring_eqb_neq. simpl. congruence.
Qed.

(** [saveMoose_frame]: saving B leaves A as it was. *)
Lemma saveMoose_frame_witness :
  exists db',
    saveMoose moose_B (apply_mutation (SaveMoose moose_A) empty_store) = Ok db'
    /\ getMooseByName (str "A") db' = Some moose_A.
Proof.
  eexists. split; [reflexivity|].
  apply (saveMoose_frame moose_B (str "B") (str "A")
           (apply_mutation (SaveMoose moose_A) empty_store) _ eq_refl eq_refl).
  discriminate.
Defined.

(** X3.  [deleteMoose]: when no row has the name as it is bound, the store
    stays as it is.  In a store whose table and index are coupled (every
    reachable one), deleting a name that is present takes exactly one row
    and one entry away, changes no record whose name is bound to another
    text, and a second delete of the same name changes nothing. *)
Theorem deleteMoose_effect (n : jsstring) (db : Store) :
  (~ In (bind_text n) (names db) -> deleteMoose n db = db)
  /\ (coupled db ->
      (In (bind_text n) (names db) ->
       S (List.length (Moose_table (deleteMoose n db)))
       = List.length (Moose_table db)
       /\ S (List.length (MooseSearch (deleteMoose n db)))
          = List.length (MooseSearch db))
      /\ (forall n', bind_text n' <> bind_text n ->
            getMooseByName n' (deleteMoose n db) = getMooseByName n' db
            /\ getMoosePng n' (deleteMoose n db) = getMoosePng n' db)
      /\ deleteMoose n (deleteMoose n db) = deleteMoose n db).
Proof.
  split; [apply deleteMoose_absent|].
  intros Hc. pose proof (deleteMoose_coupled n db Hc) as Hc'.
  refine (conj _ (conj _ _)).
  - intros Hin.
    assert (Hlen : S (List.length (names (deleteMoose n db)))
                   = List.length (names db)).
    { unfold deleteMoose, deleteMooseStmt_run, names, has_name.
      destruct (find (name_is (bind_text n)) (Moose_table db)) as [old|] eqn:Hf.
      - cbn [Moose_DelTrigger Moose_table].
        rewrite (Permutation_length (move_max_rowid_names _ _)).
        rewrite names_filter.
        pose proof (NoDup_count_one (bind_text n) _ (proj1 Hc) Hin) as H1.
        pose proof (Permutation_length
                      (filter_split_perm
                         (fun e => jsstring_eqb e (bind_text n))
                         (map col_name (Moose_table db)))) as H2.
        rewrite length_app in H2. unfold names in H1. lia.
      - exfalso. apply existsb_name_is in Hin.
        apply existsb_exists in Hin as [r [Hr1 Hr2]].
        apply (find_none _ _ Hf) in Hr1. congruence. }
    split.
    + unfold names in Hlen. rewrite !length_map in Hlen. exact Hlen.
    + rewrite <- (Permutation_length (proj2 Hc')),
        <- (Permutation_length (proj2 Hc)). exact Hlen.
  - intros n' Hne.
    rewrite !getMooseByName_content, !getMoosePng_content.
    assert (E : option_map content
                  (find (has_name n') (Moose_table (deleteMoose n db)))
                = option_map content (find (has_name n') (Moose_table db))).
    { unfold deleteMoose, deleteMooseStmt_run, has_name.
      destruct (find (name_is (bind_text n)) (Moose_table db)) as [old|] eqn:Hf;
        [|reflexivity].
      cbn [Moose_DelTrigger Moose_table].
      rewrite <- (find_filter_other (bind_text n) (bind_text n')
                    (Moose_table db) Hne).
      apply find_by_content.
      - eapply Permutation_NoDup; [symmetry; apply move_max_rowid_names|].
        rewrite names_filter. apply NoDup_filter, Hc.
      - rewrite names_filter. apply NoDup_filter, Hc.
      - apply move_max_rowid_content. }
    rewrite E. split; reflexivity.
  - apply deleteMoose_absent, (deleteMoose_removes n db Hc).
Qed.

(** [deleteMoose_effect] at the store holding A and B. *)
Lemma deleteMoose_effect_witness :
  deleteMoose (str "C") store_A_B = store_A_B
  /\ getMooseByName (str "A") (deleteMoose (str "B") store_A_B)
     = getMooseByName (str "A") store_A_B.
Proof.
  destruct (deleteMoose_effect (str "C") store_A_B) as [Habs _].
  destruct (deleteMoose_effect (str "B") store_A_B) as [_ Hpres].
  split.
  - apply Habs. vm_compute. intros [H|[H|[]]]; discriminate H.
  - apply (Hpres (reachable_coupled _ store_A_B_reachable)). discriminate.
Defined.

Lemma find_map_same_name n (f : MooseRec -> MooseRec) t :
  (forall r, col_name (f r) = col_name r) ->
  find (name_is n) (map f t) = option_map f (find (name_is n) t).
Proof.
  intros Hf; induction t as [|x rest IH]; simpl; [reflexivity|].
  unfold name_is at 1 3. rewrite Hf.
  destruct (jsstring_eqb (col_name x) n); [reflexivity | exact IH].
Qed.

(** X4.  [saveMoosePng] then [getMoosePng]: when a row has the name as it
    is bound, the stored buffer comes back; when none has, nothing is
    stored, the store is unchanged and [getMoosePng] answers [undefined].
    The png of every name that is bound to another text, and what
    [getMooseByName] returns for any name, stay as they were. *)
Theorem saveMoosePng_then_getMoosePng (n : jsstring) (png : Buffer) (db : Store) :
  (In (bind_text n) (names db) ->
   getMoosePng n (saveMoosePng n png db) = Val png)
  /\ (~ In (bind_text n) (names db) ->
      saveMoosePng n png db = db
      /\ getMoosePng n (saveMoosePng n png db) = Undefined)
  /\ (forall n', bind_text n' <> bind_text n ->
        getMoosePng n' (saveMoosePng n png db) = getMoosePng n' db)
  /\ (forall n',
        getMooseByName n' (saveMoosePng n png db) = getMooseByName n' db).
Proof.
  set (f := fun r => if has_name n r then with_png (Some png) r else r).
  assert (Hf : forall r, col_name (f r) = col_name r)
    by (intros r; unfold f; destruct (has_name n r); reflexivity).
  assert (Hfind : forall n',
            find (has_name n') (Moose_table (saveMoosePng n png db))
            = option_map f (find (has_name n') (Moose_table db)))
    by (intros n'; apply (find_map_same_name (bind_text n') f _ Hf)).
  refine (conj _ (conj _ (conj _ _))).
  - intros Hin. unfold getMoosePng, getMoosePngStmt_get_png. rewrite Hfind.
    destruct (find (has_name n) (Moose_table db)) as [r|] eqn:Hr.
    + simpl. unfold f. apply find_some in Hr as [_ Hr]. rewrite Hr.
      reflexivity.
    + exfalso. apply existsb_name_is in Hin.
      apply existsb_exists in Hin as [r [Hr1 Hr2]].
      apply (find_none _ _ Hr) in Hr1. unfold has_name in Hr1. congruence.
  - intros Hin. split.
    + unfold saveMoosePng, saveMoosePngStmt_run. destruct db as [t idx].
      simpl in *. f_equal.
      rewrite <- (map_id t) at 2. apply map_ext_in. intros r Hr.
      destruct (has_name n r) eqn:E; [|reflexivity].
      exfalso. apply Hin. apply name_is_true in E. rewrite <- E.
      apply in_map, Hr.
    + unfold getMoosePng, getMoosePngStmt_get_png. rewrite Hfind.
      unfold has_name. rewrite (find_name_is_none _ _ Hin). reflexivity.
  - intros n' Hne. unfold getMoosePng, getMoosePngStmt_get_png.
    rewrite Hfind.
    destruct (find (has_name n') (Moose_table db)) as [r|] eqn:Hr;
      [|reflexivity].
    simpl. unfold f. apply find_name_is in Hr as [Hr _].
    replace (has_name n r) with false; [reflexivity|].
    symmetry. apply jsstring_eqb_neq. congruence.
  - intros n'. unfold getMooseByName, getMooseByNameStmt_get. rewrite Hfind.
    destruct (find (has_name n') (Moose_table db)) as [r|]; [|reflexivity].
    simpl. unfold f. destruct (has_name n r); reflexivity.
Qed.

(** [saveMoosePng_then_getMoosePng] at the store holding A and B. *)
Lemma saveMoosePng_then_getMoosePng_witness :
  getMoosePng (str "A") (saveMoosePng (str "A") [137; 80]%N store_A_B)
  = Val [137; 80]%N
  /\ saveMoosePng (str "C") [137; 80]%N store_A_B = store_A_B.
Proof.
  destruct (saveMoosePng_then_getMoosePng (str "A") [137; 80]%N store_A_B)
    as [Hin _].
  destruct (saveMoosePng_then_getMoosePng (str "C") [137; 80]%N store_A_B)
    as (_ & Hout & _).
  split.
  - apply Hin. left; reflexivity.
  - apply Hout. vm_compute. intros [H|[H|[]]]; discriminate H.
Defined.

(* ================================================================== *)
(** * The order of the numbers *)

Lemma num_scaled_shift (x : number) (E e0 : Z) :
  E <= e0 -> e0 <= num_exponent x ->
  num_scaled x E = num_scaled x e0 * 2 ^ (e0 - E).
Proof.
  intros H1 H2.
  destruct x as [s|s| |s m e]; unfold num_scaled, num_exponent in *;
    try reflexivity.
  replace (e - E) with ((e - e0) + (e0 - E)) by lia.
  rewrite Z.pow_add_r by lia.
  destruct s; cbv zeta; ring.
Qed.

Lemma compare_scaled (x y : number) (E e0 : Z) :
  E <= e0 -> e0 <= num_exponent x -> e0 <= num_exponent y ->
  Z.compare (num_scaled x e0) (num_scaled y e0)
  = Z.compare (num_scaled x E) (num_scaled y E).
Proof.
  intros H Hx Hy.
  rewrite (num_scaled_shift x E e0 H Hx), (num_scaled_shift y E e0 H Hy).
  apply Zmult_compare_compat_r.
  apply Z.lt_gt, Z.pow_pos_nonneg; lia.
Qed.

(** [num_compare] is the comparison of the keys, at any common unit. *)
Lemma num_compare_key (E : Z) (x y : number) :
  E <= num_exponent x -> E <= num_exponent y ->
  num_compare x y = key_compare (num_key E x) (num_key E y).
Proof.
  intros Hx Hy.
  assert (Hfin : Z.compare
                   (num_scaled x (Z.min (num_exponent x) (num_exponent y)))
                   (num_scaled y (Z.min (num_exponent x) (num_exponent y)))
                 = Z.compare (num_scaled x E) (num_scaled y E))
    by (apply compare_scaled; lia).
  destruct x as [sx|sx| |sx mx ex], y as [sy|sy| |sy my ey];
    try (exact Hfin);
    try (destruct sx; reflexivity);
    try (destruct sy; reflexivity);
    try reflexivity.
  destruct sx, sy; reflexivity.
Qed.

Lemma key_compare_le (a b : Z * Z) :
  key_compare a b <> Gt
  <-> fst a < fst b \/ (fst a = fst b /\ snd a <= snd b).
Proof.
  unfold key_compare.
  destruct (Z.compare_spec (fst a) (fst b)) as [E|L|G].
  - unfold Z.le. split; [intros H; right; auto | intros [H|[_ H]]; [lia|auto]].
  - split; [intros _; left; exact L | discriminate].
  - split; [congruence | intros [H|[H _]]; lia].
Qed.

Lemma num_compare_refl (x : number) : num_compare x x = Eq.
Proof.
  rewrite (num_compare_key (num_exponent x)) by lia.
  unfold key_compare. rewrite !Z.compare_refl. reflexivity.
Qed.

Lemma num_compare_antisym (x y : number) :
  num_compare y x = CompOpp (num_compare x y).
Proof.
  set (E := Z.min (num_exponent x) (num_exponent y)).
  rewrite !(num_compare_key E) by (subst E; lia).
  unfold key_compare.
  rewrite (Z.compare_antisym (fst (num_key E x)) (fst (num_key E y))).
  rewrite (Z.compare_antisym (snd (num_key E x)) (snd (num_key E y))).
  destruct (fst (num_key E x) ?= fst (num_key E y)); reflexivity.
Qed.

Lemma num_le_refl (x : number) : num_le x x.
Proof. unfold num_le. rewrite num_compare_refl. discriminate. Qed.

Lemma num_le_trans (x y z : number) : num_le x y -> num_le y z -> num_le x z.
Proof.
  unfold num_le.
  set (E := Z.min (num_exponent x) (Z.min (num_exponent y) (num_exponent z))).
  rewrite !(num_compare_key E) by (subst E; lia).
  rewrite !key_compare_le. lia.
Qed.

Lemma num_le_total (x y : number) : num_le x y \/ num_le y x.
Proof.
  unfold num_le. rewrite (num_compare_antisym x y).
  destruct (num_compare x y); simpl; [left | left | right]; discriminate.
Qed.

Lemma num_compare_Lt_le (x y : number) : num_compare x y = Lt -> num_le x y.
Proof. unfold num_le; congruence. Qed.

Lemma num_compare_Eq_le (x y : number) :
  num_compare x y = Eq -> num_le x y /\ num_le y x.
Proof.
  intros H. unfold num_le. rewrite (num_compare_antisym x y), H.
  split; discriminate.
Qed.

Lemma num_compare_notLt_le (x y : number) :
  num_compare x y <> Lt -> num_le y x.
Proof.
  intros H. unfold num_le. rewrite (num_compare_antisym x y).
  destruct (num_compare x y); simpl; congruence.
Qed.

(* ================================================================== *)
(** * The newest and the oldest record *)

Lemma max_created_spec t m :
  max_created t = Some m ->
  (exists r, In r t /\ col_created r = m)
  /\ (forall r, In r t -> num_le (col_created r) m).
Proof.
  revert m; induction t as [|x rest IH]; intros m H; [discriminate|].
  simpl in H. destruct (max_created rest) as [m'|] eqn:Hm.
  - destruct (IH m' eq_refl) as [[r0 [Hin0 Hr0]] Hle].
    destruct (num_compare (col_created x) m') eqn:Hc; injection H as <-.
    + split; [exists x; split; [left|]; reflexivity|].
      intros r [<-|Hr]; [apply num_le_refl|].
      eapply num_le_trans; [apply Hle, Hr|].
      apply (num_compare_Eq_le _ _ Hc).
    + split; [exists r0; split; [right|]; assumption|].
      intros r [<-|Hr]; [apply num_compare_Lt_le, Hc | apply Hle, Hr].
    + split; [exists x; split; [left|]; reflexivity|].
      intros r [<-|Hr]; [apply num_le_refl|].
      eapply num_le_trans; [apply Hle, Hr|].
      apply num_compare_notLt_le. congruence.
  - injection H as <-. destruct rest as [|y rest'].
    + split; [exists x; split; [left|]; reflexivity|].
      intros r [<-|[]]. apply num_le_refl.
    + simpl in Hm. destruct (max_created rest'); discriminate.
Qed.

Lemma min_created_spec t m :
  min_created t = Some m ->
  (exists r, In r t /\ col_created r = m)
  /\ (forall r, In r t -> num_le m (col_created r)).
Proof.
  revert m; induction t as [|x rest IH]; intros m H; [discriminate|].
  simpl in H. destruct (min_created rest) as [m'|] eqn:Hm.
  - destruct (IH m' eq_refl) as [[r0 [Hin0 Hr0]] Hle].
    destruct (num_compare (col_created x) m') eqn:Hc; injection H as <-.
    + split; [exists x; split; [left|]; reflexivity|].
      intros r [<-|Hr]; [apply num_le_refl|].
      eapply num_le_trans; [|apply Hle, Hr].
      apply (num_compare_Eq_le _ _ Hc).
    + split; [exists x; split; [left|]; reflexivity|].
      intros r [<-|Hr]; [apply num_le_refl|].
      eapply num_le_trans; [|apply Hle, Hr].
      apply num_compare_Lt_le, Hc.
    + split; [exists r0; split; [right|]; assumption|].
      intros r [<-|Hr]; [|apply Hle, Hr].
      apply num_compare_notLt_le. congruence.
  - injection H as <-. destruct rest as [|y rest'].
    + split; [exists x; split; [left|]; reflexivity|].
      intros r [<-|[]]. apply num_le_refl.
    + simpl in Hm. destruct (min_created rest'); discriminate.
Qed.

Lemma max_created_nonempty t : t <> [] -> exists m, max_created t = Some m.
Proof.
  destruct t as [|x rest]; [congruence|]. intros _. simpl.
  destruct (max_created rest); eexists; reflexivity.
Qed.

Lemma min_created_nonempty t : t <> [] -> exists m, min_created t = Some m.
Proof.
  destruct t as [|x rest]; [congruence|]. intros _. simpl.
  destruct (min_created rest); eexists; reflexivity.
Qed.

(** A row whose [created] is [m] exists, so the statement finds one. *)
Lemma find_created_is t m :
  (exists r, In r t /\ col_created r = m) ->
  exists r, find (created_is m) t = Some r /\ In r t
            /\ num_le (col_created r) m /\ num_le m (col_created r).
Proof.
  intros [r0 [Hin0 Hr0]].
  destruct (find (created_is m) t) as [r|] eqn:Hf.
  - exists r. apply find_some in Hf as [Hin Hc]. unfold created_is in Hc.
    destruct (num_compare (col_created r) m) eqn:E; try discriminate.
    destruct (num_compare_Eq_le _ _ E). auto.
  - exfalso. apply (find_none _ _ Hf) in Hin0. unfold created_is in Hin0.
    rewrite Hr0, num_compare_refl in Hin0. discriminate.
Qed.

(** X5.  [getLatestMoose] and [getOldestMoose] return nothing on an empty
    store.  On any other store each returns the decoded form of a row of
    the table: for the latest no row has a later [created], for the oldest
    no row has an earlier one. *)
Theorem getLatestMoose_getOldestMoose (db : Store) :
  (Moose_table db = [] -> getLatestMoose db = None /\ getOldestMoose db = None)
  /\ (Moose_table db <> [] ->
      (exists r m,
         In r (Moose_table db) /\ decodes_to r m
         /\ getLatestMoose db = Some m
         /\ forall r', In r' (Moose_table db) ->
                       num_le (col_created r') (col_created r))
      /\ (exists r m,
            In r (Moose_table db) /\ decodes_to r m
            /\ getOldestMoose db = Some m
            /\ forall r', In r' (Moose_table db) ->
                          num_le (col_created r) (col_created r'))).
Proof.
  unfold getLatestMoose, getOldestMoose, getLatestMooseStmt_get,
    getOldestMooseStmt_get.
  split.
  - intros ->. split; reflexivity.
  - intros Hne. split.
    + destruct (max_created_nonempty _ Hne) as [m Hm]. rewrite Hm.
      destruct (max_created_spec _ _ Hm) as [Hex Hle].
      destruct (find_created_is _ _ Hex) as (r & -> & Hin & _ & Hmr).
      exists r. eexists. refine (conj Hin (conj eq_refl (conj eq_refl _))).
      intros r' Hr'. eapply num_le_trans; [apply Hle, Hr' | exact Hmr].
    + destruct (min_created_nonempty _ Hne) as [m Hm]. rewrite Hm.
      destruct (min_created_spec _ _ Hm) as [Hex Hle].
      destruct (find_created_is _ _ Hex) as (r & -> & Hin & Hrm & _).
      exists r. eexists. refine (conj Hin (conj eq_refl (conj eq_refl _))).
      intros r' Hr'. eapply num_le_trans; [exact Hrm | apply Hle, Hr'].
Qed.

(** [getLatestMoose_getOldestMoose] at the store holding A (created 100)
    and B (created 200), and at the empty store. *)
Lemma getLatestMoose_getOldestMoose_witness :
  getLatestMoose empty_store = None
  /\ (exists r m, In r (Moose_table store_A_B) /\ decodes_to r m
                  /\ getLatestMoose store_A_B = Some m
                  /\ forall r', In r' (Moose_table store_A_B) ->
                                num_le (col_created r') (col_created r)).
Proof.
  split.
  - apply (proj1 (getLatestMoose_getOldestMoose empty_store)). reflexivity.
  - apply (proj2 (getLatestMoose_getOldestMoose store_A_B)). discriminate.
Defined.

(* ================================================================== *)
(** * Gallery pages *)

Lemma ordered_trans order a b c :
  ordered order a b -> ordered order b c -> ordered order a c.
Proof.
  destruct order; simpl; intros H1 H2; eapply num_le_trans; eassumption.
Qed.

Lemma created_before_ordered order a b :
  created_before order a b = true -> ordered order a b.
Proof.
  unfold created_before.
  destruct order, (num_compare (col_created a) (col_created b)) eqn:E;
    try discriminate; intros _; simpl.
  - apply num_compare_Lt_le, E.
  - apply num_compare_notLt_le. congruence.
Qed.

Lemma not_created_before_ordered order a b :
  created_before order a b = false -> ordered order b a.
Proof.
  unfold created_before.
  destruct order, (num_compare (col_created a) (col_created b)) eqn:E;
    try discriminate; intros _; simpl;
    try (apply (num_compare_Eq_le _ _ E));
    try (apply num_compare_notLt_le; congruence);
    try (apply num_compare_Lt_le, E).
Qed.

Lemma order_insert_perm order r sorted :
  Permutation (order_insert order r sorted) (r :: sorted).
Proof.
  induction sorted as [|x rest IH]; simpl; [reflexivity|].
  destruct (created_before order x r || negb (created_before order r x));
    [|reflexivity].
  rewrite IH. apply perm_swap.
Qed.

Lemma order_insert_in_order order r sorted :
  in_order order sorted -> in_order order (order_insert order r sorted).
Proof.
  unfold in_order.
  induction sorted as [|x rest IH]; intros Hs; simpl.
  - constructor; constructor.
  - apply StronglySorted_inv in Hs as [Hrest Hx].
    destruct (created_before order x r || negb (created_before order r x))
      eqn:Hc.
    + constructor; [apply IH, Hrest|].
      assert (Hxr : ordered order x r).
      { apply orb_true_iff in Hc as [Hc|Hc].
        - apply created_before_ordered, Hc.
        - apply not_created_before_ordered. apply negb_true_iff, Hc. }
      apply Forall_forall. intros y Hy.
      apply (Permutation_in _ (order_insert_perm order r rest)) in Hy.
      destruct Hy as [<-|Hy]; [exact Hxr|].
      apply (proj1 (Forall_forall _ _) Hx y Hy).
    + apply orb_false_iff in Hc as [_ Hc]. apply negb_false_iff in Hc.
      apply created_before_ordered in Hc.
      constructor; [constructor; assumption|].
      constructor; [exact Hc|].
      apply Forall_forall. intros y Hy.
      eapply ordered_trans; [exact Hc|].
      apply (proj1 (Forall_forall _ _) Hx y Hy).
Qed.

Lemma order_by_created_spec order rows :
  Permutation (order_by_created order rows) rows
  /\ in_order order (order_by_created order rows).
Proof.
  unfold order_by_created.
  assert (H : forall acc,
            in_order order acc ->
            Permutation
              (fold_left (fun sorted r => order_insert order r sorted) rows acc)
              (rows ++ acc)
            /\ in_order order
                 (fold_left (fun sorted r => order_insert order r sorted)
                    rows acc)).
  { induction rows as [|r rest IH]; intros acc Hacc; simpl.
    - split; [reflexivity | exact Hacc].
    - destruct (IH (order_insert order r acc)
                  (order_insert_in_order order r acc Hacc)) as [Hp Hs].
      split; [|exact Hs].
      rewrite Hp. rewrite order_insert_perm.
      symmetry. apply Permutation_middle. }
  destruct (H [] (SSorted_nil _)) as [Hp Hs].
  rewrite app_nil_r in Hp. split; assumption.
Qed.

Lemma StronglySorted_skipn {A : Type} (R : A -> A -> Prop) n l :
  StronglySorted R l -> StronglySorted R (skipn n l).
Proof.
  revert l; induction n as [|n IH]; intros l H; [exact H|].
  destruct l as [|x l]; [exact H|].
  simpl. apply IH. apply StronglySorted_inv in H. tauto.
Qed.

Lemma StronglySorted_firstn {A : Type} (R : A -> A -> Prop) n l :
  StronglySorted R l -> StronglySorted R (firstn n l).
Proof.
  revert l; induction n as [|n IH]; intros l H; [constructor|].
  destruct l as [|x l]; [constructor|].
  apply StronglySorted_inv in H as [Hl Hx]. simpl.
  constructor; [apply IH, Hl|].
  apply Forall_forall. intros y Hy.
  apply (proj1 (Forall_forall _ _) Hx).
  rewrite <- (firstn_skipn n l). apply in_or_app. left; exact Hy.
Qed.

Lemma sql_limit_in_order order offset limit rows :
  in_order order rows -> in_order order (sql_limit offset limit rows).
Proof.
  unfold in_order, sql_limit. intros H.
  destruct (limit <? 0).
  - apply StronglySorted_skipn, H.
  - apply StronglySorted_firstn, StronglySorted_skipn, H.
Qed.

(** The integer a number denotes is what LIMIT reads. *)
Lemma num_trunc_denotes x z : denotes_integer x z -> num_trunc x = Some z.
Proof.
  destruct x as [s|s| |s m e]; unfold denotes_integer, num_trunc; cbv zeta;
    try contradiction.
  - intros ->; reflexivity.
  - destruct (0 <=? e) eqn:He.
    + intros ->. f_equal. destruct s; [|reflexivity].
      rewrite <- Pos2Z.opp_pos. ring.
    + apply Z.leb_gt in He. intros Hz. f_equal.
      assert (Hd : 0 < 2 ^ (- e)) by (apply Z.pow_pos_nonneg; lia).
      destruct s.
      * assert (Hm : Z.pos m = (- z) * 2 ^ (- e))
          by (rewrite <- Pos2Z.opp_pos in Hz;
              rewrite <- (Z.opp_involutive (Z.pos m)), Hz; ring).
        rewrite Hm, Z.div_mul by lia. ring.
      * rewrite Hz, Z.div_mul by lia. reflexivity.
Qed.

Lemma denotes_integer_guard x z :
  denotes_integer x z ->
  Number_isInteger x = true /\ no_such_column x = None.
Proof.
  intros H.
  assert (Hn : notInt x = false) by (apply notInt_false_iff; exists z; exact H).
  unfold notInt in Hn. apply orb_false_iff in Hn as [_ Hn].
  apply negb_false_iff in Hn. split; [exact Hn|].
  destruct x; try reflexivity; destruct H.
Qed.

Lemma decode_rows rows :
  Forall2 decodes_to rows (map_rowToMoose rows).
Proof.
  unfold map_rowToMoose.
  induction rows as [|r rest IH]; [constructor|].
  cbn [flat_map rowToMoose app]. constructor; [reflexivity | exact IH].
Qed.

Lemma StronglySorted_app {A : Type} (R : A -> A -> Prop) l1 l2 :
  StronglySorted R l1 -> StronglySorted R l2 ->
  (forall a b, In a l1 -> In b l2 -> R a b) ->
  StronglySorted R (l1 ++ l2).
Proof.
  induction l1 as [|x l1 IH]; intros H1 H2 H12; [exact H2|].
  apply StronglySorted_inv in H1 as [H1 Hx]. simpl.
  constructor.
  - apply IH; [exact H1 | exact H2|].
    intros a b Ha Hb. apply H12; [right; exact Ha | exact Hb].
  - apply Forall_app. split; [exact Hx|].
    apply Forall_forall. intros b Hb. apply H12; [left; reflexivity | exact Hb].
Qed.

Lemma StronglySorted_rev {A : Type} (R : A -> A -> Prop) l :
  StronglySorted R l -> StronglySorted (fun a b => R b a) (rev l).
Proof.
  induction l as [|x l IH]; intros H; [constructor|].
  apply StronglySorted_inv in H as [Hl Hx]. simpl.
  apply StronglySorted_app.
  - apply IH, Hl.
  - repeat constructor.
  - intros a b Ha [<-|[]]. apply in_rev in Ha.
    apply (proj1 (Forall_forall _ _) Hx a Ha).
Qed.

(** The scan of the index puts the whole table in the order asked for. *)
Lemma Moose_CreatedIdx_scan_spec order t :
  Permutation (Moose_CreatedIdx_scan order t) t
  /\ in_order order (Moose_CreatedIdx_scan order t).
Proof.
  destruct (order_by_created_spec ASC t) as [Hp Hs].
  destruct order; cbn [Moose_CreatedIdx_scan]; [split; assumption|].
  split.
  - rewrite <- Hp at 2. symmetry. apply Permutation_rev.
  - apply (StronglySorted_rev _ _ Hs).
Qed.

(** ** Rows with equal created *)

Lemma num_compare_Lt_trans (x y z : number) :
  num_compare x y = Lt -> num_compare y z <> Gt -> num_compare x z = Lt.
Proof.
  intros Hxy Hyz.
  destruct (num_compare x z) eqn:E; [| reflexivity |]; exfalso.
  - destruct (num_compare_Eq_le x z E) as [_ Hzx].
    pose proof (num_le_trans y z x Hyz Hzx) as Hyx. apply Hyx.
    rewrite (num_compare_antisym x y), Hxy. reflexivity.
  - assert (Hzx : num_le z x)
      by (unfold num_le; rewrite (num_compare_antisym x z), E; discriminate).
    pose proof (num_le_trans y z x Hyz Hzx) as Hyx. apply Hyx.
    rewrite (num_compare_antisym x y), Hxy. reflexivity.
Qed.

Lemma index_before_created order a b :
  index_before order a b -> ordered order a b.
Proof.
  unfold index_before, ordered, num_le.
  rewrite (num_compare_antisym (col_created a) (col_created b)).
  destruct order, (num_compare (col_created a) (col_created b)); simpl;
    intros H; try discriminate H; discriminate.
Qed.

Lemma order_insert_index_order r sorted :
  index_order ASC sorted ->
  (forall x, In x sorted -> rowid x < rowid r) ->
  index_order ASC (order_insert ASC r sorted).
Proof.
  unfold index_order.
  induction sorted as [|x rest IH]; intros Hs Hid; simpl.
  - repeat constructor.
  - apply StronglySorted_inv in Hs as [Hrest Hx].
    unfold created_before.
    rewrite (num_compare_antisym (col_created x) (col_created r)).
    destruct (num_compare (col_created x) (col_created r)) eqn:E; simpl.
    + constructor; [apply IH; [exact Hrest | intros y Hy; apply Hid; right; exact Hy]|].
      apply Forall_forall. intros y Hy.
      apply (Permutation_in _ (order_insert_perm ASC r rest)) in Hy.
      destruct Hy as [<-|Hy]; [|apply (proj1 (Forall_forall _ _) Hx y Hy)].
      unfold index_before. rewrite E. apply Hid. left; reflexivity.
    + constructor; [apply IH; [exact Hrest | intros y Hy; apply Hid; right; exact Hy]|].
      apply Forall_forall. intros y Hy.
      apply (Permutation_in _ (order_insert_perm ASC r rest)) in Hy.
      destruct Hy as [<-|Hy]; [|apply (proj1 (Forall_forall _ _) Hx y Hy)].
      unfold index_before. rewrite E. reflexivity.
    + assert (Hrx : num_compare (col_created r) (col_created x) = Lt)
        by (rewrite (num_compare_antisym (col_created x) (col_created r)), E;
            reflexivity).
      constructor; [constructor; assumption|].
      constructor; [unfold index_before; rewrite Hrx; reflexivity|].
      apply Forall_forall. intros y Hy.
      pose proof (proj1 (Forall_forall _ _) Hx y Hy) as Hxy.
      unfold index_before.
      rewrite (num_compare_Lt_trans _ _ _ Hrx); [reflexivity|].
      apply (index_before_created ASC x y Hxy).
Qed.

Lemma order_by_created_index_order t :
  rowid_order t -> index_order ASC (order_by_created ASC t).
Proof.
  unfold order_by_created.
  assert (H : forall rows acc,
            index_order ASC acc -> rowid_order rows ->
            (forall a b, In a acc -> In b rows -> rowid a < rowid b) ->
            index_order ASC
              (fold_left (fun sorted r => order_insert ASC r sorted) rows acc)).
  { induction rows as [|r rest IH]; intros acc Hacc Hrows Hid; [exact Hacc|].
    apply StronglySorted_inv in Hrows as [Hrest Hr].
    cbn [fold_left]. apply IH.
    - apply order_insert_index_order; [exact Hacc|].
      intros x Hx. apply Hid; [exact Hx | left; reflexivity].
    - exact Hrest.
    - intros a b Ha Hb.
      apply (Permutation_in _ (order_insert_perm ASC r acc)) in Ha.
      destruct Ha as [<-|Ha].
      + apply (proj1 (Forall_forall _ _) Hr b Hb).
      + apply Hid; [exact Ha | right; exact Hb]. }
  intros Ht. apply H; [constructor | exact Ht | intros a b []].
Qed.

Lemma StronglySorted_impl {A : Type} (R R' : A -> A -> Prop) l :
  (forall a b, R a b -> R' a b) -> StronglySorted R l -> StronglySorted R' l.
Proof.
  intros Himp. induction 1 as [|x l Hl IH Hx]; constructor; [exact IH|].
  eapply Forall_impl; [|exact Hx]. intros b. apply Himp.
Qed.

Lemma Moose_CreatedIdx_scan_index_order order t :
  rowid_order t -> index_order order (Moose_CreatedIdx_scan order t).
Proof.
  intros Ht. pose proof (order_by_created_index_order t Ht) as Hs.
  destruct order; cbn [Moose_CreatedIdx_scan]; [exact Hs|].
  unfold index_order in *.
  apply (StronglySorted_impl (fun a b => index_before ASC b a)).
  - intros a b. unfold index_before.
    rewrite (num_compare_antisym (col_created b) (col_created a)).
    destruct (num_compare (col_created b) (col_created a)); simpl;
      intros H; try discriminate H; auto.
  - apply StronglySorted_rev, Hs.
Qed.

Section GalleryPages.

Variable decimal_text : number -> Z.
Variable fts5_satisfies : list fts5_token -> jsstring -> bool.
Variable join_order :
  sort_order -> list fts5_token -> Store -> list MooseRec -> list MooseRec.

(** Below 2^53 LIMIT reads the integer a number denotes; from 2^63 on the
    text is no integer of 64 bits. *)
Lemma limit_operand_denotes x z :
  denotes_integer x z -> Z.abs z < 2 ^ 53 ->
  limit_operand decimal_text x = Ok z.
Proof.
  intros Hx Hz. unfold limit_operand.
  rewrite (proj1 (denotes_integer_guard x z Hx)), (num_trunc_denotes x z Hx).
  replace (Z.abs z <? 2 ^ 53) with true; [reflexivity|].
  symmetry. apply Z.ltb_lt, Hz.
Qed.

Lemma limit_operand_too_large x z :
  denotes_integer x z -> 2 ^ 63 <= Z.abs z ->
  limit_operand decimal_text x = Throw datatype_mismatch.
Proof.
  intros Hx Hz. unfold limit_operand.
  rewrite (proj1 (denotes_integer_guard x z Hx)), (num_trunc_denotes x z Hx).
  assert (Hb : 2 ^ 53 < 2 ^ 63) by reflexivity.
  replace (Z.abs z <? 2 ^ 53) with false by (symmetry; apply Z.ltb_ge; lia).
  replace (Z.abs z <? 2 ^ 63) with false by (symmetry; apply Z.ltb_ge; lia).
  reflexivity.
Qed.

Lemma limit_operand_Throw x e :
  limit_operand decimal_text x = Throw e -> e = datatype_mismatch.
Proof.
  unfold limit_operand.
  destruct (Number_isInteger x); [|intros [= <-]; reflexivity].
  destruct (num_trunc x) as [z|]; [|intros [= <-]; reflexivity].
  destruct (Z.abs z <? 2 ^ 53); [discriminate|].
  destruct (Z.abs z <? 2 ^ 63); [discriminate|].
  intros [= <-]; reflexivity.
Qed.

Lemma limit_operands_denote offset limit off lim :
  denotes_integer offset off -> denotes_integer limit lim ->
  Z.abs off < 2 ^ 53 -> Z.abs lim < 2 ^ 53 ->
  limit_operands decimal_text offset limit = Ok (off, lim).
Proof.
  intros Ho Hl Hob Hlb. unfold limit_operands.
  rewrite (proj2 (denotes_integer_guard offset off Ho)),
    (proj2 (denotes_integer_guard limit lim Hl)).
  rewrite (limit_operand_denotes offset off Ho Hob),
    (limit_operand_denotes limit lim Hl Hlb).
  reflexivity.
Qed.

Lemma limit_operands_too_large offset limit off lim :
  denotes_integer offset off -> denotes_integer limit lim ->
  2 ^ 63 <= Z.abs off \/ 2 ^ 63 <= Z.abs lim ->
  limit_operands decimal_text offset limit = Throw datatype_mismatch.
Proof.
  intros Ho Hl Hbig. unfold limit_operands.
  rewrite (proj2 (denotes_integer_guard offset off Ho)),
    (proj2 (denotes_integer_guard limit lim Hl)).
  destruct Hbig as [Hbig | Hbig].
  - rewrite (limit_operand_too_large offset off Ho Hbig). reflexivity.
  - rewrite (limit_operand_too_large limit lim Hl Hbig).
    destruct (limit_operand decimal_text offset) as [o|e] eqn:E;
      [reflexivity|].
    rewrite (limit_operand_Throw _ _ E). reflexivity.
Qed.

Lemma limit_operand_fits x z :
  denotes_integer x z -> Z.abs z < 2 ^ 63 ->
  exists z',
    limit_operand decimal_text x = Ok z' /\ (Z.abs z < 2 ^ 53 -> z' = z).
Proof.
  intros Hx Hz. unfold limit_operand.
  rewrite (proj1 (denotes_integer_guard x z Hx)), (num_trunc_denotes x z Hx).
  destruct (Z.abs z <? 2 ^ 53) eqn:E.
  - exists z. auto.
  - apply Z.ltb_ge in E.
    replace (Z.abs z <? 2 ^ 63) with true by (symmetry; apply Z.ltb_lt, Hz).
    exists (decimal_text x). split; [reflexivity | lia].
Qed.

Lemma limit_operands_fit offset limit off lim :
  denotes_integer offset off -> denotes_integer limit lim ->
  Z.abs off < 2 ^ 63 -> Z.abs lim < 2 ^ 63 ->
  exists off' lim',
    limit_operands decimal_text offset limit = Ok (off', lim')
    /\ (Z.abs off < 2 ^ 53 -> off' = off)
    /\ (Z.abs lim < 2 ^ 53 -> lim' = lim).
Proof.
  intros Ho Hl Hob Hlb. unfold limit_operands.
  rewrite (proj2 (denotes_integer_guard offset off Ho)),
    (proj2 (denotes_integer_guard limit lim Hl)).
  destruct (limit_operand_fits offset off Ho Hob) as (off' & -> & Hoff).
  destruct (limit_operand_fits limit lim Hl Hlb) as (lim' & -> & Hlim).
  exists off', lim'. auto.
Qed.

(** X6.  With an empty query and an [offset] and a [limit] that denote
    integers.  When both are below 2^63 in magnitude, [getGalleryPage]
    returns normally: the page is the decoded slice LIMIT [offset'],
    [limit'] of the whole table put in the order of [created], descending
    unless [order] is the word oldest, where [offset'] and [limit'] are the
    integers the statement spells, [offset] and [limit] themselves when
    these are below 2^53 in magnitude; the page holds at most [limit']
    records when [limit'] is not negative; and in a table whose rows stand
    in the order of their rowids (every reachable one,
    [reachable_rowid_order]), rows with equal [created] follow one another
    by ascending rowid for oldest and by descending rowid otherwise.  When
    one of the two reaches 2^63 in magnitude, the call throws the datatype
    mismatch of SQLite. *)
Theorem getGalleryPage_sorted_slice
  (offset limit : number) (off lim : Z) (order : jsstring) (db : Store) :
  denotes_integer offset off -> denotes_integer limit lim ->
  let direction := if jsstring_eqb order (str "oldest") then ASC else DESC in
  let result :=
    snd (getGalleryPage decimal_text fts5_satisfies join_order
           [] offset limit order db) in
  (Z.abs off < 2 ^ 63 -> Z.abs lim < 2 ^ 63 ->
   exists off' lim' sorted page,
     result = Ok page
     /\ (Z.abs off < 2 ^ 53 -> off' = off)
     /\ (Z.abs lim < 2 ^ 53 -> lim' = lim)
     /\ Permutation sorted (Moose_table db)
     /\ in_order direction sorted
     /\ (rowid_order (Moose_table db) -> index_order direction sorted)
     /\ in_order direction (sql_limit off' lim' sorted)
     /\ Forall2 decodes_to (sql_limit off' lim' sorted) page
     /\ (0 <= lim' -> (List.length page <= Z.to_nat lim')%nat))
  /\ (2 ^ 63 <= Z.abs off \/ 2 ^ 63 <= Z.abs lim ->
      result = Throw datatype_mismatch).
Proof.
  intros Ho Hl direction result. subst result.
  unfold getGalleryPage. fold direction.
  rewrite (proj2 (notInt_false_iff offset) (ex_intro _ off Ho)).
  rewrite (proj2 (notInt_false_iff limit) (ex_intro _ lim Hl)).
  cbn [orb negb jsstring_eqb snd].
  split.
  - intros Hob Hlb.
    destruct (limit_operands_fit offset limit off lim Ho Hl Hob Hlb)
      as (off' & lim' & -> & Hoff & Hlim).
    destruct (Moose_CreatedIdx_scan_spec direction (Moose_table db)) as [Hp Hs].
    exists off', lim', (Moose_CreatedIdx_scan direction (Moose_table db)).
    eexists.
    refine (conj eq_refl (conj Hoff (conj Hlim (conj Hp (conj Hs
              (conj _ (conj _ (conj _ _)))))))).
    + apply Moose_CreatedIdx_scan_index_order.
    + apply sql_limit_in_order, Hs.
    + apply decode_rows.
    + intros Hpos. rewrite <- (Forall2_length (decode_rows _)).
      unfold sql_limit.
      replace (lim' <? 0) with false by (symmetry; apply Z.ltb_ge; lia).
      rewrite length_firstn. lia.
  - intros Hbig.
    rewrite (limit_operands_too_large offset limit off lim Ho Hl Hbig).
    reflexivity.
Qed.

Lemma firstn_add {A : Type} (a b : nat) (l : list A) :
  firstn (a + b) l = firstn a l ++ firstn b (skipn a l).
Proof.
  revert l; induction a as [|a IH]; intros l; [reflexivity|].
  destruct l as [|x l]; simpl.
  - rewrite firstn_nil. reflexivity.
  - rewrite IH. reflexivity.
Qed.

Lemma sql_limit_append {A : Type} (off l1 l2 : Z) (rows : list A) :
  0 <= off -> 0 <= l1 -> 0 <= l2 ->
  sql_limit off (l1 + l2) rows
  = sql_limit off l1 rows ++ sql_limit (off + l1) l2 rows.
Proof.
  intros H0 H1 H2. unfold sql_limit.
  replace (l1 + l2 <? 0) with false by (symmetry; apply Z.ltb_ge; lia).
  replace (l1 <? 0) with false by (symmetry; apply Z.ltb_ge; lia).
  replace (l2 <? 0) with false by (symmetry; apply Z.ltb_ge; lia).
  rewrite !Z2Nat.inj_add by lia.
  rewrite firstn_add, skipn_skipn.
  rewrite (Nat.add_comm (Z.to_nat l1)). reflexivity.
Qed.

Lemma notInt_num_of_Z z : notInt (num_of_Z z) = false.
Proof. apply notInt_false_iff. exists z. apply num_of_Z_denotes. Qed.

Lemma limit_operands_num_of_Z (off lim : Z) :
  Z.abs off < 2 ^ 53 -> Z.abs lim < 2 ^ 53 ->
  limit_operands decimal_text (num_of_Z off) (num_of_Z lim) = Ok (off, lim).
Proof.
  intros Ho Hl.
  apply limit_operands_denote; try apply num_of_Z_denotes; assumption.
Qed.

(** X7.  Pages compose.  For a fixed store, query and order, and
    non-negative integers [off], [l1], [l2] (exact as numbers, their sum
    under 2^53): the page of [l1] records at [off] followed by the page of
    [l2] records at [off + l1] is the page of [l1 + l2] records at [off];
    and if the full-text match refuses the query, the three calls throw the
    same exception. *)
Theorem getGalleryPage_pages_compose
  (query order : jsstring) (off l1 l2 : Z) (db : Store) :
  0 <= off -> 0 <= l1 -> 0 <= l2 -> off + l1 + l2 < 2 ^ 53 ->
  let page o l :=
    snd (getGalleryPage decimal_text fts5_satisfies join_order
           query (num_of_Z o) (num_of_Z l) order db) in
  (exists p1 p2,
     page off l1 = Ok p1 /\ page (off + l1) l2 = Ok p2
     /\ page off (l1 + l2) = Ok (p1 ++ p2))
  \/ (exists e,
        page off l1 = Throw e /\ page (off + l1) l2 = Throw e
        /\ page off (l1 + l2) = Throw e).
Proof.
  intros H0 H1 H2 Hs page. subst page. cbv beta.
  unfold getGalleryPage. rewrite !notInt_num_of_Z. cbn [orb].
  assert (Happ : forall rows,
            map_rowToMoose (sql_limit off (l1 + l2) rows)
            = map_rowToMoose (sql_limit off l1 rows)
              ++ map_rowToMoose (sql_limit (off + l1) l2 rows)).
  { intros rows. rewrite sql_limit_append by lia.
    unfold map_rowToMoose. apply flat_map_app. }
  destruct (negb (jsstring_eqb query [])).
  - unfold _findMooseByQuery. cbn [snd].
    rewrite !limit_operands_num_of_Z by lia.
    destruct (MooseSearch_match fts5_satisfies (tokenize query) db)
      as [[toks found]|e].
    + left. do 2 eexists. refine (conj eq_refl (conj eq_refl _)).
      rewrite Happ. reflexivity.
    + right. exists e. auto.
  - left. cbn [snd]. rewrite !limit_operands_num_of_Z by lia.
    do 2 eexists. refine (conj eq_refl (conj eq_refl _)).
    rewrite Happ. reflexivity.
Qed.

End GalleryPages.

(** [getGalleryPage_sorted_slice] for the first page of one record,
    newest first, of the store holding A and B, and for a limit of 2^63. *)
Lemma getGalleryPage_sorted_slice_witness :
  (exists off' lim' sorted page,
     snd (getGalleryPage exact_text match_all table_order [] (num_of_Z 0)
            (num_of_Z 1) (str "newest") store_A_B) = Ok page
     /\ (Z.abs 0 < 2 ^ 53 -> off' = 0)
     /\ (Z.abs 1 < 2 ^ 53 -> lim' = 1)
     /\ Permutation sorted (Moose_table store_A_B)
     /\ in_order DESC sorted
     /\ (rowid_order (Moose_table store_A_B) -> index_order DESC sorted)
     /\ in_order DESC (sql_limit off' lim' sorted)
     /\ Forall2 decodes_to (sql_limit off' lim' sorted) page
     /\ (0 <= lim' -> (List.length page <= Z.to_nat lim')%nat))
  /\ snd (getGalleryPage exact_text match_all table_order [] (num_of_Z 0)
            (num_of_Z (- 2 ^ 63)) (str "newest") store_A_B)
     = Throw datatype_mismatch.
Proof.
  split.
  - apply (proj1 (getGalleryPage_sorted_slice exact_text match_all table_order
             (num_of_Z 0) (num_of_Z 1) 0 1 (str "newest") store_A_B
             (num_of_Z_denotes 0) (num_of_Z_denotes 1)));
      reflexivity.
  - apply (proj2 (getGalleryPage_sorted_slice exact_text match_all table_order
             (num_of_Z 0) (num_of_Z (- 2 ^ 63)) 0 (- 2 ^ 63) (str "newest")
             store_A_B (num_of_Z_denotes 0) (num_of_Z_denotes (- 2 ^ 63)))).
    right. discriminate.
Defined.

(** Two records with the same [created]: newest first gives the one saved
    later first, oldest first the one saved earlier. *)
Example getGalleryPage_equal_created :
  snd (getGalleryPage exact_text match_all table_order [] (num_of_Z 0)
         (num_of_Z 10) (str "newest") store_A_T) = Ok [moose_T; moose_A]
  /\ snd (getGalleryPage exact_text match_all table_order [] (num_of_Z 0)
            (num_of_Z 10) (str "oldest") store_A_T) = Ok [moose_A; moose_T].
Proof. split; vm_compute; reflexivity. Qed.

(** [getGalleryPage_pages_compose]: two pages of one record are the page of
    two records. *)
Lemma getGalleryPage_pages_compose_witness :
  let page o l :=
    snd (getGalleryPage exact_text match_all table_order [] (num_of_Z o)
           (num_of_Z l) (str "newest") store_A_B) in
  (exists p1 p2,
     page 0 1 = Ok p1 /\ page (0 + 1) 1 = Ok p2
     /\ page 0 (1 + 1) = Ok (p1 ++ p2))
  \/ (exists e,
        page 0 1 = Throw e /\ page (0 + 1) 1 = Throw e
        /\ page 0 (1 + 1) = Throw e).
Proof.
  apply (getGalleryPage_pages_compose exact_text match_all table_order []
           (str "newest") 0 1 1 store_A_B); try reflexivity; discriminate.
Defined.

(* ================================================================== *)
(** * Searching *)

Lemma word_tokens_length arr :
  List.length (word_tokens arr) = List.length arr.
Proof.
  induction arr as [|w rest IH]; [reflexivity|].
  destruct rest as [|w' rest']; [reflexivity|].
  change (word_tokens (w :: w' :: rest'))
    with ((if is_connector w then connector_token w else FTS5_STRING w)
            :: word_tokens (w' :: rest')).
  simpl in *. rewrite IH. reflexivity.
Qed.

Lemma word_tokens_kinds arr :
  Forall (fun t => match t with
                   | FTS5_STRING _ | FTS5_AND | FTS5_OR => True
                   | FTS5_NOT | FTS5_PUNCT _ => False
                   end) (word_tokens arr).
Proof.
  induction arr as [|w rest IH]; [constructor|].
  destruct rest as [|w' rest']; [repeat constructor|].
  change (word_tokens (w :: w' :: rest'))
    with ((if is_connector w then connector_token w else FTS5_STRING w)
            :: word_tokens (w' :: rest')).
  constructor; [|exact IH].
  unfold connector_token.
  destruct (is_connector w), (jsstring_eqb w (str "AND")); exact I.
Qed.

(** The parser places the tokens of the words unless a connector stands
    where an operand is due, and then it names that connector. *)
Lemma fts5_parse_word_tokens arr after_word :
  arr <> [] ->
  fts5_parse (negb after_word) (word_tokens arr)
  = match misplaced_connector after_word arr with
    | Some word => Throw (fts5_syntax_error (connector_name word))
    | None => Ok false
    end.
Proof.
  revert after_word; induction arr as [|w rest IH]; intros after_word Hne;
    [congruence|].
  destruct rest as [|w' rest']; [reflexivity|].
  change (word_tokens (w :: w' :: rest'))
    with ((if is_connector w then connector_token w else FTS5_STRING w)
            :: word_tokens (w' :: rest')).
  change (misplaced_connector after_word (w :: w' :: rest'))
    with (if is_connector w
          then if after_word then misplaced_connector false (w' :: rest')
               else Some w
          else misplaced_connector true (w' :: rest')).
  destruct (is_connector w).
  - destruct after_word; cbn [negb].
    + unfold connector_token.
      destruct (jsstring_eqb w (str "AND")); cbn [fts5_parse];
        apply (IH false); discriminate.
    + unfold connector_token, connector_name.
      destruct (jsstring_eqb w (str "AND")); reflexivity.
  - cbn [fts5_parse]. apply (IH true). discriminate.
Qed.

Lemma MooseSearch_match_tokenize sat query db :
  NUL_free query = true ->
  let words := map bind_text (split_white_space query) in
  MooseSearch_match sat (tokenize query) db
  = match misplaced_connector false words with
    | Some word => Throw (fts5_syntax_error (connector_name word))
    | None =>
        Ok (word_tokens words, filter (sat (word_tokens words)) (MooseSearch db))
    end.
Proof.
  intros H words. unfold MooseSearch_match.
  rewrite (bound_query_tokens query H). fold words.
  assert (Hne : words <> []).
  { subst words. unfold split_white_space.
    pose proof (split_from_nonempty false query) as Hq.
    destruct (split_from false query); [congruence | discriminate]. }
  pose proof (fts5_parse_word_tokens words false Hne) as Hp.
  cbn [negb] in Hp. rewrite Hp.
  destruct (misplaced_connector false words); reflexivity.
Qed.

Lemma In_sql_limit {A : Type} (off lim : Z) (rows : list A) (x : A) :
  In x (sql_limit off lim rows) -> In x rows.
Proof.
  unfold sql_limit. intros H.
  assert (Hs : In x (skipn (Z.to_nat off) rows)).
  { destruct (lim <? 0); [exact H|].
    rewrite <- (firstn_skipn (Z.to_nat lim) (skipn (Z.to_nat off) rows)).
    apply in_or_app; left; exact H. }
  rewrite <- (firstn_skipn (Z.to_nat off) rows).
  apply in_or_app; right; exact Hs.
Qed.

(** X9.  Whatever a query without the code unit 0 holds, the full-text
    lexer reads the sanitised query as one token per word of the query:
    AND or OR for a connector that was let through, and for every other
    word one string whose text is the word itself, quotes and punctuation
    included.  No punctuation token and no NOT comes out, and the lexer
    meets no error.  The same holds of the expression as it is bound to
    MATCH, with every word as it is bound. *)
Theorem tokenize_keeps_words_literal (query : jsstring) :
  NUL_free query = true ->
  let toks := word_tokens (split_white_space query) in
  fts5_lex LexStart (tokenize query) = (toks, None)
  /\ List.length toks = List.length (split_white_space query)
  /\ Forall (fun t => match t with
                      | FTS5_STRING _ | FTS5_AND | FTS5_OR => True
                      | FTS5_NOT | FTS5_PUNCT _ => False
                      end) toks
  /\ fts5_lex LexStart (bind_text (tokenize query))
     = (word_tokens (map bind_text (split_white_space query)), None).
Proof.
  intros H toks. refine (conj _ (conj _ (conj _ _))).
  - apply sanitised_query_tokens, H.
  - apply word_tokens_length.
  - apply word_tokens_kinds.
  - apply bound_query_tokens, H.
Qed.

(** [tokenize_keeps_words_literal] on a query of three words that hold a
    quote, a column filter and a NOT. *)
Lemma tokenize_keeps_words_literal_witness :
  fts5_lex LexStart (tokenize ([34; 97] ++ str " moose_name:x NOT")%N)
  = ([FTS5_STRING [34; 97]%N; FTS5_STRING (str "moose_name:x");
      FTS5_STRING (str "NOT")], None).
Proof.
  apply (tokenize_keeps_words_literal ([34; 97] ++ str " moose_name:x NOT")%N).
  reflexivity.
Defined.

Section SearchResults.

Variable decimal_text : number -> Z.
Variable fts5_satisfies : list fts5_token -> jsstring -> bool.
Variable join_order :
  sort_order -> list fts5_token -> Store -> list MooseRec -> list MooseRec.

(** The join delivers the rows it is given, in whatever order. *)
Hypothesis join_order_perm : forall order toks db rows,
  Permutation (join_order order toks db rows) rows.

(** X8.  A search with a query that is not empty and holds no code unit
    0, and with [offset] and [limit] denoting integers below 2^53 in
    magnitude; the words are those of the query, each as it is bound.  If
    a connector that is not the last word stands first or directly after
    another such connector, the call throws the syntax error of the
    full-text match, which names the first such connector.  Otherwise it
    returns normally, and every record of the page is the decoded form of
    a row of the table whose name is in the index and satisfies the
    expression made of the words; the page is in the order of
    [created]. *)
Theorem getGalleryPage_search
  (query : jsstring) (offset limit : number) (off lim : Z)
  (order : jsstring) (db : Store) :
  query <> [] -> NUL_free query = true ->
  denotes_integer offset off -> denotes_integer limit lim ->
  Z.abs off < 2 ^ 53 -> Z.abs lim < 2 ^ 53 ->
  let words := map bind_text (split_white_space query) in
  let direction := if jsstring_eqb order (str "oldest") then ASC else DESC in
  let result :=
    snd (getGalleryPage decimal_text fts5_satisfies join_order
           query offset limit order db) in
  (forall word,
     misplaced_connector false words = Some word ->
     result = Throw (fts5_syntax_error (connector_name word)))
  /\ (misplaced_connector false words = None ->
      exists rows page,
        result = Ok page
        /\ Forall2 decodes_to rows page
        /\ in_order direction rows
        /\ forall r, In r rows ->
             In r (Moose_table db)
             /\ In (col_name r) (MooseSearch db)
             /\ fts5_satisfies (word_tokens words) (col_name r) = true).
Proof.
  intros Hq Hnul Ho Hl Hob Hlb words direction result. subst result.
  unfold getGalleryPage. fold direction.
  rewrite (proj2 (notInt_false_iff offset) (ex_intro _ off Ho)).
  rewrite (proj2 (notInt_false_iff limit) (ex_intro _ lim Hl)).
  replace (negb (jsstring_eqb query [])) with true
    by (symmetry; apply negb_true_iff, jsstring_eqb_neq, Hq).
  cbn [orb]. unfold _findMooseByQuery. cbn [snd].
  rewrite (limit_operands_denote decimal_text offset limit off lim
             Ho Hl Hob Hlb).
  rewrite (MooseSearch_match_tokenize _ _ _ Hnul). cbv zeta. fold words.
  split.
  - intros word ->. reflexivity.
  - intros ->.
    set (found := filter (fts5_satisfies (word_tokens words)) (MooseSearch db)).
    set (joined := join_order direction (word_tokens words) db
                     (inner_join found (Moose_table db))).
    destruct (order_by_created_spec direction joined) as [Hp Hs].
    exists (sql_limit off lim (order_by_created direction joined)).
    eexists.
    refine (conj eq_refl (conj (decode_rows _)
              (conj (sql_limit_in_order _ _ _ _ Hs) _))).
    intros r Hr. apply In_sql_limit in Hr.
    apply (Permutation_in _ Hp) in Hr. subst joined.
    apply (Permutation_in _ (join_order_perm _ _ _ _)) in Hr.
    unfold inner_join in Hr.
    apply in_flat_map in Hr as [r' [Hr' Hin]].
    apply in_map_iff in Hin as [n [<- Hn]].
    apply filter_In in Hn as [Hn Heq].
    apply jsstring_eqb_eq in Heq. subst n. subst found.
    apply filter_In in Hn as [Hidx Hsat]. auto.
Qed.

End SearchResults.

(** [getGalleryPage_search] for the query A on the store holding A and B,
    and for the query AND A. *)
Lemma getGalleryPage_search_witness :
  (exists rows page,
     snd (getGalleryPage exact_text match_all table_order (str "A")
            (num_of_Z 0) (num_of_Z 5) (str "newest") store_A_B) = Ok page
     /\ Forall2 decodes_to rows page
     /\ in_order DESC rows
     /\ forall r, In r rows ->
          In r (Moose_table store_A_B)
          /\ In (col_name r) (MooseSearch store_A_B)
          /\ match_all (word_tokens [str "A"]) (col_name r) = true)
  /\ snd (getGalleryPage exact_text match_all table_order (str "AND A")
            (num_of_Z 0) (num_of_Z 5) (str "newest") store_A_B)
     = Throw (fts5_syntax_error "AND").
Proof.
  assert (Hperm : forall order toks db rows,
            Permutation (table_order order toks db rows) rows)
    by (intros; apply Permutation_refl).
  split.
  - apply (proj2 (getGalleryPage_search exact_text match_all table_order Hperm
             (str "A") (num_of_Z 0) (num_of_Z 5) 0 5 (str "newest") store_A_B
             ltac:(discriminate) eq_refl (num_of_Z_denotes 0)
             (num_of_Z_denotes 5) eq_refl eq_refl)).
    reflexivity.
  - apply (proj1 (getGalleryPage_search exact_text match_all table_order Hperm
             (str "AND A") (num_of_Z 0) (num_of_Z 5) 0 5 (str "newest")
             store_A_B ltac:(discriminate) eq_refl (num_of_Z_denotes 0)
             (num_of_Z_denotes 5) eq_refl eq_refl) (str "AND")).
    reflexivity.
Defined.

(* ================================================================== *)
(** * Importing a batch again *)

Lemma complete_name moose :
  complete moose = true -> exists n, name moose = Val n.
Proof.
  intros H. destruct (complete_row moose H) as (n & _ & _ & Hn & _).
  exists n; exact Hn.
Qed.

(** A reference to the one step of [save_each]: the name of a complete
    record, as it is bound, is in the store afterwards, and no name is
    lost. *)
Lemma save_step_names moose n db :
  complete moose = true -> name moose = Val n ->
  In (bind_text n) (names (store_after (saveMoose moose db) db))
  /\ forall n', In n' (names db) ->
                In n' (names (store_after (saveMoose moose db) db)).
Proof.
  intros Hc Hn.
  destruct (complete_row moose Hc) as (n0 & c & i & Hn0 & Hr & Hcr & Hi).
  assert (n0 = n) by congruence. subst n0.
  unfold saveMoose.
  rewrite (saveMooseStmt_run_complete_row _ _ _ _ db Hr Hcr Hi).
  destruct (existsb (name_is (bind_text n)) (Moose_table db)) eqn:Hex.
  - simpl. split; [apply existsb_name_is, Hex | auto].
  - cbv zeta. cbn [store_after]. unfold names. cbn [Moose_table].
    set (new := mkMooseRec _ (bind_text n) _ _ _ _ _ _ _).
    assert (Hp : Permutation (bind_text n :: map col_name (Moose_table db))
                   (map col_name (table_insert new (Moose_table db))))
      by (symmetry; apply (Permutation_map col_name (table_insert_perm new _))).
    split.
    + apply (Permutation_in _ Hp). left; reflexivity.
    + intros n' Hn'. apply (Permutation_in _ Hp). right; exact Hn'.
Qed.

Lemma save_each_keeps_names meese db n :
  forallb complete meese = true ->
  In n (names db) -> In n (names (save_each meese db)).
Proof.
  revert db; induction meese as [|m rest IH]; intros db Hall Hin; [exact Hin|].
  simpl in Hall. apply andb_true_iff in Hall as [Hm Hrest].
  cbn [save_each]. apply IH; [exact Hrest|].
  destruct (complete_name m Hm) as [nm Hnm].
  apply (proj2 (save_step_names m nm db Hm Hnm)), Hin.
Qed.

Lemma save_each_has_names meese db m n :
  forallb complete meese = true ->
  In m meese -> name m = Val n ->
  In (bind_text n) (names (save_each meese db)).
Proof.
  revert db; induction meese as [|x rest IH]; intros db Hall Hin Hn;
    [destruct Hin|].
  simpl in Hall. apply andb_true_iff in Hall as [Hx Hrest].
  cbn [save_each]. destruct Hin as [->|Hin].
  - apply save_each_keeps_names; [exact Hrest|].
    apply (proj1 (save_step_names m n db Hx Hn)).
  - apply IH; assumption.
Qed.

(** When every name is in the store already, every insert is skipped. *)
Lemma bulk_loop_all_skipped meese db log :
  forallb complete meese = true ->
  (forall m n, In m meese -> name m = Val n -> In (bind_text n) (names db)) ->
  bulk_loop meese db log = (Ok tt, db, log ++ map warning meese).
Proof.
  revert log; induction meese as [|m rest IH]; intros log Hall Hin.
  - simpl. rewrite app_nil_r. reflexivity.
  - simpl in Hall. apply andb_true_iff in Hall as [Hm Hrest].
    destruct (complete_row m Hm) as (n & c & i & Hn & Hr & Hcr & Hi).
    assert (Hpres : In (bind_text n) (names db))
      by (apply (Hin m n); [left|]; auto).
    cbn [bulk_loop map].
    rewrite (saveMooseStmt_run_complete_row _ _ _ _ db Hr Hcr Hi).
    apply existsb_name_is in Hpres. unfold names in Hpres. rewrite Hpres.
    change (is_unique_violation (SqliteError UNIQUE_failed)) with true.
    cbv iota. fold (warning m).
    rewrite IH; [|exact Hrest|intros m' n' Hm'; apply Hin; right; exact Hm'].
    rewrite <- app_assoc. reflexivity.
Qed.

(** X10.  Importing a batch of complete records a second time changes
    nothing: the first [bulkSaveMoose] returns normally and leaves every
    name of the batch, as it is bound, in the store (a well-formed name
    as it is); the second returns normally as well, leaves the store as
    the first left it, and logs one warning for each record of the batch,
    in order. *)
Theorem bulkSaveMoose_twice (meese : list Moose) (db : Store) :
  forallb complete meese = true ->
  exists db1 log1,
    bulkSaveMoose meese db = (Ok tt, db1, log1)
    /\ (forall m n, In m meese -> name m = Val n ->
                    In (bind_text n) (names db1))
    /\ (forall m n, In m meese -> name m = Val n -> well_formed n ->
                    In n (names db1))
    /\ bulkSaveMoose meese db1 = (Ok tt, db1, map warning meese).
Proof.
  intros Hall. unfold bulkSaveMoose, transaction.
  destruct (bulk_loop_complete meese db [] Hall) as (log1 & -> & _).
  exists (save_each meese db), log1.
  refine (conj eq_refl (conj _ (conj _ _))).
  - intros m n Hm Hn. apply (save_each_has_names meese db m n Hall Hm Hn).
  - intros m n Hm Hn Hwf. rewrite <- Hwf.
    apply (save_each_has_names meese db m n Hall Hm Hn).
  - rewrite (bulk_loop_all_skipped meese (save_each meese db) [] Hall);
      [reflexivity|].
    intros m n Hm Hn. apply (save_each_has_names meese db m n Hall Hm Hn).
Qed.

(** [bulkSaveMoose_twice] for the batch A, B, A on the empty store. *)
Lemma bulkSaveMoose_twice_witness :
  exists db1 log1,
    bulkSaveMoose [moose_A; moose_B; moose_A] empty_store = (Ok tt, db1, log1)
    /\ (forall m n, In m [moose_A; moose_B; moose_A] -> name m = Val n ->
                    In (bind_text n) (names db1))
    /\ (forall m n, In m [moose_A; moose_B; moose_A] -> name m = Val n ->
                    well_formed n -> In n (names db1))
    /\ bulkSaveMoose [moose_A; moose_B; moose_A] db1
       = (Ok tt, db1, map warning [moose_A; moose_B; moose_A]).
Proof.
  apply (bulkSaveMoose_twice [moose_A; moose_B; moose_A] empty_store).
  reflexivity.
Defined.

(* ================================================================== *)
(** * An export that does not reach its end *)

(** Reading the rows in front of whatever comes next. *)
Lemma read_rows rows : forall rest is_first before rel ret err,
  run_stream (repeat EvRead (List.length rows))
    (mkReadable
       (mkIter (map (fun row => Yields (RowValue row)) rows ++ rest)
          true rel ret)
       is_first before false false err)
  = mkReadable (mkIter rest true rel ret)
      (match rows with [] => is_first | _ :: _ => false end)
      (before ++ chunks is_first rows) false false err.
Proof.
  induction rows as [|row rows' IH]; intros rest is_first before rel ret err.
  - simpl. rewrite app_nil_r. reflexivity.
  - change (repeat EvRead (List.length (row :: rows')))
      with (EvRead :: repeat EvRead (List.length rows')).
    cbn [run_stream fold_left].
    fold (run_stream (repeat EvRead (List.length rows'))).
    cbn [map app on_event ended destroyed orb].
    unfold _read. cbn [iter iter_next alive upcoming releases returns].
    rewrite serialise_row. cbn [json_text first].
    destruct is_first; cbn [negb];
      unfold set_first, push, set_iter;
      cbn [iter first pushed ended destroyed errored];
      rewrite IH; cbn [chunks]; rewrite <- app_assoc;
      destruct rows'; reflexivity.
Qed.

Lemma parse_elements_open vs :
  parse_elements (flat_map (fun v => [COMMA; VALUE v]) vs) = None.
Proof.
  induction vs as [|v vs IH]; [reflexivity|].
  cbn [flat_map app]. cbn [parse_elements]. rewrite IH. reflexivity.
Qed.

Lemma parse_array_open vs :
  parse_array ([LBRACKET] ++ comma_separated vs) = None.
Proof.
  destruct vs as [|v vs]; [reflexivity|].
  cbn [comma_separated app]. cbn [parse_array].
  rewrite parse_elements_open. reflexivity.
Qed.

Lemma run_stream_destroyed evs s :
  destroyed s = true -> run_stream evs s = s.
Proof.
  intros H; induction evs as [|ev evs IH]; [reflexivity|].
  simpl. replace (on_event s ev) with s; [exact IH|].
  destruct ev; simpl.
  - rewrite H, orb_true_r. reflexivity.
  - unfold destroy. rewrite H. reflexivity.
Qed.

(** X11.  An export that is cut short.  When the cursor delivers [rows]
    and then fails, or delivers a value that cannot be serialised, the
    read that meets the failure destroys the stream with that error; when
    the consumer destroys the stream after the rows, the stream is
    destroyed without error.  Either way the cursor is closed, the output
    is the opening bracket and the rows read so far with commas between
    them, no closing bracket is pushed then or later, and the output does
    not read as a JSON array. *)
Theorem reader_cut_short
  (rows : list MooseRow) (e : error) (more : list pull) :
  let fresh pulls := new_MooseReadable (mkIter pulls true 0 0) in
  let delivered := map (fun row => Yields (RowValue row)) rows in
  let reads := repeat EvRead (List.length rows) in
  let truncated := [LBRACKET] ++ comma_separated (map row_json rows) in
  let cut_short (s : MooseReadable) (err : option error) :=
    destroyed s = true /\ errored s = err /\ ended s = false
    /\ alive (iter s) = false /\ releases (iter s) = 1%nat
    /\ output s = truncated
    /\ parse_array (output s) = None
    /\ forall evs, run_stream evs s = s in
  cut_short (run_stream (reads ++ [EvRead])
               (fresh (delivered ++ StepFails e :: more))) (Some e)
  /\ cut_short (run_stream (reads ++ [EvRead])
                  (fresh (delivered ++ Yields (Unserialisable e) :: more)))
       (Some e)
  /\ cut_short (run_stream (reads ++ [EvDestroy None])
                  (fresh (delivered ++ more))) None.
Proof.
  intros fresh delivered reads truncated cut_short.
  assert (Hstate : forall up ret f err,
            cut_short
              (mkReadable (mkIter up false 1 ret) f
                 ([[LBRACKET]] ++ chunks true rows) false true err) err).
  { intros up ret f err. subst cut_short. cbv beta.
    assert (Hout : output
                     (mkReadable (mkIter up false 1 ret) f
                        ([[LBRACKET]] ++ chunks true rows) false true err)
                   = truncated).
    { unfold output. cbn [pushed].
      rewrite concat_app, concat_chunks_first. reflexivity. }
    refine (conj eq_refl (conj eq_refl (conj eq_refl (conj eq_refl
             (conj eq_refl (conj Hout (conj _ _))))))).
    - rewrite Hout. apply parse_array_open.
    - intros evs. apply run_stream_destroyed. reflexivity. }
  assert (Hread : forall rest,
            run_stream reads (fresh (delivered ++ rest))
            = mkReadable (mkIter rest true 0 0)
                (match rows with [] => true | _ :: _ => false end)
                ([[LBRACKET]] ++ chunks true rows) false false None).
  { intros rest. subst fresh delivered reads. cbv beta.
    unfold new_MooseReadable, set_first, push.
    cbn [iter first pushed ended destroyed errored app].
    apply read_rows. }
  unfold run_stream in *. rewrite !fold_left_app, !Hread.
  refine (conj _ (conj _ _)).
  - apply (Hstate [] 1%nat _ (Some e)).
  - apply (Hstate [] 1%nat _ (Some e)).
  - apply (Hstate [] 1%nat _ None).
Qed.

(* ================================================================== *)
(** * Rowids and the random record *)

Lemma in_ids k n : In k (map Z.of_nat (seq 1 n)) <-> 1 <= k <= Z.of_nat n.
Proof.
  rewrite in_map_iff. split.
  - intros [i [<- Hi]]. apply in_seq in Hi. lia.
  - intros H. exists (Z.to_nat k). split; [lia|]. apply in_seq. lia.
Qed.

Lemma ids_NoDup n : NoDup (map Z.of_nat (seq 1 n)).
Proof.
  apply NoDup_map_NoDup_ForallPairs; [|apply seq_NoDup].
  intros a b _ _ H. lia.
Qed.

Lemma dense_in db k :
  dense db -> (In k (rowids db) <-> 1 <= k <= Z.of_nat (List.length (Moose_table db))).
Proof.
  intros H. rewrite <- in_ids. unfold rowids.
  split; apply Permutation_in; [exact H | symmetry; exact H].
Qed.

Lemma dense_NoDup db : dense db -> NoDup (rowids db).
Proof.
  intros H. eapply Permutation_NoDup; [symmetry; exact H | apply ids_NoDup].
Qed.

Lemma dense_intro t :
  NoDup (map rowid t) ->
  (forall k, In k (map rowid t) <-> 1 <= k <= Z.of_nat (List.length t)) ->
  Permutation (map rowid t) (map Z.of_nat (seq 1 (List.length t))).
Proof.
  intros Hnd Hin. apply NoDup_Permutation; [exact Hnd | apply ids_NoDup|].
  intros k. rewrite Hin, in_ids. reflexivity.
Qed.

Lemma dense_max db :
  dense db -> Moose_table db <> [] ->
  max_rowid (Moose_table db) = Some (Z.of_nat (List.length (Moose_table db))).
Proof.
  intros Hd Hne. destruct (max_rowid_nonempty _ Hne) as [mx Hmx].
  rewrite Hmx. f_equal.
  destruct (max_rowid_spec _ _ Hmx) as [Hin Hle].
  apply (dense_in db mx Hd) in Hin.
  assert (Hn : In (Z.of_nat (List.length (Moose_table db))) (rowids db)).
  { apply (dense_in db _ Hd). destruct (Moose_table db); [congruence|].
    simpl List.length. lia. }
  specialize (Hle _ Hn). lia.
Qed.

Lemma find_rowid t k :
  In k (map rowid t) ->
  exists r, find (fun r => rowid r =? k) t = Some r /\ In r t /\ rowid r = k.
Proof.
  intros Hin. apply in_map_iff in Hin as [r0 [Hr0 Hin0]].
  destruct (find (fun r => rowid r =? k) t) as [r|] eqn:Hf.
  - apply find_some in Hf as [Hin Hk]. exists r.
    apply Z.eqb_eq in Hk. auto.
  - apply (find_none _ _ Hf) in Hin0. apply Z.eqb_neq in Hin0. congruence.
Qed.

(** X12.  In a store whose rowids are 1, ..., n with n > 0, and for a
    draw that is not negative, [getRandomMoose] returns a record: the
    decoded row whose rowid is the draw modulo n, plus one. *)
Theorem getRandomMoose_dense (draw : Z) (db : Store) :
  dense db -> Moose_table db <> [] -> 0 <= draw ->
  exists r m,
    In r (Moose_table db)
    /\ rowid r = draw mod Z.of_nat (List.length (Moose_table db)) + 1
    /\ decodes_to r m
    /\ getRandomMoose draw db = Some m.
Proof.
  intros Hd Hne Hdraw.
  set (n := Z.of_nat (List.length (Moose_table db))).
  assert (Hn : 0 < n)
    by (subst n; destruct (Moose_table db); [congruence | simpl List.length; lia]).
  unfold getRandomMoose, getRandomMooseStmt_get.
  rewrite (dense_max db Hd Hne). fold n.
  replace (n =? 0) with false by (symmetry; apply Z.eqb_neq; lia).
  rewrite Z.rem_mod_nonneg by lia.
  pose proof (Z.mod_pos_bound draw n Hn) as Hb.
  destruct (find_rowid (Moose_table db) (draw mod n + 1)) as (r & -> & Hin & Hk).
  { apply (dense_in db _ Hd). fold n. lia. }
  exists r. eexists. refine (conj Hin (conj Hk (conj eq_refl eq_refl))).
Qed.

Lemma store_A_B_dense : dense store_A_B.
Proof. unfold dense. vm_compute. apply Permutation_refl. Qed.

(** [getRandomMoose_dense] for the draw 7 on the store holding A and B. *)
Lemma getRandomMoose_dense_witness :
  exists r m,
    In r (Moose_table store_A_B)
    /\ rowid r = 7 mod Z.of_nat (List.length (Moose_table store_A_B)) + 1
    /\ decodes_to r m
    /\ getRandomMoose 7 store_A_B = Some m.
Proof.
  apply (getRandomMoose_dense 7 store_A_B store_A_B_dense).
  - discriminate.
  - discriminate.
Defined.

(** ** Which mutations keep the rowids dense *)

Lemma saveMooseStmt_run_dense row db db' :
  dense db -> saveMooseStmt_run row db = Ok db' -> dense db'.
Proof.
  intros Hd. unfold saveMooseStmt_run.
  destruct (row_name row) as [n|]; [|discriminate].
  destruct (row_created row) as [c|]; [|discriminate].
  destruct (row_image row) as [i|]; [|discriminate].
  destruct (existsb (has_name n) (Moose_table db)); [discriminate|].
  intros [= <-]. unfold dense, Moose_InsertTrigger. cbn [Moose_table].
  set (new := mkMooseRec _ (bind_text n) _ _ _ _ _ _ _).
  rewrite (Permutation_length (table_insert_perm new _)).
  rewrite (Permutation_map rowid (table_insert_perm new _)).
  cbn [map List.length]. rewrite seq_S, map_app. cbn [map].
  rewrite <- Permutation_cons_append.
  replace (rowid new) with (Z.of_nat (1 + List.length (Moose_table db))).
  - constructor. exact Hd.
  - subst new. cbn [rowid]. unfold next_rowid.
    destruct (Moose_table db) as [|r t] eqn:Et; [reflexivity|].
    rewrite <- Et in *. rewrite (dense_max db Hd) by (rewrite Et; discriminate).
    lia.
Qed.

Lemma filter_only_row t old :
  NoDup (map col_name t) -> In old t ->
  filter (name_is (col_name old)) t = [old].
Proof.
  induction t as [|x t IH]; intros Hnd Hin; [destruct Hin|].
  simpl in Hnd. inversion Hnd as [|? ? Hx Hnd']; subst. simpl.
  destruct Hin as [->|Hin].
  - unfold name_is at 1. rewrite jsstring_eqb_refl. f_equal.
    assert (Hnone : forall r, In r t -> name_is (col_name old) r = false).
    { intros r Hr. apply jsstring_eqb_neq. intros E. apply Hx.
      rewrite <- E. apply in_map, Hr. }
    clear -Hnone. induction t as [|y t IHt]; [reflexivity|]. simpl.
    rewrite (Hnone y (or_introl eq_refl)). apply IHt.
    intros r Hr. apply Hnone. right; exact Hr.
  - destruct (name_is (col_name old) x) eqn:E.
    + apply name_is_true in E. exfalso. apply Hx. rewrite E.
      apply in_map, Hin.
    + apply IH; assumption.
Qed.

(** The rows that stay when the row named [n] is deleted. *)
Lemma delete_row_perm t old :
  NoDup (map col_name t) -> In old t ->
  Permutation (old :: filter (fun r => negb (name_is (col_name old) r)) t) t.
Proof.
  intros Hnd Hin.
  rewrite <- (filter_split_perm (name_is (col_name old)) t) at 2.
  rewrite (filter_only_row t old Hnd Hin). reflexivity.
Qed.

Lemma move_max_rowid_ids id t mx :
  max_rowid t = Some mx ->
  Permutation (map rowid (move_max_rowid id t))
    (map (fun x => if x =? mx then id else x) (map rowid t)).
Proof.
  intros Hmx. unfold move_max_rowid. rewrite Hmx.
  transitivity
    (map (fun x => if x =? mx then id else x)
       (map rowid (filter (fun r => rowid r =? mx) t
                   ++ filter (fun r => negb (rowid r =? mx)) t)));
    [|apply Permutation_map, Permutation_map,
        (filter_split_perm (fun r => rowid r =? mx))].
  rewrite !map_app.
  assert (Hkept : forall l,
            Forall (fun r => negb (rowid r =? mx) = true) l ->
            map (fun x => if x =? mx then id else x) (map rowid l)
            = map rowid l).
  { induction l as [|r l IHl]; intros Hl; [reflexivity|].
    inversion Hl as [|? ? Hr Hl']; subst. simpl.
    apply negb_true_iff in Hr. rewrite Hr, (IHl Hl'). reflexivity. }
  rewrite (Hkept (filter (fun r => negb (rowid r =? mx)) t))
    by (apply Forall_forall; intros r Hr; apply filter_In in Hr; tauto).
  assert (Hmoved : Forall (fun r => (rowid r =? mx) = true)
                     (filter (fun r => rowid r =? mx) t))
    by (apply Forall_forall; intros r Hr; apply filter_In in Hr; tauto).
  generalize (filter (fun r => negb (rowid r =? mx)) t) as kept; intros kept.
  induction Hmoved as [|r moved Hr _ IH]; simpl; [reflexivity|].
  etransitivity; [apply Permutation_map, table_insert_perm|].
  simpl. rewrite Hr. constructor. exact IH.
Qed.

(** X13.  Which mutations keep the rowids dense (1, ..., the number of
    rows), as the random query needs them.  [saveMoose], [bulkSaveMoose]
    and [saveMoosePng] always do.  [deleteMoose], in a store with distinct
    names, does when no row has the name, when the deleted row is the only
    one, and when the deleted row does not hold the largest rowid; when
    the deleted row holds the largest rowid and other rows remain, the
    rowids are not dense afterwards. *)
Theorem dense_rowids_kept (db : Store) :
  dense db ->
  (forall moose, dense (store_after (saveMoose moose db) db))
  /\ (forall meese, dense (snd (fst (bulkSaveMoose meese db))))
  /\ (forall n png, dense (saveMoosePng n png db))
  /\ (NoDup (names db) ->
      forall n,
        let len := Z.of_nat (List.length (Moose_table db)) in
        match rowid_of n db with
        | None => dense (deleteMoose n db)
        | Some k =>
            (k < len \/ len = 1 -> dense (deleteMoose n db))
            /\ (k = len -> 1 < len -> ~ dense (deleteMoose n db))
        end).
Proof.
  intros Hd. refine (conj _ (conj _ (conj _ _))).
  - intros moose. unfold saveMoose.
    destruct (saveMooseStmt_run (mooseToRow moose) db) as [db'|e] eqn:Hs;
      [eapply saveMooseStmt_run_dense; eassumption | exact Hd].
  - intros meese. apply bulkSaveMoose_preserves; [|exact Hd].
    intros m db0 db1. apply saveMooseStmt_run_dense.
  - intros n png. unfold dense, saveMoosePng, saveMoosePngStmt_run.
    cbn [Moose_table]. rewrite map_map, length_map.
    erewrite map_ext; [exact Hd|].
    intros r. simpl. destruct (has_name n r); reflexivity.
  - intros Hnames n len.
    unfold rowid_of, deleteMoose, deleteMooseStmt_run, has_name.
    generalize (bind_text n). clear n. intros n.
    destruct (find (name_is n) (Moose_table db)) as [old|] eqn:Hf;
      [|exact Hd].
    cbn [option_map]. apply find_name_is in Hf as [Hname Hin].
    subst n. set (rest := filter (fun r => negb (name_is (col_name old) r))
                            (Moose_table db)).
    pose proof (delete_row_perm _ old Hnames Hin) as Hperm. fold rest in Hperm.
    assert (Hlen : List.length (Moose_table db) = S (List.length rest))
      by (rewrite <- (Permutation_length Hperm); reflexivity).
    assert (Hids : Permutation (rowid old :: map rowid rest) (rowids db))
      by (apply (Permutation_map rowid Hperm)).
    assert (Hnd : NoDup (rowid old :: map rowid rest))
      by (eapply Permutation_NoDup;
          [symmetry; exact Hids | apply dense_NoDup, Hd]).
    inversion Hnd as [|? ? Hold Hnd_rest]; subst.
    assert (Hmem : forall x, In x (map rowid rest)
                             <-> (1 <= x <= len /\ x <> rowid old)).
    { intros x. split.
      - intros Hx. split.
        + apply (dense_in db x Hd).
          apply (Permutation_in _ Hids). right; exact Hx.
        + intros ->. contradiction.
      - intros [Hx Hne]. apply (dense_in db x Hd) in Hx.
        apply (Permutation_in _ (Permutation_sym Hids)) in Hx.
        destruct Hx as [Hx|Hx]; [congruence | exact Hx]. }
    assert (Hk : 1 <= rowid old <= len).
    { apply (dense_in db _ Hd). apply (Permutation_in _ Hids). left; auto. }
    cbn [Moose_DelTrigger Moose_table]. unfold dense. cbn [Moose_table].
    destruct rest as [|r0 rest0] eqn:Erest.
    { (* the only row *)
      split; [intros _; constructor|].
      intros _ Hlt. simpl in Hlen. subst len. rewrite Hlen in Hlt.
      simpl in Hlt. lia. }
    rewrite <- Erest in *.
    assert (Hrest_ne : rest <> []) by (rewrite Erest; discriminate).
    assert (Hge : 1 <= Z.of_nat (List.length rest))
      by (rewrite Erest; simpl List.length; lia).
    destruct (max_rowid_nonempty rest Hrest_ne) as [mx Hmx].
    destruct (max_rowid_spec rest mx Hmx) as [Hmx_in Hmx_le].
    assert (Hlen' : Z.of_nat (List.length rest) = len - 1) by (subst len; lia).
    assert (Hlen_move : List.length (move_max_rowid (rowid old) rest)
                        = List.length rest).
    { rewrite <- (length_map rowid), <- (length_map rowid rest).
      rewrite (Permutation_length (move_max_rowid_ids _ rest mx Hmx)).
      apply length_map. }
    change (Moose_table
              (Moose_DelTrigger old (mkStore rest (MooseSearch db))))
      with (move_max_rowid (rowid old) rest).
    rewrite Hlen_move.
    split.
    + (* the deleted row is not the last one *)
      intros [Hlt | H1]; [|lia].
      assert (Emx : mx = len).
      { assert (Hl : In len (map rowid rest)) by (apply Hmem; lia).
        specialize (Hmx_le len Hl). apply Hmem in Hmx_in. lia. }
      etransitivity; [apply (move_max_rowid_ids _ rest mx Hmx)|].
      apply NoDup_Permutation.
      * apply NoDup_map_NoDup_ForallPairs; [|exact Hnd_rest].
        intros a b Ha Hb. apply Hmem in Ha, Hb.
        destruct (Z.eqb_spec a mx), (Z.eqb_spec b mx); lia.
      * apply ids_NoDup.
      * intros x. rewrite in_ids, Hlen', in_map_iff. split.
        -- intros [y [Hy Hin_y]]. apply Hmem in Hin_y.
           destruct (Z.eqb_spec y mx); lia.
        -- intros Hx. destruct (Z.eq_dec x (rowid old)) as [->|Hne].
           ++ exists mx. rewrite Z.eqb_refl. auto.
           ++ exists x. split; [|apply Hmem; lia].
              destruct (Z.eqb_spec x mx); lia.
    + (* the deleted row is the last one *)
      intros Hlast Hlt Hdense.
      assert (Hin_k : In (rowid old)
                        (map rowid (move_max_rowid (rowid old) rest))).
      { apply (Permutation_in _
                 (Permutation_sym (move_max_rowid_ids _ rest mx Hmx))).
        apply in_map_iff. exists mx. rewrite Z.eqb_refl. auto. }
      apply (Permutation_in _ Hdense) in Hin_k. apply in_ids in Hin_k. lia.
Qed.

(** [dense_rowids_kept] at the store holding A and B: deleting A keeps
    the rowids dense, deleting B does not. *)
Lemma dense_rowids_kept_witness :
  dense (deleteMoose (str "A") store_A_B)
  /\ ~ dense (deleteMoose (str "B") store_A_B).
Proof.
  destruct (dense_rowids_kept store_A_B store_A_B_dense) as (_ & _ & _ & Hdel).
  assert (Hnd : NoDup (names store_A_B))
    by apply (reachable_coupled _ store_A_B_reachable).
  split.
  - apply (proj1 (Hdel Hnd (str "A"))). left. reflexivity.
  - apply (proj2 (Hdel Hnd (str "B"))); reflexivity.
Defined.

(* ================================================================== *)
(** * The editor: switching the canvas size *)

Section CanvasSizeFacts.

Variables normal_width normal_height hd_width hd_height : nat.

Hypothesis width_le : (normal_width <= hd_width)%nat.
Hypothesis height_le : (normal_height <= hd_height)%nat.

Let to_hd := resize_painting normal_width normal_height hd_width hd_height true.
Let to_sd := resize_painting normal_width normal_height hd_width hd_height false.

Lemma to_hd_size painting :
  has_size normal_width normal_height painting ->
  has_size hd_width hd_height (to_hd painting).
Proof.
  intros [Hh Hw]. unfold to_hd, resize_painting, has_size. cbv beta iota zeta.
  rewrite length_map, length_app, repeat_length. split; [lia|].
  apply Forall_map, Forall_app. split.
  - eapply Forall_impl; [|exact Hw]. intros arr Harr. simpl in *.
    rewrite length_app, repeat_length. lia.
  - apply Forall_forall. intros arr Harr. apply repeat_spec in Harr. subst arr.
    rewrite length_app, repeat_length. simpl. lia.
Qed.

Lemma to_sd_to_hd painting :
  has_size normal_width normal_height painting ->
  to_sd (to_hd painting) = painting.
Proof.
  intros [Hh Hw]. unfold to_sd, to_hd, resize_painting. cbv beta iota zeta.
  rewrite firstn_map, firstn_app.
  replace (normal_height - List.length painting)%nat with 0%nat by lia.
  rewrite firstn_O, app_nil_r, firstn_all2 by lia.
  rewrite map_map. rewrite <- (map_id painting) at 2.
  apply map_ext_in. intros arr Harr.
  apply (proj1 (Forall_forall _ _) Hw) in Harr.
  rewrite firstn_app.
  replace (normal_width - List.length arr)%nat with 0%nat by lia.
  rewrite firstn_O, app_nil_r. apply firstn_all2. lia.
Qed.

Lemma cell_to_hd painting i j :
  has_size normal_width normal_height painting ->
  cell (to_hd painting) i j = cell painting i j.
Proof.
  intros [Hh Hw]. unfold cell, to_hd, resize_painting. cbv beta iota zeta.
  set (pad := fun arr => arr ++ repeat 0 (hd_width - List.length arr)).
  destruct (Nat.lt_ge_cases i (List.length painting)) as [Hi|Hi].
  - rewrite (nth_indep _ [] (pad [])) by
      (rewrite length_map, length_app; lia).
    rewrite map_nth, app_nth1 by lia. unfold pad.
    set (arr := nth i painting []).
    destruct (Nat.lt_ge_cases j (List.length arr)) as [Hj|Hj].
    + apply app_nth1, Hj.
    + rewrite app_nth2, (nth_overflow arr) by lia.
      apply nth_repeat.
  - rewrite (nth_overflow painting) by lia.
    destruct (Nat.lt_ge_cases i
                (List.length (painting
                              ++ repeat [] (hd_height - List.length painting))))
      as [Hi'|Hi'].
    + rewrite (nth_indep _ [] (pad [])) by (rewrite length_map; exact Hi').
      rewrite map_nth, app_nth2, nth_repeat by lia.
      unfold pad. simpl. rewrite nth_repeat. destruct j; reflexivity.
    + rewrite (nth_overflow (map pad _) []) by (rewrite length_map; exact Hi').
      destruct j; reflexivity.
Qed.

Lemma to_sd_size painting :
  has_size hd_width hd_height painting ->
  has_size normal_width normal_height (to_sd painting).
Proof.
  intros [Hh Hw]. unfold to_sd, resize_painting, has_size. cbv beta iota zeta.
  rewrite length_map, length_firstn. split; [lia|].
  apply Forall_map, Forall_forall. intros arr Harr.
  assert (Hin : In arr painting).
  { rewrite <- (firstn_skipn normal_height painting).
    apply in_or_app; left; exact Harr. }
  apply (proj1 (Forall_forall _ _) Hw) in Hin.
  rewrite length_firstn. lia.
Qed.

Lemma cell_to_sd painting i j :
  (i < normal_height)%nat -> (j < normal_width)%nat ->
  cell (to_sd painting) i j = cell painting i j.
Proof.
  intros Hi Hj. unfold cell, to_sd, resize_painting. cbv beta iota zeta.
  assert (E : forall X : list (list Z),
            nth i (map (firstn normal_width) X) []
            = firstn normal_width (nth i X [])).
  { intros X. rewrite <- (map_nth (firstn normal_width) X [] i).
    rewrite firstn_nil. reflexivity. }
  rewrite E, nth_firstn, nth_firstn.
  replace (j <? normal_width)%nat with true
    by (symmetry; apply Nat.ltb_lt, Hj).
  replace (i <? normal_height)%nat with true
    by (symmetry; apply Nat.ltb_lt, Hi).
  reflexivity.
Qed.

Lemma cell_outside painting w h i j :
  has_size w h painting -> (h <= i)%nat \/ (w <= j)%nat ->
  cell painting i j = 0.
Proof.
  intros [Hh Hw] Hout. unfold cell.
  destruct (Nat.lt_ge_cases i (List.length painting)) as [Hi|Hi].
  - apply nth_overflow.
    rewrite (proj1 (Forall_forall _ _) Hw (nth i painting []))
      by (apply nth_In, Hi).
    lia.
  - rewrite (nth_overflow painting) by lia. destruct j; reflexivity.
Qed.

(** X14.  Switching the editor between its two canvas sizes, the small
    one fitting into the large one.  A painting of the small size becomes
    one of the large size with the same cells and 0 in the new ones, and
    switching back gives the painting again.  A painting of the large
    size becomes one of the small size that keeps the cells inside the
    small canvas; switching to the large size again leaves 0 in every
    cell outside it. *)
Theorem toggle_hd_resizes (painting : list (list Z)) :
  let toggle :=
    toggle_hd normal_width normal_height hd_width hd_height in
  (has_size normal_width normal_height painting ->
   has_size hd_width hd_height (snd (toggle (false, painting)))
   /\ fst (toggle (false, painting)) = true
   /\ (forall i j, cell (snd (toggle (false, painting))) i j
                   = cell painting i j)
   /\ toggle (toggle (false, painting)) = (false, painting))
  /\ (has_size hd_width hd_height painting ->
      has_size normal_width normal_height (snd (toggle (true, painting)))
      /\ fst (toggle (true, painting)) = false
      /\ has_size hd_width hd_height
           (snd (toggle (toggle (true, painting))))
      /\ forall i j,
           cell (snd (toggle (toggle (true, painting)))) i j
           = if (i <? normal_height)%nat && (j <? normal_width)%nat
             then cell painting i j else 0).
Proof.
  intros toggle. subst toggle. unfold toggle_hd. cbn [fst snd negb].
  fold to_hd to_sd. split.
  - intros Hs. refine (conj (to_hd_size _ Hs) (conj eq_refl (conj _ _))).
    + intros i j. apply cell_to_hd, Hs.
    + rewrite (to_sd_to_hd _ Hs). reflexivity.
  - intros Hs. pose proof (to_sd_size _ Hs) as Hsd.
    refine (conj Hsd (conj eq_refl (conj (to_hd_size _ Hsd) _))).
    intros i j. rewrite (cell_to_hd _ i j Hsd).
    destruct (Nat.ltb_spec i normal_height) as [Hi|Hi]; cbn [andb].
    + destruct (Nat.ltb_spec j normal_width) as [Hj|Hj].
      * apply cell_to_sd; assumption.
      * apply (cell_outside _ _ _ i j Hsd). right; exact Hj.
    + apply (cell_outside _ _ _ i j Hsd). left; exact Hi.
Qed.

End CanvasSizeFacts.

(** [toggle_hd_resizes] for a small canvas of 2 by 1 and a large one of 3
    by 2. *)
Lemma toggle_hd_resizes_witness :
  toggle_hd 2 1 3 2 (false, [[5; 6]]) = (true, [[5; 6; 0]; [0; 0; 0]])
  /\ toggle_hd 2 1 3 2 (toggle_hd 2 1 3 2 (false, [[5; 6]]))
     = (false, [[5; 6]]).
Proof.
  assert (Hw : (2 <= 3)%nat) by lia.
  assert (Hh : (1 <= 2)%nat) by lia.
  assert (Hs : has_size 2 1 [[5; 6]])
    by (split; [reflexivity | repeat constructor]).
  destruct (toggle_hd_resizes 2 1 3 2 Hw Hh [[5; 6]]) as [Hsmall _].
  destruct (Hsmall Hs) as (_ & _ & _ & Hback).
  split; [reflexivity | exact Hback].
Defined.

(* ================================================================== *)
(** * What is stored, and what a save refuses *)

Lemma stored_well_content r r' :
  content r = content r' -> stored_well r -> stored_well r'.
Proof.
  unfold content, select_columns, stored_well.
  intros [= Hn Hc Hi Hs Hh Hsh Hex _]. rewrite Hn, Hc, Hi, Hs, Hh, Hsh, Hex.
  tauto.
Qed.

Lemma mooseToRow_stored_well moose db db' :
  Forall stored_well (Moose_table db) ->
  saveMooseStmt_run (mooseToRow moose) db = Ok db' ->
  Forall stored_well (Moose_table db').
Proof.
  intros Hall. unfold saveMooseStmt_run.
  destruct (row_name (mooseToRow moose)) as [n|]; [|discriminate].
  destruct (row_created (mooseToRow moose)) as [c|] eqn:Hc; [|discriminate].
  destruct (row_image (mooseToRow moose)) as [i|]; [|discriminate].
  destruct (existsb (has_name n) (Moose_table db)); [discriminate|].
  intros [= <-]. unfold Moose_InsertTrigger. cbn [Moose_table].
  set (new := mkMooseRec _ (bind_text n) _ _ _ _ _ _ _).
  apply Forall_forall. intros r Hr.
  apply (Permutation_in _ (table_insert_perm new _)) in Hr.
  destruct Hr as [<-|Hr]; [|apply (proj1 (Forall_forall _ _) Hall r Hr)].
  subst new. unfold stored_well, mooseToRow in *. cbn in *.
  refine (conj _ (conj _ (conj _ (conj _ (conj _
           (conj (bind_text_well_formed n)
              (conj (bind_text_well_formed i) _))))))).
  - destruct (isNaN (ToNumber (created moose))) eqn:E; [discriminate|].
    injection Hc as <-.
    destruct (ToNumber (created moose)); try reflexivity. discriminate.
  - destruct (shade moose); discriminate.
  - destruct (truthy (hd moose)); auto.
  - destruct (truthy (shaded moose)); auto.
  - destruct (truthy (extended moose)); auto.
  - intros s. destruct (shade moose); cbn; intros [= <-];
      first [reflexivity | apply bind_text_well_formed].
Qed.

Lemma deleteMoose_stored_well n db :
  Forall stored_well (Moose_table db) ->
  Forall stored_well (Moose_table (deleteMoose n db)).
Proof.
  intros Hall. unfold deleteMoose, deleteMooseStmt_run.
  destruct (find (has_name n) (Moose_table db)) as [old|]; [|exact Hall].
  cbn [Moose_DelTrigger Moose_table].
  apply Forall_forall. intros r Hr.
  apply (in_map content) in Hr.
  apply (Permutation_in _ (move_max_rowid_content _ _)) in Hr.
  apply in_map_iff in Hr as [r0 [Hc Hr0]].
  apply filter_In in Hr0 as [Hr0 _].
  apply (stored_well_content r0 r Hc).
  apply (proj1 (Forall_forall _ _) Hall r0 Hr0).
Qed.

Lemma reachable_stored_well db :
  reachable db -> Forall stored_well (Moose_table db).
Proof.
  induction 1 as [|op db _ IH]; [constructor|].
  destruct op as [m|meese|n|n png]; simpl.
  - unfold saveMoose.
    destruct (saveMooseStmt_run (mooseToRow m) db) as [db'|e] eqn:Hs;
      [eapply mooseToRow_stored_well; eassumption | exact IH].
  - apply (bulkSaveMoose_preserves
             (fun db => Forall stored_well (Moose_table db))); [|exact IH].
    intros m db0 db1 H0 Hs. eapply mooseToRow_stored_well; eassumption.
  - apply deleteMoose_stored_well, IH.
  - unfold saveMoosePng, saveMoosePngStmt_run. cbn [Moose_table].
    apply Forall_map. eapply Forall_impl; [|exact IH].
    intros r Hr. destruct (has_name n r); exact Hr.
Qed.

(** X15.  In every reachable store each row has a number in [created],
    a [shade] that is not NULL, flags that are 0 or 1, and well-formed
    strings in [name], [image] and [shade]; and whatever [getMooseByName]
    returns for a name is a record with all seven properties present:
    its [name] is the name asked for as it is bound, [image] and [shade]
    are well-formed strings, [created] is a date, the flags are
    booleans. *)
Theorem reachable_rows_complete (db : Store) :
  reachable db ->
  Forall stored_well (Moose_table db)
  /\ forall n m,
       getMooseByName n db = Some m ->
       exists d i s h sh ex,
         m = mkMoose (Val (bind_text n)) (Val (CDate d)) (Val i) (Val s)
               (Val h) (Val sh) (Val ex)
         /\ well_formed i /\ well_formed s.
Proof.
  intros Hr. pose proof (reachable_stored_well db Hr) as Hall.
  split; [exact Hall|].
  intros n m. unfold getMooseByName, getMooseByNameStmt_get.
  destruct (find (has_name n) (Moose_table db)) as [r|] eqn:Hf;
    [|discriminate].
  apply find_name_is in Hf as [Hn Hin].
  destruct (proj1 (Forall_forall _ _) Hall r Hin)
    as (_ & Hs & _ & _ & _ & _ & Hi & Hsw).
  cbn. intros [= <-]. rewrite Hn.
  destruct (col_shade r) as [s|]; [|congruence].
  do 6 eexists. split; [reflexivity|]. split; [exact Hi | apply Hsw; reflexivity].
Qed.

(** [reachable_rows_complete] at the store into which a record named by a
    lone surrogate was saved: it is found under that name, and comes back
    named U+FFFD. *)
Lemma reachable_rows_complete_witness :
  let db := apply_mutation (SaveMoose moose_lone_surrogate) empty_store in
  let found :=
    mkMoose (Val [replacement_character]) (Val (CDate (Some 100)))
      (Val (str "img")) (Val []) (Val false) (Val false) (Val false) in
  getMooseByName [55296%N] db = Some found
  /\ exists d i s h sh ex,
       found = mkMoose (Val (bind_text [55296%N])) (Val (CDate d)) (Val i)
                 (Val s) (Val h) (Val sh) (Val ex)
       /\ well_formed i /\ well_formed s.
Proof.
  intros db found. split; [reflexivity|].
  apply (proj2 (reachable_rows_complete db (reach_step _ _ reach_empty))
           [55296%N] found).
  reflexivity.
Defined.

(** X16.  What [saveMoose] refuses, whatever the store holds.  A record
    without a name fails on the NOT NULL constraint of [name]; one with a
    name whose [created] has no numeric value on that of [created]; one
    with both and no image on that of [image].  These are the only
    exceptions other than the UNIQUE violation: one is thrown exactly if
    the record is not complete. *)
Theorem saveMoose_not_null (moose : Moose) (db : Store) :
  (name moose = Undefined \/ name moose = Null ->
   saveMoose moose db
   = Throw (SqliteError "NOT NULL constraint failed: Moose.name"))
  /\ (forall n, name moose = Val n ->
        isNaN (ToNumber (created moose)) = true ->
        saveMoose moose db
        = Throw (SqliteError "NOT NULL constraint failed: Moose.created"))
  /\ (forall n, name moose = Val n ->
        isNaN (ToNumber (created moose)) = false ->
        image moose = Undefined \/ image moose = Null ->
        saveMoose moose db
        = Throw (SqliteError "NOT NULL constraint failed: Moose.image"))
  /\ (complete moose = false
      <-> exists e, saveMoose moose db = Throw e
                    /\ is_unique_violation e = false).
Proof.
  unfold saveMoose, saveMooseStmt_run, complete, row_complete, mooseToRow.
  cbn [row_name row_created row_image].
  refine (conj _ (conj _ (conj _ _))).
  - intros [-> | ->]; reflexivity.
  - intros n -> ->. reflexivity.
  - intros n -> -> [-> | ->]; reflexivity.
  - destruct (name moose) as [| |n]; cbn [nullish_or];
      try (split; [intros _; eexists; split; reflexivity | reflexivity]).
    destruct (isNaN (ToNumber (created moose)));
      try (split; [intros _; eexists; split; reflexivity | reflexivity]).
    destruct (image moose) as [| |i]; cbn [nullish_or];
      try (split; [intros _; eexists; split; reflexivity | reflexivity]).
    split; [discriminate|].
    intros [e [He Hu]].
    destruct (existsb (has_name n) (Moose_table db)); [|discriminate].
    injection He as <-. discriminate Hu.
Qed.

(** [saveMoose_not_null] for the record without an image. *)
Lemma saveMoose_not_null_witness :
  saveMoose moose_no_image store_A_B
  = Throw (SqliteError "NOT NULL constraint failed: Moose.image").
Proof.
  apply (proj1 (proj2 (proj2 (saveMoose_not_null moose_no_image store_A_B)))
           (str "C")).
  - reflexivity.
  - reflexivity.
  - left; reflexivity.
Defined.
